(** * ModSyncer: a shallow embedding of [ModSyncer.py]

    The development follows the Python module top to bottom:
    - Python values, truthiness, exceptions and the [try]/[except Exception]
      construct;
    - the environment the code runs in (file system, network, loggers);
    - [ModRepository], [CurseForgeRepository], [ModConflictDetector];
    - [ModSyncer.sync_mods] over a [ThreadPoolExecutor], as a step function
      on an explicit state, with every interleaving given by a schedule;
    - the properties of the synchronisation report. *)

From Stdlib Require Import ZArith Lia Ascii.
From stdpp Require Import base option list gmap strings pretty.

Set Warnings "-register-all,-clear-no-such-hyp".

Local Open Scope Z_scope.
Local Open Scope nat_scope.

(** ** Python values *)

(** The values that flow through the module: what [response.json()] can
    return (JSON numbers restricted to integers), and the strings and [None]
    the methods return.  A dict keeps its items in insertion order. *)
Inductive val : Type :=
| VNone
| VBool (b : bool)
| VInt (z : Z)
| VStr (s : string)
| VList (l : list val)
| VDict (d : list (string * val)).

(** [bool(v)]: what [if v] and [if not v] test. *)
Definition truthy (v : val) : bool :=
  match v with
  | VNone => false
  | VBool b => b
  | VInt z => negb (Z.eqb z 0)
  | VStr s => negb (String.eqb s "")
  | VList l => match l with [] => false | _ => true end
  | VDict d => match d with [] => false | _ => true end
  end.

(** A raised object: whether it is an instance of [Exception] (and so is
    caught by [except Exception]) or only of [BaseException], as
    [SystemExit], [KeyboardInterrupt] and [GeneratorExit] are. *)
Record exn : Type := Exn { exn_is_Exception : bool; exn_name : string }.

Inductive outcome (A : Type) : Type :=
| Return (a : A)
| Raise (e : exn).
Arguments Return {A} a.
Arguments Raise {A} e.

(** Items of a dict, first binding of a key. *)
Fixpoint assoc (k : string) (d : list (string * val)) : option val :=
  match d with
  | [] => None
  | (k', v) :: d' => if String.eqb k k' then Some v else assoc k d'
  end.

(** [v.get(key, default)]: only a dict has the method. *)
Definition py_get (v : val) (key : string) (default : val) : outcome val :=
  match v with
  | VDict d => Return (from_option id default (assoc key d))
  | _ => Raise (Exn true "AttributeError")
  end.

(** [v[key]] for a string key. *)
Definition py_getitem_str (v : val) (key : string) : outcome val :=
  match v with
  | VDict d =>
      match assoc key d with
      | Some x => Return x
      | None => Raise (Exn true "KeyError")
      end
  | _ => Raise (Exn true "TypeError")
  end.

(** [v[0]]: the first element of a list, the first character of a string;
    the keys of a JSON object are strings, so [0] is never one of them. *)
Definition py_getitem_0 (v : val) : outcome val :=
  match v with
  | VList (x :: _) => Return x
  | VList [] => Raise (Exn true "IndexError")
  | VStr (String c _) => Return (VStr (String c ""))
  | VStr "" => Raise (Exn true "IndexError")
  | VDict _ => Raise (Exn true "KeyError")
  | _ => Raise (Exn true "TypeError")
  end.

(** ** Strings and paths *)

Definition ascii_lower (c : ascii) : ascii :=
  let n := nat_of_ascii c in
  if (65 <=? n) && (n <=? 90) then ascii_of_nat (n + 32) else c.

(** [str.lower()] on an ASCII identifier. *)
Fixpoint lower (s : string) : string :=
  match s with
  | "" => ""
  | String c s' => String (ascii_lower c) (lower s')
  end.

Definition startswith_sep (s : string) : bool :=
  match s with
  | String c _ => Ascii.eqb c "/"
  | "" => false
  end.

Fixpoint endswith_sep (s : string) : bool :=
  match s with
  | "" => false
  | String c "" => Ascii.eqb c "/"
  | String _ s' => endswith_sep s'
  end.

(** [os.path.join(a, b)] of [posixpath]: an absolute [b] replaces [a]. *)
Definition os_path_join (a b : string) : string :=
  if startswith_sep b then b
  else if String.eqb a "" || endswith_sep a then a +:+ b
  else a +:+ "/" +:+ b.

(** ** The environment *)

Inductive fsnode : Type :=
| Dir
| File (content : list Byte.byte).

Record response : Type := Response {
  status_code : Z;
  content : list Byte.byte;
  (** what [response.json()] returns; [None] when decoding raises *)
  json : option val
}.

Inductive http_result : Type :=
| HttpFault (name : string)     (* requests raises: connection, timeout, ... *)
| HttpResponse (r : response).

(** The world a call runs in.  Paths are compared as strings.  The network
    and the operating system are oracles indexed by a clock that ticks at
    every call, so that the same request may be answered differently at
    different times and any file-system call may be refused. *)
Record world : Type := World {
  fs : gmap string fsnode;
  clock : nat;
  log : list (string * string);   (* logger name, message of logger.error *)
  net : nat → string → list (string * string) → list (string * val) → http_result;
  os_denies : nat → string → bool
}.

Definition set_fs (f : gmap string fsnode → gmap string fsnode) (w : world) : world :=
  World (f (fs w)) (clock w) (log w) (net w) (os_denies w).
Definition tick (w : world) : world :=
  World (fs w) (S (clock w)) (log w) (net w) (os_denies w).
Definition add_log (name msg : string) (w : world) : world :=
  World (fs w) (clock w) (log w ++ [(name, msg)]) (net w) (os_denies w).

(** A Python computation: it reads and writes the world and returns or
    raises. *)
Definition py (A : Type) : Type := world → outcome A * world.

Definition py_ret {A} (a : A) : py A := λ w, (Return a, w).
Definition py_raise {A} (e : exn) : py A := λ w, (Raise e, w).
Definition py_bind {A B} (c : py A) (k : A → py B) : py B :=
  λ w, match c w with
       | (Return a, w') => k a w'
       | (Raise e, w') => (Raise e, w')
       end.
Definition py_lift {A} (o : outcome A) : py A := λ w, (o, w).

Notation "x ←p c ;; k" := (py_bind c (λ x, k))
  (at level 100, c at next level, right associativity,
   format "x  ←p  c ;;  '/' k").
Notation "c ;;p k" := (py_bind c (λ _, k))
  (at level 100, right associativity).

(** [try: body except Exception as e: handler(e)].  An object that is not
    an instance of [Exception] passes through. *)
Definition try_except {A} (body : py A) (handler : exn → py A) : py A :=
  λ w, match body w with
       | (Return a, w') => (Return a, w')
       | (Raise e, w') =>
           if exn_is_Exception e then handler e w' else (Raise e, w')
       end.

(** [logger.error(msg)] of the logger called [name]. *)
Definition logger_error (name msg : string) : py unit :=
  λ w, (Return tt, add_log name msg w).

(** [os.makedirs(p, exist_ok=True)]. *)
Definition os_makedirs (p : string) : py unit :=
  λ w, let w1 := tick w in
       if os_denies w (clock w) p then (Raise (Exn true "OSError"), w1)
       else match fs w !! p with
            | Some (File _) => (Raise (Exn true "FileExistsError"), w1)
            | _ => (Return tt, set_fs (insert p Dir) w1)
            end.

(** [with open(p, 'wb') as f: f.write(data)]. *)
Definition write_file (p : string) (data : list Byte.byte) : py unit :=
  λ w, let w1 := tick w in
       if os_denies w (clock w) p then (Raise (Exn true "OSError"), w1)
       else match fs w !! p with
            | Some Dir => (Raise (Exn true "IsADirectoryError"), w1)
            | _ => (Return tt, set_fs (insert p (File data)) w1)
            end.

(** [requests.get(url, headers=..., params=...)]: a URL that is not a
    string is refused by the library before any request is sent. *)
Definition requests_get (url : val) (headers : list (string * string))
    (params : list (string * val)) : py response :=
  λ w, let w1 := tick w in
       match url with
       | VStr u =>
           match net w (clock w) u headers params with
           | HttpFault name => (Raise (Exn true name), w1)
           | HttpResponse r => (Return r, w1)
           end
       | _ => (Raise (Exn true "MissingSchema"), w1)
       end.

(** [response.raise_for_status()]. *)
Definition raise_for_status (r : response) : py unit :=
  if (400 <=? status_code r)%Z && (status_code r <? 600)%Z
  then py_raise (Exn true "HTTPError") else py_ret tt.

(** [response.json()]. *)
Definition response_json (r : response) : py val :=
  match json r with
  | Some v => py_ret v
  | None => py_raise (Exn true "JSONDecodeError")
  end.

(** ** [ModRepository] *)

(** A repository object as [ModSyncer] sees it: its attributes and its two
    methods, whatever subclass it is an instance of. *)
Record ModRepository : Type := {
  class_name : string;               (* self.__class__.__name__ *)
  cache_dir : string;
  cache_file : string;
  get_latest_version : string → string → py val;
  download_mod : string → val → py val
}.

(** [ModRepository.__init__(self, cache_dir)] for an instance of the class
    named [cls]: the values of [self.cache_dir] and [self.cache_file]. *)
Definition ModRepository_init (cls cache_dir : string) : py (string * string) :=
  let self_cache_dir := os_path_join cache_dir (lower cls) in
  os_makedirs self_cache_dir ;;p
  py_ret (self_cache_dir, os_path_join self_cache_dir "mod_cache.json").

(** The methods of the base class. *)
Definition ModRepository_get_latest_version (mod_id minecraft_version : string) : py val :=
  py_raise (Exn true "NotImplementedError").
Definition ModRepository_download_mod (mod_id : string) (version_info : val) : py val :=
  py_raise (Exn true "NotImplementedError").

(** ** [CurseForgeRepository] *)

Definition BASE_URL : string := "https://api.curseforge.com/v1".

Record CurseForgeRepository : Type := {
  cf_cache_dir : string;
  cf_cache_file : string;
  headers : list (string * string)
}.

Definition CurseForgeRepository_init (api_key cache_dir : string) : py CurseForgeRepository :=
  base ←p ModRepository_init "CurseForgeRepository" cache_dir ;;
  py_ret {| cf_cache_dir := base.1;
            cf_cache_file := base.2;
            headers := [("Accept", "application/json"); ("x-api-key", api_key)] |}.

Definition CurseForgeRepository_get_latest_version (self : CurseForgeRepository)
    (mod_id minecraft_version : string) : py val :=
  try_except
    (let url := BASE_URL +:+ "/mods/" +:+ mod_id +:+ "/files" in
     let params := [("gameVersion", VStr minecraft_version);
                    ("sortOrder", VStr "desc");
                    ("pageSize", VInt 1)] in
     response ←p requests_get (VStr url) (headers self) params ;;
     raise_for_status response ;;p
     body ←p response_json response ;;
     versions ←p py_lift (py_get body "data" (VList [])) ;;
     if truthy versions then py_lift (py_getitem_0 versions) else py_ret VNone)
    (λ e,
     logger_error "CurseForgeRepository"
       ("Failed to fetch versions for mod " +:+ mod_id +:+ ": " +:+ exn_name e) ;;p
     py_ret VNone).

(** [os.path.join(download_dir, filename)]: [filename] must be a string. *)
Definition py_path_join (dir : string) (filename : val) : outcome string :=
  match filename with
  | VStr f => Return (os_path_join dir f)
  | _ => Raise (Exn true "TypeError")
  end.

Definition CurseForgeRepository_download_mod (self : CurseForgeRepository)
    (mod_id : string) (version_info : val) : py val :=
  try_except
    (download_url ←p py_lift (py_getitem_str version_info "downloadUrl") ;;
     filename ←p py_lift (py_getitem_str version_info "fileName") ;;
     let download_dir := os_path_join (cf_cache_dir self) "downloads" in
     os_makedirs download_dir ;;p
     file_path ←p py_lift (py_path_join download_dir filename) ;;
     response ←p requests_get download_url (headers self) [] ;;
     raise_for_status response ;;p
     write_file file_path (content response) ;;p
     py_ret (VStr file_path))
    (λ e,
     logger_error "CurseForgeRepository"
       ("Failed to download mod " +:+ mod_id +:+ ": " +:+ exn_name e) ;;p
     py_ret VNone).

(** A [CurseForgeRepository] seen through the base class. *)
Definition as_ModRepository (self : CurseForgeRepository) : ModRepository :=
  {| class_name := "CurseForgeRepository";
     cache_dir := cf_cache_dir self;
     cache_file := cf_cache_file self;
     get_latest_version := CurseForgeRepository_get_latest_version self;
     download_mod := CurseForgeRepository_download_mod self |}.

(** ** [ModConflictDetector] *)

Record ModConflictDetector : Type := { cd_mods_directory : string }.

(** [detect_conflicts(self)]: the placeholder body builds an empty list and
    returns it. *)
Definition detect_conflicts (self : ModConflictDetector) : list val :=
  let conflicts := [] in
  conflicts.

(** ** [ModSyncer] *)

Record ModSyncer : Type := {
  mods_directory : string;
  minecraft_version : string;
  repositories : list ModRepository;
  conflict_detector : ModConflictDetector
}.

(** [ModSyncer.__init__]; [repositories] is [None] when the argument is
    left out. *)
Definition ModSyncer_init (mods_directory minecraft_version : string)
    (repositories : option (list ModRepository)) : py ModSyncer :=
  os_makedirs mods_directory ;;p
  py_ret {| mods_directory := mods_directory;
            minecraft_version := minecraft_version;
            repositories := from_option id [] repositories;
            conflict_detector := {| cd_mods_directory := mods_directory |} |}.

(** The dict [_sync_single_mod] returns on success. *)
Record synced : Type := {
  mod_id : string;
  version : val;
  download_path : val
}.

Record report : Type := {
  updated_mods : list synced;
  failed_mods : list string;
  conflicts : list val
}.

Definition sync_failed (self : ModSyncer) (mod_id : string) (e : exn) : py (option synced) :=
  logger_error "ModSyncer" ("Failed to sync mod " +:+ mod_id +:+ ": " +:+ exn_name e) ;;p
  py_ret None.

(** [ModSyncer._sync_single_mod(self, mod_id, repository)]. *)
Definition _sync_single_mod (self : ModSyncer) (mod_id : string)
    (repository : ModRepository) : py (option synced) :=
  try_except
    (latest_version ←p get_latest_version repository mod_id (minecraft_version self) ;;
     if negb (truthy latest_version) then py_ret None else
     download_path ←p download_mod repository mod_id latest_version ;;
     if negb (truthy download_path) then py_ret None else
     py_ret (Some {| mod_id := mod_id;
                     version := latest_version;
                     download_path := download_path |}))
    (sync_failed self mod_id).

(** The same method cut at the one point where another thread can run
    between its two calls to the repository: up to the end of
    [get_latest_version], and from [download_mod] on. *)
Inductive progress : Type :=
| Continue (latest_version : val)
| Finished (result : option synced).

Definition _sync_single_mod_resolve (self : ModSyncer) (mod_id : string)
    (repository : ModRepository) : py progress :=
  try_except
    (latest_version ←p get_latest_version repository mod_id (minecraft_version self) ;;
     if negb (truthy latest_version) then py_ret (Finished None)
     else py_ret (Continue latest_version))
    (λ e, r ←p sync_failed self mod_id e ;; py_ret (Finished r)).

Definition _sync_single_mod_fetch (self : ModSyncer) (mod_id : string)
    (repository : ModRepository) (latest_version : val) : py (option synced) :=
  try_except
    (download_path ←p download_mod repository mod_id latest_version ;;
     if negb (truthy download_path) then py_ret None else
     py_ret (Some {| mod_id := mod_id;
                     version := latest_version;
                     download_path := download_path |}))
    (sync_failed self mod_id).

(** ** [ModSyncer.sync_mods] over the thread pool *)

(** [ThreadPoolExecutor(max_workers=5)]. *)
Definition max_workers : nat := 5.

(** The futures, in the order of the two nested [for] loops: one per mod
    of [mod_list] and repository of [self.repositories].  Future [i] is
    the [i]-th call to [executor.submit], and [futures[future]] is the mod
    of that pair. *)
Definition attempts (self : ModSyncer) (mod_list : list string)
    : list (string * ModRepository) :=
  mod_id ← mod_list; repo ← repositories self; [(mod_id, repo)].

(** Where a worker thread is inside [_sync_single_mod]. *)
Inductive phase : Type :=
| AtResolve
| AtFetch (latest_version : val).

(** A worker thread of the pool: waiting on the work queue, or running the
    work item of a future. *)
Inductive thread : Type :=
| Idle
| Busy (future : nat) (ph : phase).

Definition is_busy (t : thread) : bool :=
  match t with Busy _ _ => true | Idle => false end.

(** The thread that called [sync_mods]: inside the [with] block, leaving
    it with an exception in flight, or out of the call. *)
Inductive main_pc : Type :=
| InSync
| Unwinding (e : exn)
| Returned (r : report)
| Raised (e : exn).

Inductive event : Type :=
| EvSubmit (future : nat)
| EvStart (future : nat)
| EvDone (future : nat)
| EvYield (future : nat)
| EvDetect (detector : ModConflictDetector).

Record state : Type := State {
  world_of : world;
  pc : main_pc;
  submitted : nat;                       (* len(futures) *)
  work_queue : list nat;                 (* work items no thread has taken *)
  threads : list thread;
  results : gmap nat (outcome (option synced));   (* the finished futures *)
  yielded : list nat;                    (* what as_completed has yielded *)
  cur_report : report;
  trace : list event
}.

Definition initial (w : world) : state :=
  State w InSync 0 [] [] ∅ []
        {| updated_mods := []; failed_mods := []; conflicts := [] |} [].

(** The body of the [for future in as_completed(futures)] loop. *)
Definition collect (mod_id : string) (o : outcome (option synced)) (r : report)
    : py report :=
  try_except
    (result ←p py_lift o ;;
     match result with
     | Some d =>     (* a dict of three items is truthy *)
         py_ret {| updated_mods := updated_mods r ++ [d];
                   failed_mods := failed_mods r;
                   conflicts := conflicts r |}
     | None =>
         py_ret {| updated_mods := updated_mods r;
                   failed_mods := failed_mods r ++ [mod_id];
                   conflicts := conflicts r |}
     end)
    (λ e,
     logger_error "ModSyncer" ("Error syncing mod " +:+ mod_id +:+ ": " +:+ exn_name e) ;;p
     py_ret {| updated_mods := updated_mods r;
               failed_mods := failed_mods r ++ [mod_id];
               conflicts := conflicts r |}).

(** What one thread does in one step.  The calls of a repository method
    are the units of interleaving: such a call acts on the world at once.
    A failure of [executor.submit] itself (the interpreter cannot start a
    thread) is outside the model. *)
Inductive action : Type :=
| Submit              (* main: one executor.submit of the nested loops *)
| Take (t : nat)      (* worker t takes the head of the work queue *)
| Work (t : nat)      (* worker t runs its work item up to the next cut *)
| Yield (i : nat)     (* main: as_completed yields future i, the body runs *)
| Shutdown            (* main: the with block is left by an exception *)
| Finish.             (* main: the with block ends, conflicts, return *)

Definition all_idle (ts : list thread) : bool := forallb (λ t, negb (is_busy t)) ts.

(** Worker [t] has finished future [i] with outcome [o]. *)
Definition finish_future (st : state) (t i : nat) (o : outcome (option synced))
    (w' : world) : state :=
  State w' (pc st) (submitted st) (work_queue st)
        (<[t := Idle]> (threads st))
        (<[i := o]> (results st)) (yielded st) (cur_report st)
        (trace st ++ [EvDone i]).

(** One step of one thread, or [None] when the action is not enabled.
    - [Submit]: [executor.submit] creates the next future, puts its work
      item in the queue, and starts a worker thread while the pool has
      fewer than [max_workers] of them.
    - [Take t], [Work t]: a worker takes one work item at a time from the
      head of the queue and runs [_sync_single_mod]; what the call returns
      or raises, whatever its class, becomes the result of the future.
    - [Yield i]: once the two loops have submitted everything,
      [as_completed] yields the finished futures, each once, in any order;
      [future.result()] returns the result or raises it again.
    - [Shutdown], [Finish]: leaving the [with] block waits until the queue
      is empty and the workers are done; then the exception goes on to the
      caller, or [detect_conflicts] is called and the report returned. *)
Definition step (self : ModSyncer) (mod_list : list string) (a : action)
    (st : state) : option state :=
  let futures := attempts self mod_list in
  match a with
  | Submit =>
      match pc st with
      | InSync =>
          if decide (submitted st < length futures) then
            Some (State (world_of st) InSync (S (submitted st))
                    (work_queue st ++ [submitted st])
                    (if decide (length (threads st) < max_workers)
                     then threads st ++ [Idle] else threads st)
                    (results st) (yielded st) (cur_report st)
                    (trace st ++ [EvSubmit (submitted st)]))
          else None
      | _ => None
      end
  | Take t =>
      match threads st !! t, work_queue st with
      | Some Idle, i :: q =>
          Some (State (world_of st) (pc st) (submitted st) q
                  (<[t := Busy i AtResolve]> (threads st))
                  (results st) (yielded st) (cur_report st)
                  (trace st ++ [EvStart i]))
      | _, _ => None
      end
  | Work t =>
      match threads st !! t with
      | Some (Busy i ph) =>
          match futures !! i with
          | Some (mod_id, repo) =>
              match ph with
              | AtResolve =>
                  match _sync_single_mod_resolve self mod_id repo (world_of st) with
                  | (Return (Continue v), w') =>
                      Some (State w' (pc st) (submitted st) (work_queue st)
                              (<[t := Busy i (AtFetch v)]> (threads st))
                              (results st) (yielded st) (cur_report st) (trace st))
                  | (Return (Finished r), w') => Some (finish_future st t i (Return r) w')
                  | (Raise e, w') => Some (finish_future st t i (Raise e) w')
                  end
              | AtFetch v =>
                  match _sync_single_mod_fetch self mod_id repo v (world_of st) with
                  | (o, w') => Some (finish_future st t i o w')
                  end
              end
          | None => None
          end
      | _ => None
      end
  | Yield i =>
      match pc st, results st !! i, futures !! i with
      | InSync, Some o, Some (mod_id, _) =>
          if decide (submitted st = length futures ∧ i ∉ yielded st) then
            match collect mod_id o (cur_report st) (world_of st) with
            | (Return r, w') =>
                Some (State w' InSync (submitted st) (work_queue st) (threads st)
                        (results st) (yielded st ++ [i]) r
                        (trace st ++ [EvYield i]))
            | (Raise e, w') =>
                Some (State w' (Unwinding e) (submitted st) (work_queue st)
                        (threads st) (results st) (yielded st ++ [i])
                        (cur_report st) (trace st ++ [EvYield i]))
            end
          else None
      | _, _, _ => None
      end
  | Shutdown =>
      match pc st with
      | Unwinding e =>
          if all_idle (threads st) && bool_decide (work_queue st = []) then
            Some (State (world_of st) (Raised e) (submitted st) (work_queue st)
                    (threads st) (results st) (yielded st) (cur_report st)
                    (trace st))
          else None
      | _ => None
      end
  | Finish =>
      match pc st with
      | InSync =>
          if bool_decide (submitted st = length futures
                          ∧ Forall (λ i, i ∈ yielded st) (seq 0 (length futures)))
             && all_idle (threads st) && bool_decide (work_queue st = [])
          then
            let r := {| updated_mods := updated_mods (cur_report st);
                        failed_mods := failed_mods (cur_report st);
                        conflicts := detect_conflicts (conflict_detector self) |} in
            Some (State (world_of st) (Returned r) (submitted st) (work_queue st)
                    (threads st) (results st) (yielded st) r
                    (trace st ++ [EvDetect (conflict_detector self)]))
          else None
      | _ => None
      end
  end.

(** A schedule is the list of actions the threads take, in order; an
    action that is not enabled when its turn comes is skipped. *)
Definition run (self : ModSyncer) (mod_list : list string) (sched : list action)
    (st : state) : state :=
  foldl (λ s a, from_option id s (step self mod_list a s)) st sched.

(** [self.sync_mods(mod_list)] under a schedule: what the call returns or
    raises and the world it leaves, or [None] when the schedule ends before
    the call does. *)
Definition sync_mods (self : ModSyncer) (mod_list : list string)
    (sched : list action) (w : world) : option (outcome report * world) :=
  let st := run self mod_list sched (initial w) in
  match pc st with
  | Returned r => Some (Return r, world_of st)
  | Raised e => Some (Raise e, world_of st)
  | _ => None
  end.

(** One thread does all the work, future after future. *)
Definition sequential_schedule (n : nat) : list action :=
  replicate n Submit
  ++ mjoin (replicate n [Take 0; Work 0; Work 0])
  ++ (Yield <$> seq 0 n)
  ++ [Finish; Shutdown].

Definition busy_count (ts : list thread) : nat :=
  length (filter (λ t, Is_true (is_busy t)) ts).

(** Attempts in flight: the worker threads that are running one. *)
Definition in_flight (st : state) : nat := busy_count (threads st).

Definition is_start (e : event) : bool :=
  match e with EvStart _ => true | _ => false end.
Definition is_done (e : event) : bool :=
  match e with EvDone _ => true | _ => false end.

(** What an observer of the trace counts: attempts started, attempts
    done. *)
Definition started (tr : list event) : nat :=
  length (filter (λ e, Is_true (is_start e)) tr).
Definition completed (tr : list event) : nat :=
  length (filter (λ e, Is_true (is_done e)) tr).

(** [futures[future]] for future [i]. *)
Definition future_mod (self : ModSyncer) (mod_list : list string) (i : nat) : string :=
  from_option fst "" (attempts self mod_list !! i).

(** The mods named in a report, those of [updated_mods] first. *)
Definition reported (r : report) : list string :=
  (mod_id <$> updated_mods r) ++ failed_mods r.

(** * Properties *)

(** ** The method and its two halves *)

Lemma _sync_single_mod_split self m repo w :
  _sync_single_mod self m repo w =
  (p ←p _sync_single_mod_resolve self m repo ;;
   match p with
   | Continue v => _sync_single_mod_fetch self m repo v
   | Finished r => py_ret r
   end) w.
Proof.
  unfold _sync_single_mod, _sync_single_mod_resolve, _sync_single_mod_fetch,
    try_except, py_bind, py_ret, sync_failed, logger_error.
  destruct (get_latest_version repo m (minecraft_version self) w) as [[v|e] w1];
    [|by destruct (exn_is_Exception e)].
  destruct (truthy v); simpl; [|done].
  destruct (download_mod repo m v w1) as [[p|e] w2]; [|done].
  by destruct (truthy p).
Qed.

(** [_sync_single_mod] catches every instance of [Exception]: what it
    raises, if anything, is not one. *)
Lemma _sync_single_mod_resolve_raises self m repo w e w' :
  _sync_single_mod_resolve self m repo w = (Raise e, w') →
  exn_is_Exception e = false.
Proof.
  unfold _sync_single_mod_resolve, try_except, py_bind, py_ret, sync_failed,
    logger_error.
  destruct (get_latest_version repo m (minecraft_version self) w) as [[v|e0] w1].
  - destruct (truthy v); simpl; intros; simplify_eq.
  - destruct (exn_is_Exception e0) eqn:He; intros; by simplify_eq.
Qed.

Lemma _sync_single_mod_fetch_raises self m repo v w e w' :
  _sync_single_mod_fetch self m repo v w = (Raise e, w') →
  exn_is_Exception e = false.
Proof.
  unfold _sync_single_mod_fetch, try_except, py_bind, py_ret, sync_failed,
    logger_error.
  destruct (download_mod repo m v w) as [[p|e0] w1].
  - destruct (truthy p); simpl; intros; simplify_eq.
  - destruct (exn_is_Exception e0) eqn:He; intros; by simplify_eq.
Qed.

(** ** Reasoning on runs *)

Section Runs.
Context (self : ModSyncer) (mod_list : list string).

Lemma run_app s1 s2 st :
  run self mod_list (s1 ++ s2) st = run self mod_list s2 (run self mod_list s1 st).
Proof. apply foldl_app. Qed.

Lemma run_cons a s st :
  run self mod_list (a :: s) st =
  run self mod_list s (from_option id st (step self mod_list a st)).
Proof. done. Qed.

(** A property that every enabled action keeps holds along every run. *)
Lemma run_invariant (P : state → Prop) :
  (∀ a st st', P st → step self mod_list a st = Some st' → P st') →
  ∀ sched st, P st → P (run self mod_list sched st).
Proof.
  intros Hstep sched. induction sched as [|a sched IH]; intros st HP; [done|].
  rewrite run_cons. apply IH.
  destruct (step self mod_list a st) as [st'|] eqn:Hs; simpl; eauto.
Qed.

End Runs.

(** Case analysis on an enabled step: one goal per way an action can fire. *)
Ltac step_cases H :=
  unfold step, finish_future in H;
  repeat (case_match; try done);
  simplify_eq/=.

(** ** The pool never runs more than [max_workers] attempts *)

Lemma busy_count_le ts : busy_count ts ≤ length ts.
Proof. apply length_filter. Qed.

Lemma busy_count_app ts1 ts2 : busy_count (ts1 ++ ts2) = busy_count ts1 + busy_count ts2.
Proof. unfold busy_count. by rewrite filter_app, length_app. Qed.

Lemma busy_count_insert ts t x y :
  ts !! t = Some x →
  busy_count (<[t := y]> ts) + (if is_busy x then 1 else 0)
  = busy_count ts + (if is_busy y then 1 else 0).
Proof.
  revert t. induction ts as [|z ts IH]; intros [|t] Hx; simplify_eq/=.
  - unfold busy_count. rewrite !filter_cons.
    destruct (is_busy x), (is_busy y); simpl; repeat case_decide; simpl in *; try done; lia.
  - specialize (IH _ Hx). unfold busy_count in *. rewrite !filter_cons.
    case_decide; simpl; lia.
Qed.

Lemma started_snoc tr e : started (tr ++ [e]) = started tr + (if is_start e then 1 else 0).
Proof.
  unfold started. rewrite filter_app, length_app, filter_cons, filter_nil.
  destruct (is_start e); case_decide; simpl in *; done.
Qed.

Lemma completed_snoc tr e : completed (tr ++ [e]) = completed tr + (if is_done e then 1 else 0).
Proof.
  unfold completed. rewrite filter_app, length_app, filter_cons, filter_nil.
  destruct (is_done e); case_decide; simpl in *; done.
Qed.

Definition pool_inv (st : state) : Prop :=
  length (threads st) ≤ max_workers
  ∧ started (trace st) = completed (trace st) + in_flight st.

Lemma pool_inv_step self mod_list a st st' :
  pool_inv st → step self mod_list a st = Some st' → pool_inv st'.
Proof.
  unfold pool_inv, in_flight. intros [Hlen Hcnt] Hstep.
  step_cases Hstep;
    rewrite ?started_snoc, ?completed_snoc, ?length_app, ?length_insert,
      ?busy_count_app; simpl.
  all: try match goal with
       | H : ?ts !! ?t = Some _ |- context [<[?t := ?y]> ?ts] =>
           pose proof (busy_count_insert _ _ _ y H); simpl in *
       end.
  all: try (split; lia).
  change (busy_count [Idle]) with 0. split; lia.
Qed.

(** ** What [collect] does to the report *)

Lemma collect_Return m o r w r' w' :
  collect m o r w = (Return r', w') →
  conflicts r' = conflicts r
  ∧ ((∃ d, o = Return (Some d)
        ∧ updated_mods r' = updated_mods r ++ [d]
        ∧ failed_mods r' = failed_mods r)
     ∨ (updated_mods r' = updated_mods r
        ∧ failed_mods r' = failed_mods r ++ [m]
        ∧ (o = Return None ∨ ∃ e, o = Raise e ∧ exn_is_Exception e = true))).
Proof.
  unfold collect, try_except, py_bind, py_lift, py_ret, logger_error.
  destruct o as [[d|]|e]; simpl.
  - intros; simplify_eq/=. split; [done|]. left. eauto.
  - intros; simplify_eq/=. split; [done|]. right. eauto.
  - destruct (exn_is_Exception e) eqn:He; intros; simplify_eq/=.
    split; [done|]. right. eauto 10.
Qed.

Lemma collect_Raise m o r w e w' :
  collect m o r w = (Raise e, w') →
  o = Raise e ∧ exn_is_Exception e = false.
Proof.
  unfold collect, try_except, py_bind, py_lift, py_ret, logger_error.
  destruct o as [[d|]|e0]; simpl; try (intros; by simplify_eq/=).
  destruct (exn_is_Exception e0) eqn:He; intros; by simplify_eq/=.
Qed.

(** ** The invariant of [sync_mods] *)

Section Invariant.
Context (self : ModSyncer) (mod_list : list string).

Record sync_inv (st : state) : Prop := {
  inv_submitted : submitted st ≤ length (attempts self mod_list);
  inv_yielded_nodup : NoDup (yielded st);
  inv_yielded_done : ∀ i, i ∈ yielded st → is_Some (results st !! i);
  inv_results_lt : ∀ i, is_Some (results st !! i) → i < length (attempts self mod_list);
  inv_results_mod : ∀ i d,
    results st !! i = Some (Return (Some d)) → mod_id d = future_mod self mod_list i;
  inv_results_exn : ∀ i e,
    results st !! i = Some (Raise e) → exn_is_Exception e = false;
  inv_results_trace : ∀ i, is_Some (results st !! i) → EvDone i ∈ trace st;
  inv_report :
    match pc st with
    | InSync | Returned _ =>
        reported (cur_report st) ≡ₚ future_mod self mod_list <$> yielded st
    | _ => True
    end;
  inv_conflicts : conflicts (cur_report st) = [];
  inv_returned :
    match pc st with
    | Returned r =>
        r = cur_report st
        ∧ submitted st = length (attempts self mod_list)
        ∧ Forall (λ i, i ∈ yielded st) (seq 0 (length (attempts self mod_list)))
        ∧ all_idle (threads st) = true
        ∧ work_queue st = []
        ∧ ∃ tr, trace st = tr ++ [EvDetect (conflict_detector self)]
                ∧ (∀ d, EvDetect d ∉ tr)
                ∧ (∀ i, i < length (attempts self mod_list) → EvDone i ∈ tr)
    | _ => ∀ d, EvDetect d ∉ trace st
    end
}.

Lemma sync_inv_initial w : sync_inv (initial w).
Proof.
  split; simpl; try done.
  - lia.
  - constructor.
  - intros i Hi. by apply elem_of_nil in Hi.
  - intros i [? Hi]. by rewrite lookup_empty in Hi.
  - intros i [? Hi]. by rewrite lookup_empty in Hi.
  - intros d Hd. by apply elem_of_nil in Hd.
Qed.

Lemma all_idle_lookup ts t i ph :
  all_idle ts = true → ts !! t = Some (Busy i ph) → False.
Proof.
  unfold all_idle. rewrite forallb_forall. intros Hall Ht.
  apply list_elem_of_lookup_2, list_elem_of_In, Hall in Ht. done.
Qed.

Lemma not_detect_snoc tr e :
  (∀ d, EvDetect d ∉ tr) → (∀ d, e ≠ EvDetect d) → ∀ d, EvDetect d ∉ tr ++ [e].
Proof.
  intros Htr He d [?|Hd%list_elem_of_singleton]%elem_of_app; [by eapply Htr|by eapply He].
Qed.

Ltac inv_auto :=
  try done; try lia; eauto;
  try (intros; apply elem_of_app; left; by eauto);
  try (apply not_detect_snoc; [by eauto|done]).

Lemma _sync_single_mod_resolve_Finished m repo w r w' :
  _sync_single_mod_resolve self m repo w = (Return (Finished r), w') → r = None.
Proof.
  unfold _sync_single_mod_resolve, try_except, py_bind, py_ret, sync_failed,
    logger_error.
  destruct (get_latest_version repo m (minecraft_version self) w) as [[v|e0] w1].
  - destruct (truthy v); simpl; intros; by simplify_eq.
  - destruct (exn_is_Exception e0) eqn:He; simpl; intros; by simplify_eq.
Qed.

Lemma _sync_single_mod_fetch_Some m repo v w d w' :
  _sync_single_mod_fetch self m repo v w = (Return (Some d), w') →
  d = {| mod_id := m; version := v; download_path := download_path d |}
  ∧ truthy (download_path d) = true
  ∧ download_mod repo m v w = (Return (download_path d), w').
Proof.
  unfold _sync_single_mod_fetch, try_except, py_bind, py_ret, sync_failed,
    logger_error.
  destruct (download_mod repo m v w) as [[p|e0] w1].
  - destruct (truthy p) eqn:Hp; simpl; intros; by simplify_eq.
  - destruct (exn_is_Exception e0) eqn:He; intros; by simplify_eq.
Qed.

Lemma future_mod_lookup i m repo :
  attempts self mod_list !! i = Some (m, repo) → future_mod self mod_list i = m.
Proof. unfold future_mod. by intros ->. Qed.

(** A worker that finishes future [i] keeps the invariant. *)
Lemma sync_inv_finish st t i m repo o w' :
  sync_inv st →
  attempts self mod_list !! i = Some (m, repo) →
  (∀ d, o = Return (Some d) → mod_id d = m) →
  (∀ e, o = Raise e → exn_is_Exception e = false) →
  (∀ r, pc st ≠ Returned r) →
  sync_inv (finish_future st t i o w').
Proof.
  intros [] Hi Hmod Hexn Hpc. split; simpl; try done.
  - intros j Hj. apply lookup_insert_is_Some'. eauto.
  - intros j [?|Hj]%lookup_insert_is_Some'; [subst; by eapply lookup_lt_Some|eauto].
  - intros j d. rewrite lookup_insert. case_decide as Hij.
    + intros [= ->]. subst j. rewrite (future_mod_lookup _ _ _ Hi). eauto.
    + eauto.
  - intros j e. rewrite lookup_insert. case_decide; [intros [= ->]|]; eauto.
  - intros j [?|Hj]%lookup_insert_is_Some'; subst; apply elem_of_app.
    + right. by apply list_elem_of_singleton.
    + left. eauto.
  - destruct (pc st) eqn:Hp; try (apply not_detect_snoc; [by eauto|done]).
    by destruct (Hpc r).
Qed.

Lemma sync_inv_not_Returned_busy st t i ph :
  sync_inv st → threads st !! t = Some (Busy i ph) → ∀ r, pc st ≠ Returned r.
Proof.
  intros [] Ht r Hr. rewrite Hr in *.
  destruct inv_returned0 as (_ & _ & _ & Hidle & _). eauto using all_idle_lookup.
Qed.

Lemma sync_inv_step a st st' :
  sync_inv st → step self mod_list a st = Some st' → sync_inv st'.
Proof.
  intros Hinv Hstep. destruct a.
  - (* Submit *)
    step_cases Hstep; destruct Hinv; split; simpl in *;
      repeat match goal with H : pc st = _ |- _ => rewrite H in *; clear H end;
      inv_auto.
  - (* Take *)
    step_cases Hstep;
      destruct Hinv as [Hsub Hnd Hyd Hlt Hmod Hexn Htr Hrep Hconf Hret];
      split; simpl in *; inv_auto.
    destruct (pc st); try (apply not_detect_snoc; [by eauto|done]).
    destruct Hret as (_ & _ & _ & _ & Hq & _). congruence.
  - (* Work *)
    pose proof (sync_inv_not_Returned_busy st t) as Hnr.
    unfold step in Hstep.
    destruct (threads st !! t) as [[|i ph]|] eqn:Ht; try done.
    specialize (Hnr i ph Hinv eq_refl).
    destruct (attempts self mod_list !! i) as [[m repo]|] eqn:Hi; try done.
    destruct ph as [|v].
    + destruct (_sync_single_mod_resolve self m repo (world_of st))
        as [[[v|r]|e] w'] eqn:Hres; simplify_eq/=.
      * destruct Hinv; split; simpl in *; inv_auto.
        destruct (pc st) eqn:Hp; eauto. by destruct (Hnr r).
      * apply _sync_single_mod_resolve_Finished in Hres as ->.
        eapply sync_inv_finish; eauto; intros; simplify_eq.
      * apply _sync_single_mod_resolve_raises in Hres.
        eapply sync_inv_finish; eauto; intros; by simplify_eq.
    + destruct (_sync_single_mod_fetch self m repo v (world_of st))
        as [o w'] eqn:Hres; simplify_eq/=.
      eapply sync_inv_finish; eauto; intros; simplify_eq.
      * apply _sync_single_mod_fetch_Some in Hres as (-> & _). done.
      * by eapply _sync_single_mod_fetch_raises.
  - (* Yield *)
    unfold step in Hstep.
    destruct (pc st) eqn:Hpc; try done.
    destruct (results st !! i) as [o|] eqn:Hr; try done.
    destruct (attempts self mod_list !! i) as [[m repo]|] eqn:Hi; try done.
    case_decide as Hguard; try done. destruct Hguard as [_ Hfresh].
    destruct Hinv as [Hsub Hnd Hyd Hlt Hmod Hexn Htr Hrep Hconf Hret].
    rewrite Hpc in Hrep, Hret.
    assert (NoDup (yielded st ++ [i])) as Hnodup.
    { apply NoDup_app. split_and!; [done| |apply NoDup_singleton].
      intros x Hx Hx'%list_elem_of_singleton. by subst. }
    assert (∀ j, j ∈ yielded st ++ [i] → is_Some (results st !! j)) as Hdone.
    { intros j [?|Hj%list_elem_of_singleton]%elem_of_app; [by eauto|].
      subst. by eauto. }
    destruct (collect m o (cur_report st) (world_of st)) as [[r|e] w'] eqn:Hc;
      simplify_eq/=; [|split; simpl; inv_auto].
    apply collect_Return in Hc as (Hc & Hcases).
    split; simpl; inv_auto; [|congruence].
    rewrite fmap_app. simpl. rewrite (future_mod_lookup _ _ _ Hi), <-Hrep.
    unfold reported.
    destruct Hcases as [(d & -> & -> & ->)|(-> & -> & _)]; [|solve_Permutation].
    rewrite fmap_app. simpl.
    rewrite (Hmod _ _ Hr), (future_mod_lookup _ _ _ Hi). solve_Permutation.
  - (* Shutdown *)
    step_cases Hstep; destruct Hinv; split; simpl in *;
      repeat match goal with H : pc st = _ |- _ => rewrite H in *; clear H end;
      inv_auto.
  - (* Finish *)
    step_cases Hstep;
      destruct Hinv as [Hsub Hnd Hyd Hlt Hmod Hexn Htr Hrep Hconf Hret];
      split; simpl in *;
      repeat match goal with H : pc st = _ |- _ => rewrite H in *; clear H end;
      inv_auto.
    match goal with H : _ && _ && _ = true |- _ =>
      apply andb_prop in H as [[Hg Hidle]%andb_prop Hq] end.
    apply bool_decide_eq_true in Hg as [Hn Hall], Hq.
    split_and!; try done.
    exists (trace st). split_and!; [done..|].
    intros i Hi. apply Htr, Hyd.
    rewrite Forall_forall in Hall. apply Hall, elem_of_seq. lia.
Qed.

Lemma sync_inv_run sched w : sync_inv (run self mod_list sched (initial w)).
Proof. apply run_invariant; [apply sync_inv_step|apply sync_inv_initial]. Qed.

End Invariant.

(** ** Every future runs once *)

Definition running (ts : list thread) : list nat :=
  omap (λ t, match t with Busy i _ => Some i | Idle => None end) ts.
Definition starts (tr : list event) : list nat :=
  omap (λ e, match e with EvStart i => Some i | _ => None end) tr.
Definition dones (tr : list event) : list nat :=
  omap (λ e, match e with EvDone i => Some i | _ => None end) tr.

Lemma running_app ts1 ts2 : running (ts1 ++ ts2) = running ts1 ++ running ts2.
Proof. apply omap_app. Qed.

Lemma running_start ts t i ph :
  ts !! t = Some Idle → running (<[t := Busy i ph]> ts) ≡ₚ i :: running ts.
Proof.
  revert t. induction ts as [|x ts IH]; intros [|t] Ht; simplify_eq/=; [done|].
  unfold running in *. destruct x; simpl; rewrite IH by done; [done|apply Permutation_swap].
Qed.

Lemma running_continue ts t i ph ph' :
  ts !! t = Some (Busy i ph) → running (<[t := Busy i ph']> ts) = running ts.
Proof.
  revert t. induction ts as [|x ts IH]; intros [|t] Ht; simplify_eq/=; [done|].
  unfold running in *. simpl. by rewrite IH.
Qed.

Lemma running_finish ts t i ph :
  ts !! t = Some (Busy i ph) → running ts ≡ₚ i :: running (<[t := Idle]> ts).
Proof.
  revert t. induction ts as [|x ts IH]; intros [|t] Ht; simplify_eq/=; [done|].
  unfold running in *. destruct x; simpl; rewrite (IH t) by done; [done|apply Permutation_swap].
Qed.

Lemma starts_snoc tr e :
  starts (tr ++ [e]) = starts tr ++ match e with EvStart i => [i] | _ => [] end.
Proof. unfold starts. rewrite omap_app. by destruct e. Qed.

Lemma dones_snoc tr e :
  dones (tr ++ [e]) = dones tr ++ match e with EvDone i => [i] | _ => [] end.
Proof. unfold dones. rewrite omap_app. by destruct e. Qed.

Record pool_cons (st : state) : Prop := {
  cons_nodup : NoDup (work_queue st ++ running (threads st));
  cons_pending : ∀ i, i ∈ work_queue st ++ running (threads st) →
    i < submitted st ∧ results st !! i = None;
  cons_all : ∀ i, i < submitted st →
    i ∈ work_queue st ++ running (threads st) ∨ is_Some (results st !! i);
  cons_results : ∀ i, is_Some (results st !! i) → i < submitted st;
  cons_starts_nodup : NoDup (starts (trace st));
  cons_starts : ∀ i, i ∈ starts (trace st) ↔
    i ∈ running (threads st) ∨ is_Some (results st !! i);
  cons_dones_nodup : NoDup (dones (trace st));
  cons_dones : ∀ i, i ∈ dones (trace st) ↔ is_Some (results st !! i)
}.

Lemma pool_cons_initial w : pool_cons (initial w).
Proof.
  split; simpl; try by constructor.
  - intros i Hi. by apply elem_of_nil in Hi.
  - lia.
  - intros i [? Hi]. by rewrite lookup_empty in Hi.
  - intros i. rewrite lookup_empty. split; [by intros ?%elem_of_nil|].
    intros [?%elem_of_nil|[? ?]]; done.
  - intros i. rewrite lookup_empty. split; [by intros ?%elem_of_nil|by intros [? ?]].
Qed.

Lemma pool_cons_finish st t i ph o w' :
  pool_cons st → threads st !! t = Some (Busy i ph) →
  pool_cons (finish_future st t i o w').
Proof.
  intros [] Ht. pose proof (running_finish _ _ _ _ Ht) as Hrun.
  assert (i ∈ running (threads st)) as Hi by (rewrite Hrun; left).
  assert (i ∉ running (<[t:=Idle]> (threads st))) as Hi'.
  { intros Hin. rewrite Hrun in cons_nodup0.
    apply NoDup_app in cons_nodup0 as (_ & _ & Hnd). by inversion Hnd. }
  destruct (cons_pending0 i) as [Hlt Hnone]; [set_solver|].
  split; simpl; rewrite ?starts_snoc, ?dones_snoc.
  - rewrite Hrun in cons_nodup0. 
    rewrite <-Permutation_middle in cons_nodup0. by inversion cons_nodup0.
  - intros j Hj. assert (j ≠ i).
    { intros ->. apply elem_of_app in Hj as [Hj|Hj]; [|done].
      rewrite Hrun in cons_nodup0. apply NoDup_app in cons_nodup0 as (_ & Hd & _).
      apply (Hd i Hj). left. }
    rewrite lookup_insert_ne by done. apply cons_pending0.
    rewrite Hrun. set_solver.
  - intros j Hj. rewrite lookup_insert_is_Some'.
    destruct (decide (i = j)) as [->|]; [by eauto|].
    destruct (cons_all0 j Hj) as [Hq|]; [|by eauto]. left.
    rewrite Hrun in Hq. set_solver.
  - intros j [<-|?]%lookup_insert_is_Some'; eauto.
  - by rewrite app_nil_r.
  - intros j. rewrite app_nil_r, cons_starts0, lookup_insert_is_Some', Hrun.
    set_solver.
  - apply NoDup_app. split_and!; [done| |apply NoDup_singleton].
    intros j Hj Hj'%list_elem_of_singleton. subst.
    apply cons_dones0 in Hj as [? Hj]. congruence.
  - intros j. rewrite elem_of_app, cons_dones0, lookup_insert_is_Some', list_elem_of_singleton.
    naive_solver.
Qed.

Lemma pool_cons_step self mod_list a st st' :
  pool_cons st → step self mod_list a st = Some st' → pool_cons st'.
Proof.
  intros Hinv Hstep. destruct a.
  - (* Submit *)
    assert (submitted st ∉ work_queue st ++ running (threads st)) as Hfresh.
    { intros Hin. apply Hinv in Hin. lia. }
    assert (results st !! submitted st = None) as Hnone.
    { destruct (results st !! submitted st) eqn:Hr; [|done].
      pose proof (cons_results _ Hinv (submitted st)) as Hlt.
      rewrite Hr in Hlt. specialize (Hlt (mk_is_Some _ _ eq_refl)). lia. }
    assert (∀ r : list nat, (work_queue st ++ [submitted st]) ++ r
                            ≡ₚ submitted st :: (work_queue st ++ r)) as Hperm.
    { intros r. rewrite <-(assoc_L (++)). simpl. by rewrite <-Permutation_middle. }
    assert (pool_cons (State (world_of st) InSync (S (submitted st))
              (work_queue st ++ [submitted st]) (threads st) (results st)
              (yielded st) (cur_report st) (trace st ++ [EvSubmit (submitted st)]))).
    { destruct Hinv; split; simpl;
        rewrite ?starts_snoc, ?dones_snoc, ?app_nil_r, ?Hperm; try done.
      - by constructor.
      - intros i. rewrite Hperm. intros [->|Hi]%elem_of_cons; [split; [lia|done]|].
        destruct (cons_pending0 i Hi). split; [lia|done].
      - intros i Hi. rewrite Hperm.
        destruct (decide (i = submitted st)) as [->|]; [left; left|].
        destruct (cons_all0 i) as [?|?]; [lia|left; by right|by right].
      - intros i Hi. apply cons_results0 in Hi. lia. }
    step_cases Hstep; [|done].
    destruct H as []; split; simpl in *; rewrite ?running_app in *; simpl in *;
      rewrite ?app_nil_r in *; done.
  - (* Take *)
    unfold step in Hstep.
    destruct (threads st !! t) as [[|]|] eqn:Ht; try done.
    destruct (work_queue st) as [|i q] eqn:Hq; simplify_eq/=.
    pose proof (running_start _ _ i AtResolve Ht) as Hrun.
    assert (q ++ running (<[t:=Busy i AtResolve]> (threads st))
            ≡ₚ (i :: q) ++ running (threads st)) as Hperm.
    { rewrite Hrun. by rewrite <-Permutation_middle. }
    destruct Hinv. rewrite Hq in *.
    destruct (cons_pending0 i) as [Hlt Hnone]; [left|].
    assert (i ∉ running (threads st)) as Hnr.
    { simpl in cons_nodup0. apply NoDup_cons in cons_nodup0 as [Hni _]. set_solver. }
    split; simpl; rewrite ?starts_snoc, ?dones_snoc, ?app_nil_r, ?Hperm; try done.
    + intros j. rewrite Hperm. auto.
    + intros j Hj. rewrite Hperm. auto.
    + apply NoDup_app. split_and!; [done| |apply NoDup_singleton].
      intros j Hj Hj'%list_elem_of_singleton. subst j.
      apply cons_starts0 in Hj as [?|[? Hj]]; [done|congruence].
    + intros j. rewrite elem_of_app, cons_starts0, Hrun. set_solver.
  - (* Work *)
    unfold step in Hstep.
    destruct (threads st !! t) as [[|i ph]|] eqn:Ht; try done.
    destruct (attempts self mod_list !! i) as [[m repo]|] eqn:Hi; try done.
    destruct ph as [|v].
    + destruct (_sync_single_mod_resolve self m repo (world_of st))
        as [[[v|r]|e] w'] eqn:Hres; simplify_eq/=; eauto using pool_cons_finish.
      pose proof (running_continue _ _ _ _ (AtFetch v) Ht) as Hrun.
      destruct Hinv; split; simpl; rewrite ?Hrun; done.
    + destruct (_sync_single_mod_fetch self m repo v (world_of st))
        as [o w'] eqn:Hres; simplify_eq/=; eauto using pool_cons_finish.
  - (* Yield *)
    step_cases Hstep; destruct Hinv; split; simpl;
      rewrite ?starts_snoc, ?dones_snoc, ?app_nil_r; done.
  - (* Shutdown *)
    step_cases Hstep; destruct Hinv; split; simpl; done.
  - (* Finish *)
    step_cases Hstep; destruct Hinv; split; simpl;
      rewrite ?starts_snoc, ?dones_snoc, ?app_nil_r; done.
Qed.

Lemma pool_cons_run self mod_list sched w :
  pool_cons (run self mod_list sched (initial w)).
Proof. apply run_invariant; [apply pool_cons_step|apply pool_cons_initial]. Qed.

(** ** The report, entry by entry *)

(** What the body of the [as_completed] loop appends for a finished
    future: its dict to [updated_mods], or its mod to [failed_mods]. *)
Definition synced_of (res : gmap nat (outcome (option synced))) (i : nat)
    : option synced :=
  match res !! i with
  | Some (Return (Some d)) => Some d
  | _ => None
  end.

Definition failed_of (self : ModSyncer) (mod_list : list string)
    (res : gmap nat (outcome (option synced))) (i : nat) : option string :=
  match res !! i with
  | Some (Return (Some _)) => None
  | Some _ => Some (future_mod self mod_list i)
  | None => None
  end.

Definition report_exact (self : ModSyncer) (mod_list : list string) (st : state) : Prop :=
  match pc st with
  | InSync | Returned _ =>
      updated_mods (cur_report st) = omap (synced_of (results st)) (yielded st)
      ∧ failed_mods (cur_report st)
        = omap (failed_of self mod_list (results st)) (yielded st)
  | _ => True
  end.

Lemma omap_ext_in {A B} (f g : A → option B) (l : list A) :
  (∀ x, x ∈ l → f x = g x) → omap f l = omap g l.
Proof.
  intros Hfg. apply list_omap_ext, Forall2_same_length_lookup.
  split; [done|]. intros i x y Hx Hy. simplify_eq.
  eapply Hfg, list_elem_of_lookup_2; eauto.
Qed.

Section Exact.
Context (self : ModSyncer) (mod_list : list string).

Lemma report_exact_finish st t i ph o w' :
  sync_inv self mod_list st → pool_cons st →
  threads st !! t = Some (Busy i ph) →
  report_exact self mod_list st →
  report_exact self mod_list (finish_future st t i o w').
Proof.
  intros Hinv Hcons Ht. unfold report_exact. simpl.
  assert (results st !! i = None) as Hnone.
  { apply Hcons, elem_of_app. right. rewrite (running_finish _ _ _ _ Ht). left. }
  assert (∀ j, j ∈ yielded st → j ≠ i) as Hne.
  { intros j Hj ->. apply (inv_yielded_done _ _ _ Hinv) in Hj as [? Hj]. congruence. }
  destruct (pc st); try done.
  all: intros [-> ->]; split; apply omap_ext_in; intros j Hj;
    unfold synced_of, failed_of; by rewrite lookup_insert_ne by (symmetry; eauto).
Qed.

Lemma report_exact_step a st st' :
  sync_inv self mod_list st → pool_cons st →
  report_exact self mod_list st →
  step self mod_list a st = Some st' →
  report_exact self mod_list st'.
Proof.
  intros Hinv Hcons Hex Hstep. destruct a.
  - step_cases Hstep; unfold report_exact in *; simpl;
      by repeat match goal with H : pc st = _ |- _ => rewrite H in *; clear H end.
  - step_cases Hstep; unfold report_exact in *; simpl; done.
  - unfold step in Hstep.
    destruct (threads st !! t) as [[|i ph]|] eqn:Ht; try done.
    destruct (attempts self mod_list !! i) as [[m repo]|] eqn:Hi; try done.
    destruct ph as [|v].
    + destruct (_sync_single_mod_resolve self m repo (world_of st))
        as [[[v|r]|e] w'] eqn:Hres; simplify_eq/=;
        eauto using report_exact_finish.
    + destruct (_sync_single_mod_fetch self m repo v (world_of st))
        as [o w'] eqn:Hres; simplify_eq/=; eauto using report_exact_finish.
  - unfold step in Hstep.
    destruct (pc st) eqn:Hpc; try done.
    destruct (results st !! i) as [o|] eqn:Hr; try done.
    destruct (attempts self mod_list !! i) as [[m repo]|] eqn:Hi; try done.
    case_decide; try done.
    destruct (collect m o (cur_report st) (world_of st)) as [[r|e] w'] eqn:Hc;
      simplify_eq/=; unfold report_exact in *; rewrite Hpc in *; simpl; [|done].
    destruct Hex as [Hu Hf].
    rewrite !omap_app. simpl. unfold synced_of at 2, failed_of at 2.
    rewrite Hr, (future_mod_lookup _ _ _ _ _ Hi).
    apply collect_Return in Hc
      as (_ & [(d & -> & -> & ->)|(-> & -> & [->|(e & -> & _)])]);
      rewrite ?Hu, ?Hf, ?app_nil_r; done.
  - step_cases Hstep; unfold report_exact in *; simpl; done.
  - step_cases Hstep; unfold report_exact in *; simpl;
      by repeat match goal with H : pc st = _ |- _ => rewrite H in *; clear H end.
Qed.

(** The three invariants together. *)
Definition sync_ok (st : state) : Prop :=
  sync_inv self mod_list st ∧ pool_cons st ∧ report_exact self mod_list st
  ∧ pool_inv st.

Lemma sync_ok_run sched w : sync_ok (run self mod_list sched (initial w)).
Proof.
  apply run_invariant.
  - intros a st st' (? & ? & ? & ?) Hstep.
    split_and!; eauto using sync_inv_step, pool_cons_step, report_exact_step,
      pool_inv_step.
  - split_and!; [apply sync_inv_initial|apply pool_cons_initial|done|].
    split; [simpl; lia|done].
Qed.

End Exact.

(** ** The sequential schedule completes the call *)

Ltac proj_simpl :=
  cbn [world_of pc submitted work_queue threads results yielded cur_report
       trace from_option id finish_future].

Section Sequential.
Context (self : ModSyncer) (mod_list : list string).

Lemma step_Take st t i q :
  threads st !! t = Some Idle → work_queue st = i :: q →
  step self mod_list (Take t) st =
  Some (State (world_of st) (pc st) (submitted st) q
          (<[t := Busy i AtResolve]> (threads st))
          (results st) (yielded st) (cur_report st) (trace st ++ [EvStart i])).
Proof. intros Ht Hq. unfold step. by rewrite Ht, Hq. Qed.

Lemma step_Work_idle st t :
  threads st !! t = Some Idle → step self mod_list (Work t) st = None.
Proof. intros Ht. unfold step. by rewrite Ht. Qed.

Lemma step_Work_resolve st t i m repo :
  threads st !! t = Some (Busy i AtResolve) →
  attempts self mod_list !! i = Some (m, repo) →
  step self mod_list (Work t) st =
  Some match _sync_single_mod_resolve self m repo (world_of st) with
       | (Return (Continue v), w') =>
           State w' (pc st) (submitted st) (work_queue st)
             (<[t := Busy i (AtFetch v)]> (threads st))
             (results st) (yielded st) (cur_report st) (trace st)
       | (Return (Finished r), w') => finish_future st t i (Return r) w'
       | (Raise e, w') => finish_future st t i (Raise e) w'
       end.
Proof.
  intros Ht Hi. unfold step. rewrite Ht, Hi.
  by destruct (_sync_single_mod_resolve self m repo (world_of st)) as [[[]|] ?].
Qed.

Lemma step_Work_fetch st t i v m repo :
  threads st !! t = Some (Busy i (AtFetch v)) →
  attempts self mod_list !! i = Some (m, repo) →
  step self mod_list (Work t) st =
  Some (finish_future st t i
          (_sync_single_mod_fetch self m repo v (world_of st)).1
          (_sync_single_mod_fetch self m repo v (world_of st)).2).
Proof.
  intros Ht Hi. unfold step. rewrite Ht, Hi.
  by destruct (_sync_single_mod_fetch self m repo v (world_of st)).
Qed.

Lemma list_insert_idle_busy (ts : list thread) i ph :
  ts !! 0 = Some Idle → <[0 := Idle]> (<[0 := Busy i ph]> ts) = ts.
Proof. destruct ts; intros; by simplify_eq/=. Qed.

(** [Take 0; Work 0; Work 0] on an idle first worker is one whole call of
    [_sync_single_mod] for the future at the head of the queue. *)
Lemma run_attempt st j q m repo :
  threads st !! 0 = Some Idle →
  work_queue st = j :: q →
  attempts self mod_list !! j = Some (m, repo) →
  run self mod_list [Take 0; Work 0; Work 0] st =
  State (_sync_single_mod self m repo (world_of st)).2
        (pc st) (submitted st) q (threads st)
        (<[j := (_sync_single_mod self m repo (world_of st)).1]> (results st))
        (yielded st) (cur_report st) (trace st ++ [EvStart j; EvDone j]).
Proof.
  intros Ht Hq Hj. rewrite _sync_single_mod_split. unfold py_bind.
  assert (∀ ph, <[0:=Busy j ph]> (threads st) !! 0 = Some (Busy j ph)) as Hb.
  { intros ph. apply list_lookup_insert_eq. by eapply lookup_lt_Some. }
  rewrite run_cons, (step_Take _ _ _ _ Ht Hq). proj_simpl.
  rewrite run_cons, (step_Work_resolve _ 0 j m repo); [|apply Hb|done]. proj_simpl.
  destruct (_sync_single_mod_resolve self m repo (world_of st))
    as [[[v|r]|e] w1] eqn:Hres; proj_simpl.
  - rewrite run_cons, (step_Work_fetch _ 0 j v m repo); proj_simpl;
      [|rewrite list_insert_insert_eq; apply Hb|done].
    destruct (_sync_single_mod_fetch self m repo v w1) as [o w2] eqn:Hf.
    unfold finish_future. simpl.
    by rewrite !list_insert_insert_eq, list_insert_id, <-(assoc_L (++)) by done.
  - rewrite run_cons, step_Work_idle; proj_simpl;
      unfold finish_future; simpl; rewrite list_insert_idle_busy by done; [|done].
    by rewrite <-(assoc_L (++)).
  - rewrite run_cons, step_Work_idle; proj_simpl;
      unfold finish_future; simpl; rewrite list_insert_idle_busy by done; [|done].
    by rewrite <-(assoc_L (++)).
Qed.


Definition empty_report : report :=
  {| updated_mods := []; failed_mods := []; conflicts := [] |}.

(** After [k] submissions. *)
Lemma run_submits w k :
  k ≤ length (attempts self mod_list) →
  run self mod_list (replicate k Submit) (initial w) =
  State w InSync k (seq 0 k) (replicate (k `min` max_workers) Idle) ∅ []
        empty_report (EvSubmit <$> seq 0 k).
Proof.
  induction k as [|k IH]; intros Hk; [done|].
  rewrite replicate_S_end, run_app, IH by lia.
  rewrite run_cons. unfold step. proj_simpl.
  rewrite decide_True by lia. proj_simpl.
  rewrite !seq_S, fmap_app, length_replicate.
  change (0 + k) with k. change (EvSubmit <$> [k]) with [EvSubmit k].
  unfold run. cbn [foldl]. f_equal.
  case_decide as Hlt.
  - rewrite Nat.min_l in Hlt |- * by lia.
    rewrite (Nat.min_l (S k)) by lia. by rewrite replicate_S_end.
  - destruct (decide (k < max_workers)); [rewrite Nat.min_l in Hlt; lia|].
    by rewrite !Nat.min_r by lia.
Qed.

(** The first worker runs the futures [j], ..., [j + k - 1] of the queue,
    one after the other. *)
Lemma run_attempts k : ∀ j st,
  (0 < k → threads st !! 0 = Some Idle) →
  work_queue st = seq j k →
  j + k ≤ length (attempts self mod_list) →
  let st' := run self mod_list (mjoin (replicate k [Take 0; Work 0; Work 0])) st in
  pc st' = pc st ∧ submitted st' = submitted st ∧ work_queue st' = []
  ∧ threads st' = threads st ∧ yielded st' = yielded st
  ∧ cur_report st' = cur_report st
  ∧ ∀ i, is_Some (results st !! i) ∨ j ≤ i < j + k → is_Some (results st' !! i).
Proof.
  induction k as [|k IH]; intros j st Ht Hq Hn.
  { simpl. split_and!; try done. intros i [?|?]; [done|lia]. }
  destruct (lookup_lt_is_Some_2 (attempts self mod_list) j) as [[m repo] Hj]; [lia|].
  change (mjoin (replicate (S k) [Take 0; Work 0; Work 0]))
    with ([Take 0; Work 0; Work 0] ++ mjoin (replicate k [Take 0; Work 0; Work 0])).
  cbv zeta. rewrite run_app, (run_attempt _ _ _ _ _ (Ht ltac:(lia)) Hq Hj).
  match goal with |- context [run _ _ _ ?s] => set (st1 := s) end.
  destruct (IH (S j) st1) as (-> & -> & -> & -> & -> & -> & Hres);
    try done; [intros; apply Ht; lia|lia|].
  split_and!; try done.
  intros i Hi. apply Hres. subst st1. proj_simpl.
  rewrite lookup_insert_is_Some'.
  destruct (decide (j = i)); [by left; left|].
  destruct Hi as [?|?]; [by left; right|right; lia].
Qed.

(** How far the [as_completed] loop is: [j] futures yielded, or left by
    an exception. *)
Definition yielding (j : nat) (st : state) : Prop :=
  (pc st = InSync ∧ yielded st = seq 0 j) ∨ (∃ e, pc st = Unwinding e).

Lemma run_yields k : ∀ j st,
  submitted st = length (attempts self mod_list) →
  (∀ i, i < length (attempts self mod_list) → is_Some (results st !! i)) →
  j + k ≤ length (attempts self mod_list) →
  yielding j st →
  let st' := run self mod_list (Yield <$> seq j k) st in
  yielding (j + k) st' ∧ threads st' = threads st
  ∧ work_queue st' = work_queue st
  ∧ submitted st' = submitted st.
Proof.
  induction k as [|k IH]; intros j st Hsub Hres Hn Hy.
  { simpl. by rewrite Nat.add_0_r. }
  change (Yield <$> seq j (S k)) with (Yield j :: (Yield <$> seq (S j) k)).
  cbv zeta. rewrite run_cons.
  match goal with |- context [run _ _ _ ?s] => set (st1 := s) end.
  assert (yielding (S j) st1 ∧ threads st1 = threads st
          ∧ work_queue st1 = work_queue st ∧ submitted st1 = submitted st
          ∧ results st1 = results st) as (Hy1 & Ht1 & Hq1 & Hs1 & Hr1).
  { subst st1. unfold step. destruct Hy as [[Hpc Hyl]|[e Hpc]]; rewrite Hpc.
    - destruct (Hres j) as [o Ho]; [lia|]. rewrite Ho.
      destruct (lookup_lt_is_Some_2 (attempts self mod_list) j) as [[m repo] Hj]; [lia|].
      rewrite Hj, decide_True.
      2:{ split; [done|]. rewrite Hyl, elem_of_seq. lia. }
      destruct (collect m o (cur_report st) (world_of st)) as [[r|e] w']; proj_simpl.
      + split_and!; try done. left. by rewrite Hyl, seq_S.
      + split_and!; try done. right. eauto.
    - proj_simpl. split_and!; try done. right. eauto. }
  destruct (IH (S j) st1) as (Hy' & -> & -> & ->); try done.
  - congruence.
  - by rewrite Hr1.
  - lia.
  - by replace (j + S k) with (S j + k) by lia.
Qed.

Definition completed_call (st : state) : Prop :=
  (∃ r, pc st = Returned r) ∨ (∃ e, pc st = Raised e).

Lemma run_leave st :
  submitted st = length (attempts self mod_list) →
  all_idle (threads st) = true → work_queue st = [] →
  yielding (length (attempts self mod_list)) st →
  completed_call (run self mod_list [Finish; Shutdown] st).
Proof.
  intros Hsub Hidle Hq [[Hpc Hyl]|[e Hpc]]; rewrite run_cons.
  - assert (∃ st', step self mod_list Finish st = Some st' ∧ ∃ r, pc st' = Returned r)
      as (st' & -> & r & Hr).
    { unfold step. rewrite Hpc, Hidle, Hq, bool_decide_eq_true_2.
      - simpl. eauto.
      - split; [done|]. rewrite Hyl. by apply Forall_forall. }
    proj_simpl. rewrite run_cons. unfold step. rewrite Hr. left. eauto.
  - assert (step self mod_list Finish st = None) as ->.
    { unfold step. by rewrite Hpc. }
    proj_simpl. rewrite run_cons. unfold step. rewrite Hpc, Hidle, Hq.
    right. simpl. eauto.
Qed.

(** Under the sequential schedule every call of [sync_mods] ends, by a
    return or by an exception. *)
Lemma sequential_schedule_completes w :
  completed_call
    (run self mod_list (sequential_schedule (length (attempts self mod_list)))
       (initial w)).
Proof.
  unfold sequential_schedule. rewrite !run_app, run_submits by done.
  set (n := length (attempts self mod_list)).
  match goal with |- context [run _ _ (mjoin _) ?s] => set (st0 := s) end.
  destruct (run_attempts n 0 st0) as (Hpc & Hsub & Hq & Hts & Hyl & _ & Hres).
  { subst st0. proj_simpl. intros ?. destruct n; [lia|done]. }
  { done. }
  { done. }
  match goal with |- context [run _ _ (Yield <$> _) ?s] => set (st1 := s) end.
  fold st1 in Hpc, Hsub, Hq, Hts, Hyl, Hres.
  destruct (run_yields n 0 st1) as (Hy & Hts2 & Hq2 & Hsub2).
  { by rewrite Hsub. }
  { intros i Hi. apply Hres. right. lia. }
  { done. }
  { left. by rewrite Hpc, Hyl. }
  apply run_leave.
  - by rewrite Hsub2, Hsub.
  - rewrite Hts2, Hts. subst st0. proj_simpl.
    unfold all_idle. apply forallb_forall. intros t Ht%list_elem_of_In.
    by apply elem_of_replicate in Ht as [-> _].
  - by rewrite Hq2.
  - done.
Qed.

End Sequential.

(** ** The futures of a call *)

Section Futures.
Context (self : ModSyncer) (mod_list : list string).

Lemma elem_of_attempts m repo :
  (m, repo) ∈ attempts self mod_list ↔ m ∈ mod_list ∧ repo ∈ repositories self.
Proof.
  unfold attempts. rewrite list_elem_of_bind. split.
  - intros (m' & (repo' & Hp & Hr)%list_elem_of_bind & Hm).
    apply list_elem_of_singleton in Hp. by simplify_eq.
  - intros [Hm Hr]. exists m. split; [|done].
    apply list_elem_of_bind. exists repo. split; [|done]. by apply list_elem_of_singleton.
Qed.

Lemma attempts_fst :
  (attempts self mod_list).*1
  = mod_list ≫= λ m, replicate (length (repositories self)) m.
Proof.
  unfold attempts. induction mod_list as [|m l IH]; [done|].
  rewrite !bind_cons, fmap_app, IH. f_equal.
  generalize (repositories self). intros rs.
  induction rs as [|r rs IHr]; [done|]. by rewrite bind_cons, fmap_app, IHr.
Qed.

Lemma attempts_length :
  length (attempts self mod_list) = length mod_list * length (repositories self).
Proof.
  rewrite <-(length_fmap fst), attempts_fst.
  induction mod_list as [|m l IH]; [done|].
  rewrite bind_cons, length_app, length_replicate, IH. simpl. lia.
Qed.

Lemma future_mod_seq :
  future_mod self mod_list <$> seq 0 (length (attempts self mod_list))
  = (attempts self mod_list).*1.
Proof.
  unfold future_mod. generalize (attempts self mod_list). intros l.
  apply list_eq. intros i. rewrite !list_lookup_fmap.
  destruct (l !! i) as [x|] eqn:Hi; simpl.
  - rewrite lookup_seq_lt by (by eapply lookup_lt_Some). simpl. by rewrite Hi.
  - rewrite lookup_seq_ge; [done|]. by apply lookup_ge_None.
Qed.

(** When the call has returned, [as_completed] has yielded every future
    once. *)
Lemma yielded_all st r :
  sync_inv self mod_list st → pc st = Returned r →
  yielded st ≡ₚ seq 0 (length (attempts self mod_list)).
Proof.
  intros Hinv Hpc. pose proof (inv_returned _ _ _ Hinv) as Hret.
  rewrite Hpc in Hret. destruct Hret as (_ & _ & Hall & _).
  apply NoDup_Permutation; [by destruct Hinv|apply NoDup_seq|].
  intros i. rewrite elem_of_seq. rewrite Forall_forall in Hall. split.
  - intros Hi. apply (inv_yielded_done _ _ _ Hinv), (inv_results_lt _ _ _ Hinv) in Hi.
    lia.
  - intros Hi. apply Hall, elem_of_seq. lia.
Qed.

(** The mods named in the returned report are those of the futures, each
    as many times as it has futures. *)
Lemma reported_returned st r :
  sync_inv self mod_list st → pc st = Returned r →
  reported r ≡ₚ (attempts self mod_list).*1.
Proof.
  intros Hinv Hpc. pose proof (yielded_all _ _ Hinv Hpc) as Hy.
  pose proof (inv_returned _ _ _ Hinv) as Hret.
  pose proof (inv_report _ _ _ Hinv) as Hrep.
  rewrite Hpc in Hret, Hrep. destruct Hret as (-> & _).
  by rewrite Hrep, Hy, future_mod_seq.
Qed.

Lemma sync_mods_Returned sched w r w' :
  sync_mods self mod_list sched w = Some (Return r, w') →
  pc (run self mod_list sched (initial w)) = Returned r
  ∧ world_of (run self mod_list sched (initial w)) = w'.
Proof.
  unfold sync_mods. destruct (pc (run self mod_list sched (initial w)));
    intros; by simplify_eq.
Qed.

Lemma sync_mods_Raised sched w e w' :
  sync_mods self mod_list sched w = Some (Raise e, w') →
  pc (run self mod_list sched (initial w)) = Raised e.
Proof.
  unfold sync_mods. destruct (pc (run self mod_list sched (initial w)));
    intros; by simplify_eq.
Qed.

End Futures.

(** ** Repositories that raise instances of [Exception] only *)

Definition raises_only_Exception (repo : ModRepository) : Prop :=
  (∀ m v w e w',
     get_latest_version repo m v w = (Raise e, w') → exn_is_Exception e = true)
  ∧ (∀ m info w e w',
       download_mod repo m info w = (Raise e, w') → exn_is_Exception e = true).

Section NoRaise.
Context (self : ModSyncer) (mod_list : list string).
Hypothesis Hrepos : Forall raises_only_Exception (repositories self).

Lemma attempts_raise_only i m repo :
  attempts self mod_list !! i = Some (m, repo) → raises_only_Exception repo.
Proof.
  intros Hi%list_elem_of_lookup_2%elem_of_attempts.
  rewrite Forall_forall in Hrepos. apply Hrepos, Hi.
Qed.

Lemma _sync_single_mod_resolve_returns m repo w :
  raises_only_Exception repo →
  ∃ p w', _sync_single_mod_resolve self m repo w = (Return p, w').
Proof.
  intros [Hg _].
  unfold _sync_single_mod_resolve, try_except, py_bind, py_ret, sync_failed,
    logger_error.
  destruct (get_latest_version repo m (minecraft_version self) w) as [[v|e] w1] eqn:Hv.
  - destruct (truthy v); simpl; eauto.
  - rewrite (Hg _ _ _ _ _ Hv). simpl. eauto.
Qed.

Lemma _sync_single_mod_fetch_returns m repo v w :
  raises_only_Exception repo →
  ∃ o w', _sync_single_mod_fetch self m repo v w = (Return o, w').
Proof.
  intros [_ Hd].
  unfold _sync_single_mod_fetch, try_except, py_bind, py_ret, sync_failed,
    logger_error.
  destruct (download_mod repo m v w) as [[p|e] w1] eqn:Hp.
  - destruct (truthy p); simpl; eauto.
  - rewrite (Hd _ _ _ _ _ Hp). simpl. eauto.
Qed.

(** No future ends with an exception, and the main thread never leaves
    the [with] block by one. *)
Definition no_raise (st : state) : Prop :=
  (∀ i e, results st !! i ≠ Some (Raise e))
  ∧ (pc st = InSync ∨ ∃ r, pc st = Returned r).

Lemma no_raise_step a st st' :
  no_raise st → step self mod_list a st = Some st' → no_raise st'.
Proof.
  intros [Hres Hpc] Hstep. destruct a.
  - step_cases Hstep; split; simpl; eauto.
  - step_cases Hstep; split; simpl; eauto.
  - unfold step in Hstep.
    destruct (threads st !! t) as [[|i ph]|] eqn:Ht; try done.
    destruct (attempts self mod_list !! i) as [[m repo]|] eqn:Hi; try done.
    pose proof (attempts_raise_only _ _ _ Hi) as Hrepo.
    assert (∀ o w', match o with Return _ => True | Raise _ => False end →
                    no_raise (finish_future st t i o w')) as Hfin.
    { intros o w' Ho. split; simpl; [|done]. intros j e.
      rewrite lookup_insert. case_decide; [|by eauto].
      intros [= ->]. done. }
    destruct ph as [|v].
    + destruct (_sync_single_mod_resolve_returns m repo (world_of st) Hrepo)
        as (p & w' & Hp). rewrite Hp in Hstep.
      destruct p; simplify_eq; [by split|by apply Hfin].
    + destruct (_sync_single_mod_fetch_returns m repo v (world_of st) Hrepo)
        as (o & w' & Ho). rewrite Ho in Hstep. simplify_eq. by apply Hfin.
  - unfold step in Hstep.
    destruct (pc st) eqn:Hp; try done.
    destruct (results st !! i) as [o|] eqn:Hr; try done.
    destruct (attempts self mod_list !! i) as [[m repo]|] eqn:Hi; try done.
    case_decide; try done.
    destruct (collect m o (cur_report st) (world_of st)) as [[r|e] w'] eqn:Hc;
      simplify_eq/=.
    + split; simpl; eauto.
    + apply collect_Raise in Hc as [-> _]. by destruct (Hres i e).
  - step_cases Hstep. by destruct Hpc as [?|[? ?]].
  - step_cases Hstep; split; simpl; eauto.
Qed.

Lemma no_raise_run sched w : no_raise (run self mod_list sched (initial w)).
Proof.
  apply run_invariant; [apply no_raise_step|].
  split; [|by left]. intros i e. simpl. by rewrite lookup_empty.
Qed.

Lemma sync_mods_no_Raise sched w e w' :
  sync_mods self mod_list sched w ≠ Some (Raise e, w').
Proof.
  intros Hr%sync_mods_Raised.
  destruct (no_raise_run sched w) as [_ [Hpc|[r Hpc]]]; congruence.
Qed.

Lemma sync_mods_sequential_returns w :
  ∃ r w',
    sync_mods self mod_list
      (sequential_schedule (length (attempts self mod_list))) w
    = Some (Return r, w').
Proof.
  destruct (sequential_schedule_completes self mod_list w) as [[r Hr]|[e He]].
  - unfold sync_mods. rewrite Hr. eauto.
  - destruct (no_raise_run (sequential_schedule (length (attempts self mod_list))) w)
      as [_ [Hpc|[r Hpc]]]; congruence.
Qed.

End NoRaise.

(** ** A concrete setting *)

(** A network where mod [p1] has a version whose file has two bytes, [p2]
    has no version for the game version, the request for [p3] fails, the
    file of [p4] is served with an empty body, [p5] is another mod whose
    file has the name of the file of [p1], and the file of [p6] is
    missing. *)
Definition demo_version (url file : string) : val :=
  VDict [("downloadUrl", VStr url); ("fileName", VStr file)].
Definition demo_files (vs : list val) : http_result :=
  HttpResponse (Response 200 [] (Some (VDict [("data", VList vs)]))).

Definition demo_net (t : nat) (url : string) (hs : list (string * string))
    (ps : list (string * val)) : http_result :=
  if String.eqb url "https://api.curseforge.com/v1/mods/p1/files"
  then demo_files [demo_version "https://cdn/p1" "mod.jar"]
  else if String.eqb url "https://api.curseforge.com/v1/mods/p2/files"
  then demo_files []
  else if String.eqb url "https://api.curseforge.com/v1/mods/p3/files"
  then HttpFault "ConnectionError"
  else if String.eqb url "https://api.curseforge.com/v1/mods/p4/files"
  then demo_files [demo_version "https://cdn/p4" "p4.jar"]
  else if String.eqb url "https://api.curseforge.com/v1/mods/p5/files"
  then demo_files [demo_version "https://cdn/p5" "mod.jar"]
  else if String.eqb url "https://api.curseforge.com/v1/mods/p6/files"
  then demo_files [demo_version "https://cdn/p6" "p6.jar"]
  else if String.eqb url "https://cdn/p1"
  then HttpResponse (Response 200 [Byte.x50; Byte.x4b] None)
  else if String.eqb url "https://cdn/p4"
  then HttpResponse (Response 200 [] None)
  else if String.eqb url "https://cdn/p5"
  then HttpResponse (Response 200 [Byte.x35] None)
  else HttpResponse (Response 404 [] None).

Definition demo_world : world := World ∅ 0 [] demo_net (λ _ _, false).

Definition demo_curseforge : CurseForgeRepository :=
  {| cf_cache_dir := "./mod_cache/curseforgerepository";
     cf_cache_file := "./mod_cache/curseforgerepository/mod_cache.json";
     headers := [("Accept", "application/json"); ("x-api-key", "KEY")] |}.

Definition demo_syncer (repos : list ModRepository) : ModSyncer :=
  {| mods_directory := "./mods";
     minecraft_version := "1.19.2";
     repositories := repos;
     conflict_detector := {| cd_mods_directory := "./mods" |} |}.

(** A repository whose lookup ends the interpreter, as [sys.exit()]
    does. *)
Definition exiting_repository : ModRepository :=
  {| class_name := "ExitingRepository";
     cache_dir := "./mod_cache/exitingrepository";
     cache_file := "./mod_cache/exitingrepository/mod_cache.json";
     get_latest_version := λ _ _, py_raise (Exn false "SystemExit");
     download_mod := ModRepository_download_mod |}.

Example demo_init :
  (CurseForgeRepository_init "KEY" "./mod_cache" demo_world).1
  = Return demo_curseforge.
Proof. reflexivity. Qed.

(** An instance of the base class: its two methods are not implemented. *)
Definition base_repository : ModRepository :=
  {| class_name := "ModRepository";
     cache_dir := "./mod_cache/modrepository";
     cache_file := "./mod_cache/modrepository/mod_cache.json";
     get_latest_version := ModRepository_get_latest_version;
     download_mod := ModRepository_download_mod |}.

Example demo_syncer_init :
  (ModSyncer_init "./mods" "1.19.2" (Some [as_ModRepository demo_curseforge])
     demo_world).1
  = Return (demo_syncer [as_ModRepository demo_curseforge]).
Proof. reflexivity. Qed.

(** One mod is synchronised, the other has no version. *)
Example demo_sync_p1_p2 :
  fst <$> sync_mods (demo_syncer [as_ModRepository demo_curseforge]) ["p1"; "p2"]
            (sequential_schedule 2) demo_world
  = Some (Return
      {| updated_mods :=
           [{| mod_id := "p1";
               version := demo_version "https://cdn/p1" "mod.jar";
               download_path :=
                 VStr "./mod_cache/curseforgerepository/downloads/mod.jar" |}];
         failed_mods := ["p2"];
         conflicts := [] |}).
Proof. vm_compute. reflexivity. Qed.

(** Two mods, one repository that has both. *)
Example demo_sync_both :
  (λ r, (mod_id <$> updated_mods r, failed_mods r, conflicts r)) <$>
  (match sync_mods (demo_syncer [as_ModRepository demo_curseforge]) ["p1"; "p4"]
           (sequential_schedule 2) demo_world with
   | Some (Return r, _) => Some r
   | _ => None
   end)
  = Some (["p1"; "p4"], [], []).
Proof. vm_compute. reflexivity. Qed.

(** Two mods, one not found, one whose download fails. *)
Example demo_sync_none :
  fst <$> sync_mods (demo_syncer [as_ModRepository demo_curseforge]) ["p2"; "p6"]
            (sequential_schedule 2) demo_world
  = Some (Return {| updated_mods := []; failed_mods := ["p2"; "p6"];
                    conflicts := [] |}).
Proof. vm_compute. reflexivity. Qed.

(** One mod, two repositories: the first fails, the second has it; the
    mod is in both lists of the report. *)
Example demo_sync_two_repositories :
  (λ r, (mod_id <$> updated_mods r, failed_mods r, conflicts r)) <$>
  (match sync_mods (demo_syncer [base_repository; as_ModRepository demo_curseforge])
           ["p1"] (sequential_schedule 2) demo_world with
   | Some (Return r, _) => Some r
   | _ => None
   end)
  = Some (["p1"], ["p1"], []).
Proof. vm_compute. reflexivity. Qed.

(** No mod. *)
Example demo_sync_nothing :
  sync_mods (demo_syncer [as_ModRepository demo_curseforge]) []
    (sequential_schedule 0) demo_world
  = Some (Return {| updated_mods := []; failed_mods := []; conflicts := [] |},
          demo_world).
Proof. reflexivity. Qed.

(** Two workers: the attempt submitted second finishes first, and the
    report has its entry first. *)
Example demo_sync_interleaved :
  (λ r, (mod_id <$> updated_mods r, failed_mods r, conflicts r)) <$>
  (match sync_mods (demo_syncer [as_ModRepository demo_curseforge]) ["p1"; "p4"]
           [Submit; Submit; Take 0; Take 1; Work 1; Work 0; Work 1; Work 0;
            Yield 1; Yield 0; Finish] demo_world with
   | Some (Return r, _) => Some r
   | _ => None
   end)
  = Some (["p4"; "p1"], [], []).
Proof. vm_compute. reflexivity. Qed.

(** * The report of [sync_mods] *)

Section Report.
Context (self : ModSyncer) (mod_list : list string).

Lemma running_all_idle ts : all_idle ts = true → running ts = [].
Proof.
  unfold all_idle, running. induction ts as [|[|i ph] ts IH]; simpl; [done| |done].
  intros H. by apply IH.
Qed.

(** When the call has returned every future has been started once and
    has finished once. *)
Lemma returned_all_ran sched w r :
  pc (run self mod_list sched (initial w)) = Returned r →
  starts (trace (run self mod_list sched (initial w)))
    ≡ₚ seq 0 (length (attempts self mod_list))
  ∧ dones (trace (run self mod_list sched (initial w)))
    ≡ₚ seq 0 (length (attempts self mod_list)).
Proof.
  intros Hpc.
  destruct (sync_ok_run self mod_list sched w) as (Hinv & Hcons & _ & _).
  set (st := run self mod_list sched (initial w)) in *.
  pose proof (inv_returned _ _ _ Hinv) as Hret. rewrite Hpc in Hret.
  destruct Hret as (_ & Hsub & Hall & Hidle & _).
  rewrite Forall_forall in Hall.
  assert (∀ i, is_Some (results st !! i) ↔ i < length (attempts self mod_list))
    as Hres.
  { intros i. split; [apply (inv_results_lt _ _ _ Hinv)|].
    intros Hi. apply (inv_yielded_done _ _ _ Hinv), Hall, elem_of_seq. lia. }
  split; (apply NoDup_Permutation; [by destruct Hcons|apply NoDup_seq|]);
    intros i; rewrite elem_of_seq, <-Hres.
  - rewrite (cons_starts _ Hcons), (running_all_idle _ Hidle).
    split; [intros [?%elem_of_nil|?]; [done|split; [lia|done]]|intros [_ ?]; by right].
  - rewrite (cons_dones _ Hcons). split; [split; [lia|done]|by intros [_ ?]].
Qed.

End Report.

(** C1.  Coverage: when the syncer has at least one repository, every mod
    of the list handed to [sync_mods] is named in the report the call
    returns, by a dict of [updated_mods] or as an entry of [failed_mods],
    whatever the repositories answer and in whatever order the attempts
    run and complete. *)
Theorem sync_mods_coverage self mod_list sched w r w' :
  repositories self ≠ [] →
  sync_mods self mod_list sched w = Some (Return r, w') →
  ∀ p, p ∈ mod_list → p ∈ mod_id <$> updated_mods r ∨ p ∈ failed_mods r.
Proof.
  intros Hrepos [Hpc _]%sync_mods_Returned p Hp.
  destruct (sync_ok_run self mod_list sched w) as (Hinv & _).
  pose proof (reported_returned _ _ _ _ Hinv Hpc) as Hrep.
  apply elem_of_app. fold (reported r). rewrite Hrep.
  destruct (repositories self) as [|repo repos] eqn:Hr; [done|].
  apply list_elem_of_fmap. exists (p, repo). split; [done|].
  apply elem_of_attempts. rewrite Hr. split; [done|left].
Qed.

Lemma sync_mods_coverage_witness :
  repositories (demo_syncer [as_ModRepository demo_curseforge]) ≠ []
  ∧ ∃ r, fst <$> sync_mods (demo_syncer [as_ModRepository demo_curseforge])
                   ["p1"; "p2"] (sequential_schedule 2) demo_world
         = Some (Return r)
         ∧ ∀ p, p ∈ ["p1"; "p2"] →
                p ∈ mod_id <$> updated_mods r ∨ p ∈ failed_mods r.
Proof.
  split; [discriminate|]. eexists. split; [vm_compute; reflexivity|].
  eapply (sync_mods_coverage (demo_syncer [as_ModRepository demo_curseforge])
            ["p1"; "p2"] (sequential_schedule 2) demo_world);
    [discriminate|vm_compute; reflexivity].
Defined.

(** C3.  One attempt per mod and repository, none skipped: the futures are
    the P × B pairs, and when the call returns each of them has been
    started once and has finished once, each has put one entry in the
    report (every mod is named there once per repository), so
    [updated_mods] and [failed_mods] have P × B entries together. *)
Theorem sync_mods_one_entry_per_attempt self mod_list sched w r w' :
  sync_mods self mod_list sched w = Some (Return r, w') →
  let n := length mod_list * length (repositories self) in
  length (attempts self mod_list) = n
  ∧ (∀ m repo, (m, repo) ∈ attempts self mod_list
               ↔ m ∈ mod_list ∧ repo ∈ repositories self)
  ∧ starts (trace (run self mod_list sched (initial w))) ≡ₚ seq 0 n
  ∧ dones (trace (run self mod_list sched (initial w))) ≡ₚ seq 0 n
  ∧ reported r ≡ₚ (mod_list ≫= λ m, replicate (length (repositories self)) m)
  ∧ length (updated_mods r) + length (failed_mods r) = n.
Proof.
  intros [Hpc _]%sync_mods_Returned n.
  destruct (sync_ok_run self mod_list sched w) as (Hinv & _).
  pose proof (reported_returned _ _ _ _ Hinv Hpc) as Hrep.
  destruct (returned_all_ran self mod_list sched w r Hpc) as [Hs Hd].
  rewrite attempts_length in Hs, Hd. rewrite attempts_fst in Hrep.
  split_and!; try done.
  - apply attempts_length.
  - apply elem_of_attempts.
  - rewrite <-(length_fmap mod_id), <-length_app. fold (reported r).
    rewrite Hrep, <-attempts_fst, length_fmap. apply attempts_length.
Qed.

Lemma sync_mods_one_entry_per_attempt_witness :
  ∃ r, fst <$> sync_mods (demo_syncer [as_ModRepository demo_curseforge;
                                       as_ModRepository demo_curseforge])
                 ["p1"; "p2"] (sequential_schedule 4) demo_world
       = Some (Return r)
       ∧ reported r ≡ₚ ["p1"; "p1"; "p2"; "p2"]
       ∧ length (updated_mods r) + length (failed_mods r) = 4.
Proof.
  eexists. split; [vm_compute; reflexivity|].
  eapply (sync_mods_one_entry_per_attempt
            (demo_syncer [as_ModRepository demo_curseforge;
                          as_ModRepository demo_curseforge])
            ["p1"; "p2"] (sequential_schedule 4) demo_world).
  vm_compute; reflexivity.
Defined.

(** C10.  The report a call of [sync_mods] returns has no conflict: the
    detector's [detect_conflicts] returns its empty list whatever was
    synchronised and whatever the mods directory holds. *)
Theorem sync_mods_conflicts_empty self mod_list sched w r w' :
  sync_mods self mod_list sched w = Some (Return r, w') →
  conflicts r = [] ∧ ∀ d, detect_conflicts d = [].
Proof.
  intros [Hpc _]%sync_mods_Returned. split; [|done].
  destruct (sync_ok_run self mod_list sched w) as (Hinv & _).
  pose proof (inv_returned _ _ _ Hinv) as Hret. rewrite Hpc in Hret.
  destruct Hret as (-> & _). apply (inv_conflicts _ _ _ Hinv).
Qed.

Lemma sync_mods_conflicts_empty_witness :
  ∃ r, fst <$> sync_mods (demo_syncer [as_ModRepository demo_curseforge])
                 ["p1"; "p2"] (sequential_schedule 2) demo_world
       = Some (Return r)
       ∧ conflicts r = [].
Proof.
  eexists. split; [vm_compute; reflexivity|].
  eapply proj1, (sync_mods_conflicts_empty
            (demo_syncer [as_ModRepository demo_curseforge])
            ["p1"; "p2"] (sequential_schedule 2) demo_world).
  vm_compute; reflexivity.
Defined.

(** C9.  In every state of every run of [sync_mods] the pool has at most
    five worker threads and at most five attempts in flight; an observer
    who counts the attempts started and the attempts done never sees more
    than five between the two. *)
Theorem sync_mods_at_most_5_in_flight self mod_list sched w :
  max_workers = 5
  ∧ length (threads (run self mod_list sched (initial w))) ≤ 5
  ∧ in_flight (run self mod_list sched (initial w)) ≤ 5
  ∧ started (trace (run self mod_list sched (initial w)))
    = completed (trace (run self mod_list sched (initial w)))
      + in_flight (run self mod_list sched (initial w))
  ∧ NoDup (running (threads (run self mod_list sched (initial w)))).
Proof.
  destruct (sync_ok_run self mod_list sched w) as (_ & Hcons & _ & Hlen & Hcnt).
  pose proof (busy_count_le (threads (run self mod_list sched (initial w)))).
  unfold in_flight in *. unfold max_workers in *. split_and!; try done; try lia.
  pose proof (cons_nodup _ Hcons) as Hnd. by apply NoDup_app in Hnd as (_ & _ & ?).
Qed.

(** The sixth future waits in the queue while five are in flight. *)
Example demo_six_attempts :
  let st := run (demo_syncer [as_ModRepository demo_curseforge])
              ["p1"; "p2"; "p3"; "p4"; "p5"; "p1"]
              (replicate 6 Submit ++ (Take <$> seq 0 6))
              (initial demo_world) in
  in_flight st = 5 ∧ work_queue st = [5] ∧ length (threads st) = 5.
Proof. vm_compute. done. Qed.

(** C5, as the code has it.  In a call that returns, [detect_conflicts]
    is called once, it is the last thing the call does, every future has
    finished before, and what it returns is the [conflicts] of the report.
    It is called without argument on the detector made in
    [ModSyncer.__init__], which holds the mods directory only. *)
Theorem detect_conflicts_called_once self mod_list sched w r :
  pc (run self mod_list sched (initial w)) = Returned r →
  ∃ tr,
    trace (run self mod_list sched (initial w))
      = tr ++ [EvDetect (conflict_detector self)]
    ∧ (∀ d, EvDetect d ∉ tr)
    ∧ dones tr ≡ₚ seq 0 (length (attempts self mod_list))
    ∧ conflicts r = detect_conflicts (conflict_detector self).
Proof.
  intros Hpc.
  destruct (sync_ok_run self mod_list sched w) as (Hinv & _).
  destruct (returned_all_ran self mod_list sched w r Hpc) as [_ Hd].
  pose proof (inv_returned _ _ _ Hinv) as Hret. rewrite Hpc in Hret.
  destruct Hret as (-> & _ & _ & _ & _ & tr & Htr & Hnot & _).
  exists tr. rewrite Htr, dones_snoc, app_nil_r in Hd.
  split_and!; try done. apply (inv_conflicts _ _ _ Hinv).
Qed.

Lemma detect_conflicts_called_once_witness :
  ∃ r tr,
    pc (run (demo_syncer [as_ModRepository demo_curseforge]) ["p1"; "p2"]
          (sequential_schedule 2) (initial demo_world)) = Returned r
    ∧ trace (run (demo_syncer [as_ModRepository demo_curseforge]) ["p1"; "p2"]
               (sequential_schedule 2) (initial demo_world))
      = tr ++ [EvDetect {| cd_mods_directory := "./mods" |}]
    ∧ dones tr ≡ₚ [0; 1].
Proof.
  eexists.
  destruct (detect_conflicts_called_once
              (demo_syncer [as_ModRepository demo_curseforge]) ["p1"; "p2"]
              (sequential_schedule 2) demo_world
              {| updated_mods :=
                   [{| mod_id := "p1";
                       version := demo_version "https://cdn/p1" "mod.jar";
                       download_path :=
                         VStr "./mod_cache/curseforgerepository/downloads/mod.jar" |}];
                 failed_mods := ["p2"];
                 conflicts := [] |})
    as (tr & Htr & _ & Hd & _); [vm_compute; reflexivity|].
  exists tr. split_and!; [vm_compute; reflexivity|exact Htr|exact Hd].
Defined.

(** C5, as the specification has it: the set of the mods of [updated_mods]
    could be read off what the detector is given.  The detector is given
    itself and nothing else. *)
Definition analyzer_receives_synced : Prop :=
  ∃ received : ModConflictDetector → list string,
    ∀ self mod_list sched w r w',
      sync_mods self mod_list sched w = Some (Return r, w') →
      ∀ p, p ∈ received (conflict_detector self) ↔ p ∈ mod_id <$> updated_mods r.

(** The same detector is called after a call that synchronised [p1] and
    after a call that synchronised nothing. *)
Lemma analyzer_receives_synced_counterexample : ¬ analyzer_receives_synced.
Proof.
  intros [received Hrec].
  pose (self := demo_syncer [as_ModRepository demo_curseforge]).
  destruct (sync_mods self ["p1"] (sequential_schedule 1) demo_world)
    as [[[r1|] w1]|] eqn:H1; try (vm_compute in H1; discriminate).
  destruct (sync_mods self ["p2"] (sequential_schedule 1) demo_world)
    as [[[r2|] w2]|] eqn:H2; try (vm_compute in H2; discriminate).
  pose proof (Hrec _ _ _ _ _ _ H1 "p1") as Hp1.
  pose proof (Hrec _ _ _ _ _ _ H2 "p1") as Hp2.
  vm_compute in H1, H2. simplify_eq. simpl in *.
  assert ("p1" ∈ received {| cd_mods_directory := "./mods" |}) as Hin
    by (apply Hp1; left).
  apply Hp2 in Hin. by apply elem_of_nil in Hin.
Qed.

(** ** A syncer without repository *)

Lemma attempts_no_repository self mod_list :
  repositories self = [] → attempts self mod_list = [].
Proof.
  intros Hr. apply nil_length_inv. rewrite attempts_length, Hr. simpl. lia.
Qed.

(** C2, as the specification has it, fails: with no repository the mod
    that was asked for is not in [failed_mods]. *)
Lemma sync_mods_no_repository_counterexample :
  repositories (demo_syncer []) = []
  ∧ sync_mods (demo_syncer []) ["p1"] (sequential_schedule 0) demo_world
    = Some (Return empty_report, demo_world)
  ∧ "p1" ∉ failed_mods empty_report.
Proof.
  split_and!; [done|done|]. simpl. by intros ?%elem_of_nil.
Qed.

(** C2, as the code has it.  With no repository no future is submitted:
    the call returns, it does not raise, and the report it returns is
    empty, so that none of the mods asked for is recorded in it. *)
Theorem sync_mods_no_repository self mod_list :
  repositories self = [] →
  (∀ w, sync_mods self mod_list (sequential_schedule 0) w
        = Some (Return empty_report, w))
  ∧ (∀ sched w e w', sync_mods self mod_list sched w ≠ Some (Raise e, w'))
  ∧ (∀ sched w r w',
       sync_mods self mod_list sched w = Some (Return r, w') → r = empty_report).
Proof.
  intros Hr. pose proof (attempts_no_repository self mod_list Hr) as Hatt.
  split_and!.
  - intros w. unfold sync_mods, sequential_schedule, run, step. simpl.
    rewrite Hatt. simpl. by destruct w.
  - intros sched w e w'. apply sync_mods_no_Raise. by rewrite Hr.
  - intros sched w r w' [Hpc _]%sync_mods_Returned.
    destruct (sync_ok_run self mod_list sched w) as (Hinv & _).
    pose proof (reported_returned _ _ _ _ Hinv Hpc) as Hrep.
    rewrite Hatt in Hrep. apply Permutation_nil_r, app_eq_nil in Hrep as [Hu Hf].
    apply fmap_nil_inv in Hu.
    pose proof (inv_returned _ _ _ Hinv) as Hret. rewrite Hpc in Hret.
    destruct Hret as (Heq & _). pose proof (inv_conflicts _ _ _ Hinv) as Hc.
    rewrite <-Heq in Hc. destruct r; simpl in *. by subst.
Qed.

Lemma sync_mods_no_repository_witness :
  repositories (demo_syncer []) = []
  ∧ ∀ w, sync_mods (demo_syncer []) ["p1"; "p2"] (sequential_schedule 0) w
         = Some (Return empty_report, w).
Proof.
  split; [reflexivity|].
  apply (sync_mods_no_repository (demo_syncer []) ["p1"; "p2"]). reflexivity.
Defined.

(** ** Faults of an attempt *)

(** The lookup of a version fails: nothing is found, or an instance of
    [Exception] is raised. *)
Definition resolve_fault (self : ModSyncer) (m : string) (repo : ModRepository)
    (w : world) : Prop :=
  (∃ v w1, get_latest_version repo m (minecraft_version self) w = (Return v, w1)
           ∧ truthy v = false)
  ∨ (∃ e w1, get_latest_version repo m (minecraft_version self) w = (Raise e, w1)
             ∧ exn_is_Exception e = true).

(** The download fails: no path comes back, or an instance of [Exception]
    is raised. *)
Definition fetch_fault (m : string) (repo : ModRepository) (v : val)
    (w : world) : Prop :=
  (∃ p w1, download_mod repo m v w = (Return p, w1) ∧ truthy p = false)
  ∨ (∃ e w1, download_mod repo m v w = (Raise e, w1)
             ∧ exn_is_Exception e = true).

Lemma resolve_fault_caught self m repo w :
  resolve_fault self m repo w →
  ∃ w', _sync_single_mod_resolve self m repo w = (Return (Finished None), w').
Proof.
  unfold _sync_single_mod_resolve, try_except, py_bind, py_ret, sync_failed,
    logger_error.
  intros [(v & w1 & -> & ->)|(e & w1 & -> & ->)]; simpl; eauto.
Qed.

Lemma fetch_fault_caught self m repo v w :
  fetch_fault m repo v w →
  ∃ w', _sync_single_mod_fetch self m repo v w = (Return None, w').
Proof.
  unfold _sync_single_mod_fetch, try_except, py_bind, py_ret, sync_failed,
    logger_error.
  intros [(p & w1 & -> & ->)|(e & w1 & -> & ->)]; simpl; eauto.
Qed.

(** C4, as the specification has it, fails: an object that is not an
    instance of [Exception] passes the two [except Exception] clauses and
    leaves [sync_mods]. *)
Lemma sync_mods_raises_counterexample :
  sync_mods (demo_syncer [exiting_repository]) ["p1"] (sequential_schedule 1)
    demo_world
  = Some (Raise (Exn false "SystemExit"), demo_world).
Proof. vm_compute. reflexivity. Qed.

(** C4, as the code has it.  When what the repositories raise are
    instances of [Exception]: a fault of the lookup or of the download
    (nothing found, no path, an exception) ends the attempt with [None];
    [sync_mods] never raises, and it returns under the sequential schedule;
    in the report of a call that returns, every future has a result, and
    [failed_mods] holds the mod of each future that ended with [None],
    [updated_mods] the dict of each other future. *)
Theorem sync_mods_catches_Exception self mod_list :
  Forall raises_only_Exception (repositories self) →
  (∀ m repo w, resolve_fault self m repo w →
     ∃ w', _sync_single_mod_resolve self m repo w = (Return (Finished None), w'))
  ∧ (∀ m repo v w, fetch_fault m repo v w →
       ∃ w', _sync_single_mod_fetch self m repo v w = (Return None, w'))
  ∧ (∀ sched w e w', sync_mods self mod_list sched w ≠ Some (Raise e, w'))
  ∧ (∀ w, ∃ r w',
       sync_mods self mod_list
         (sequential_schedule (length (attempts self mod_list))) w
       = Some (Return r, w'))
  ∧ (∀ sched w r w',
       sync_mods self mod_list sched w = Some (Return r, w') →
       let res := results (run self mod_list sched (initial w)) in
       let n := length (attempts self mod_list) in
       (∀ i, i < n → ∃ o, res !! i = Some (Return o))
       ∧ failed_mods r ≡ₚ omap (failed_of self mod_list res) (seq 0 n)
       ∧ updated_mods r ≡ₚ omap (synced_of res) (seq 0 n)).
Proof.
  intros Hrepos. split_and!.
  - intros. by apply resolve_fault_caught.
  - intros. by apply fetch_fault_caught.
  - intros. by apply sync_mods_no_Raise.
  - intros. by apply sync_mods_sequential_returns.
  - intros sched w r w' [Hpc _]%sync_mods_Returned res n.
    destruct (sync_ok_run self mod_list sched w) as (Hinv & _ & Hex & _).
    pose proof (yielded_all _ _ _ _ Hinv Hpc) as Hy.
    pose proof (inv_returned _ _ _ Hinv) as Hret.
    unfold report_exact in Hex. rewrite Hpc in Hret, Hex.
    destruct Hret as (-> & _ & Hall & _). destruct Hex as [-> ->].
    rewrite Forall_forall in Hall.
    split_and!; [|by rewrite Hy..].
    intros i Hi.
    destruct (inv_yielded_done _ _ _ Hinv i) as [o Ho]; [apply Hall, elem_of_seq; lia|].
    destruct o as [o|e]; [by eauto|].
    by destruct (proj1 (no_raise_run self mod_list Hrepos sched w) i e).
Qed.

(** * [CurseForgeRepository] *)

(** ** Its methods do not raise *)

(** A computation that raises instances of [Exception] only. *)
Definition raises_Exception {A} (c : py A) : Prop :=
  ∀ w e w', c w = (Raise e, w') → exn_is_Exception e = true.

Lemma raises_Exception_ret {A} (a : A) : raises_Exception (py_ret a).
Proof. by intros w e w' [=]. Qed.

Lemma raises_Exception_raise {A} name : raises_Exception (@py_raise A (Exn true name)).
Proof. intros w e w' [=]. by subst. Qed.

Lemma raises_Exception_bind {A B} (c : py A) (k : A → py B) :
  raises_Exception c → (∀ a, raises_Exception (k a)) →
  raises_Exception (py_bind c k).
Proof.
  intros Hc Hk w e w'. unfold py_bind.
  destruct (c w) as [[a|e0] w1] eqn:Hcw; [by apply Hk|].
  intros [= -> ->]. by eapply Hc.
Qed.

Lemma raises_Exception_lift {A} (o : outcome A) :
  (∀ e, o = Raise e → exn_is_Exception e = true) → raises_Exception (py_lift o).
Proof. intros Ho w e w' [= -> _]. by apply Ho. Qed.

Lemma py_get_raises v key default e :
  py_get v key default = Raise e → exn_is_Exception e = true.
Proof. destruct v; intros [=]; by subst. Qed.

Lemma py_getitem_str_raises v key e :
  py_getitem_str v key = Raise e → exn_is_Exception e = true.
Proof.
  destruct v; simpl; try (intros [=]; by subst).
  destruct (assoc key d); intros [=]; by subst.
Qed.

Lemma py_getitem_0_raises v e :
  py_getitem_0 v = Raise e → exn_is_Exception e = true.
Proof. destruct v as [| | |[|]|[|]|]; intros [=]; by subst. Qed.

Lemma py_path_join_raises dir v e :
  py_path_join dir v = Raise e → exn_is_Exception e = true.
Proof. destruct v; intros [=]; by subst. Qed.

Lemma requests_get_raises url hs ps : raises_Exception (requests_get url hs ps).
Proof.
  intros w e w'. unfold requests_get.
  destruct url; try (intros [=]; by subst).
  destruct (net w (clock w) s hs ps); intros [=]; by subst.
Qed.

Lemma raise_for_status_raises r : raises_Exception (raise_for_status r).
Proof.
  unfold raise_for_status. case_match;
    [apply raises_Exception_raise|apply raises_Exception_ret].
Qed.

Lemma response_json_raises r : raises_Exception (response_json r).
Proof.
  unfold response_json. case_match;
    [apply raises_Exception_ret|apply raises_Exception_raise].
Qed.

Lemma os_makedirs_raises p : raises_Exception (os_makedirs p).
Proof.
  intros w e w'. unfold os_makedirs.
  repeat case_match; intros [=]; by subst.
Qed.

Lemma write_file_raises p data : raises_Exception (write_file p data).
Proof.
  intros w e w'. unfold write_file.
  repeat case_match; intros [=]; by subst.
Qed.

Create HintDb raises discriminated.
#[export] Hint Resolve raises_Exception_ret raises_Exception_raise
  raises_Exception_lift py_get_raises py_getitem_str_raises
  py_getitem_0_raises py_path_join_raises requests_get_raises
  raise_for_status_raises response_json_raises os_makedirs_raises
  write_file_raises : raises.

Ltac raises_auto :=
  repeat (apply raises_Exception_bind; [|intros]); try case_match;
  eauto with raises.

(** [try: body except Exception: handler] returns when the body raises
    instances of [Exception] only and the handler returns. *)
Lemma try_except_returns {A} (body : py A) (handler : exn → py A) w :
  raises_Exception body →
  (∀ e w1, ∃ a w', handler e w1 = (Return a, w')) →
  ∃ a w', try_except body handler w = (Return a, w').
Proof.
  intros Hb Hh. unfold try_except.
  destruct (body w) as [[a|e] w1] eqn:Hbw; [by eauto|].
  rewrite (Hb _ _ _ Hbw). apply Hh.
Qed.

Lemma CurseForgeRepository_get_latest_version_returns self m v w :
  ∃ r w', CurseForgeRepository_get_latest_version self m v w = (Return r, w').
Proof.
  apply try_except_returns; [raises_auto|].
  intros e w1. unfold py_bind, logger_error, py_ret. simpl. eauto.
Qed.

Lemma CurseForgeRepository_download_mod_returns self m info w :
  ∃ r w', CurseForgeRepository_download_mod self m info w = (Return r, w').
Proof.
  apply try_except_returns; [raises_auto|].
  intros e w1. unfold py_bind, logger_error, py_ret. simpl. eauto.
Qed.

Lemma CurseForgeRepository_raises_only_Exception self :
  raises_only_Exception (as_ModRepository self).
Proof.
  split; simpl.
  - intros m v w e w' H.
    destruct (CurseForgeRepository_get_latest_version_returns self m v w)
      as (? & ? & ?). congruence.
  - intros m v w e w' H.
    destruct (CurseForgeRepository_download_mod_returns self m v w)
      as (? & ? & ?). congruence.
Qed.

Lemma sync_mods_catches_Exception_witness :
  Forall raises_only_Exception
    (repositories (demo_syncer [as_ModRepository demo_curseforge]))
  ∧ ∀ sched w e w',
      sync_mods (demo_syncer [as_ModRepository demo_curseforge])
        ["p1"; "p2"; "p3"] sched w ≠ Some (Raise e, w').
Proof.
  assert (Forall raises_only_Exception
            (repositories (demo_syncer [as_ModRepository demo_curseforge]))) as H.
  { repeat constructor; apply CurseForgeRepository_raises_only_Exception. }
  split; [exact H|].
  apply (sync_mods_catches_Exception
           (demo_syncer [as_ModRepository demo_curseforge]) ["p1"; "p2"; "p3"] H).
Defined.

(** ** What [get_latest_version] tells its caller *)

(** The request [get_latest_version] sends. *)
Definition files_url (m : string) : string :=
  BASE_URL +:+ "/mods/" +:+ m +:+ "/files".
Definition files_params (v : string) : list (string * val) :=
  [("gameVersion", VStr v); ("sortOrder", VStr "desc"); ("pageSize", VInt 1)].

Definition status_ok (r : response) : Prop :=
  ((400 <=? status_code r)%Z && (status_code r <? 600)%Z) = false.

(** The answer says there is no file for the game version: the status is
    not an error and the [data] of the JSON object is empty or absent. *)
Definition answers_not_found (self : CurseForgeRepository) (m v : string)
    (w : world) : Prop :=
  ∃ resp d versions,
    net w (clock w) (files_url m) (headers self) (files_params v)
      = HttpResponse resp
    ∧ status_ok resp
    ∧ json resp = Some (VDict d)
    ∧ from_option id (VList []) (assoc "data" d) = versions
    ∧ truthy versions = false.

(** The request fails: no answer, an error status, or a body that is not
    JSON; [name] is the exception. *)
Definition request_fault (self : CurseForgeRepository) (m v : string)
    (w : world) (name : string) : Prop :=
  net w (clock w) (files_url m) (headers self) (files_params v) = HttpFault name
  ∨ (∃ resp,
       net w (clock w) (files_url m) (headers self) (files_params v)
         = HttpResponse resp
       ∧ ((¬ status_ok resp ∧ name = "HTTPError")
          ∨ (status_ok resp ∧ json resp = None ∧ name = "JSONDecodeError"))).

(** C6, as the specification has it, fails: mod [p2] has no file for the
    game version, the request for mod [p3] meets a connection error, and
    [get_latest_version] returns [None] for both. *)
Lemma get_latest_version_conflates_counterexample :
  answers_not_found demo_curseforge "p2" "1.19.2" demo_world
  ∧ request_fault demo_curseforge "p3" "1.19.2" demo_world "ConnectionError"
  ∧ (CurseForgeRepository_get_latest_version demo_curseforge "p2" "1.19.2"
       demo_world).1 = Return VNone
  ∧ (CurseForgeRepository_get_latest_version demo_curseforge "p3" "1.19.2"
       demo_world).1 = Return VNone.
Proof.
  split_and!; [|by left|done..].
  eexists _, _, _. split_and!; [reflexivity|done..].
Qed.

(** C6, as the code has it.  [get_latest_version] never raises.  It
    returns [None] when there is no file for the game version, and it
    returns [None] as well when the request fails; the second case leaves
    an error in the log of the repository, the first leaves none, and
    this is the only difference. *)
Theorem get_latest_version_None self m v w :
  (∃ r w', CurseForgeRepository_get_latest_version self m v w = (Return r, w'))
  ∧ (answers_not_found self m v w →
       CurseForgeRepository_get_latest_version self m v w
       = (Return VNone, tick w))
  ∧ (∀ name, request_fault self m v w name →
       CurseForgeRepository_get_latest_version self m v w
       = (Return VNone,
          add_log "CurseForgeRepository"
            ("Failed to fetch versions for mod " +:+ m +:+ ": " +:+ name)
            (tick w))).
Proof.
  split_and!; [apply CurseForgeRepository_get_latest_version_returns|..].
  - intros (resp & d & versions & Hnet & Hok & Hjson & Hv & Hfalsy).
    unfold CurseForgeRepository_get_latest_version, try_except, py_bind,
      requests_get, raise_for_status, response_json, py_lift, py_ret.
    fold (files_url m). fold (files_params v). rewrite Hnet. unfold status_ok in Hok.
    rewrite Hok, Hjson. simpl. rewrite Hv, Hfalsy. done.
  - intros name Hfault.
    unfold CurseForgeRepository_get_latest_version, try_except, py_bind,
      requests_get, raise_for_status, response_json, py_lift, py_ret, py_raise,
      logger_error.
    fold (files_url m). fold (files_params v).
    destruct Hfault as [->|(resp & -> & [[Hst ->]|(Hst & Hj & ->)])]; simpl.
    + done.
    + unfold status_ok in Hst. apply not_false_is_true in Hst. by rewrite Hst.
    + unfold status_ok in Hst. by rewrite Hst, Hj.
Qed.

Lemma get_latest_version_None_witness :
  answers_not_found demo_curseforge "p2" "1.19.2" demo_world
  ∧ CurseForgeRepository_get_latest_version demo_curseforge "p2" "1.19.2"
      demo_world = (Return VNone, tick demo_world)
  ∧ request_fault demo_curseforge "p3" "1.19.2" demo_world "ConnectionError"
  ∧ log (CurseForgeRepository_get_latest_version demo_curseforge "p3" "1.19.2"
           demo_world).2
    = [("CurseForgeRepository",
        "Failed to fetch versions for mod p3: ConnectionError")].
Proof.
  assert (answers_not_found demo_curseforge "p2" "1.19.2" demo_world) as Hnf.
  { eexists _, _, _. split_and!; [reflexivity|reflexivity|reflexivity|reflexivity|reflexivity]. }
  assert (request_fault demo_curseforge "p3" "1.19.2" demo_world "ConnectionError")
    as Hf by (left; reflexivity).
  split_and!; [exact Hnf| |exact Hf|].
  - apply (get_latest_version_None demo_curseforge "p2" "1.19.2" demo_world), Hnf.
  - rewrite (proj2 (proj2 (get_latest_version_None demo_curseforge "p3" "1.19.2"
                             demo_world)) _ Hf).
    reflexivity.
Defined.

(** ** The file [download_mod] writes *)

(** Where [download_mod] puts the file called [file]. *)
Definition download_path_of (self : CurseForgeRepository) (file : string) : string :=
  os_path_join (os_path_join (cf_cache_dir self) "downloads") file.

(** When [download_mod] returns a path, the file at that path holds the
    body of the answer to the request for [downloadUrl], sent after the
    downloads directory was made. *)
Lemma CurseForgeRepository_download_mod_Return self m info w p w' :
  CurseForgeRepository_download_mod self m info w = (Return p, w') →
  truthy p = true →
  ∃ url file resp,
    py_getitem_str info "downloadUrl" = Return (VStr url)
    ∧ py_getitem_str info "fileName" = Return (VStr file)
    ∧ net w (S (clock w)) url (headers self) [] = HttpResponse resp
    ∧ p = VStr (download_path_of self file)
    ∧ fs w' !! download_path_of self file = Some (File (content resp)).
Proof.
  unfold CurseForgeRepository_download_mod, try_except, py_bind, py_lift,
    py_ret, logger_error.
  destruct (py_getitem_str info "downloadUrl") as [url|e] eqn:Hurl;
    [|destruct (exn_is_Exception e); intros; by simplify_eq/=].
  destruct (py_getitem_str info "fileName") as [file|e] eqn:Hfile;
    [|destruct (exn_is_Exception e); intros; by simplify_eq/=].
  destruct (os_makedirs (os_path_join (cf_cache_dir self) "downloads") w)
    as [[[]|e] w1] eqn:Hmk;
    [|destruct (exn_is_Exception e); intros; by simplify_eq/=].
  destruct (py_path_join (os_path_join (cf_cache_dir self) "downloads") file)
    as [path|e] eqn:Hpath;
    [|destruct (exn_is_Exception e); intros; by simplify_eq/=].
  destruct (requests_get url (headers self) [] w1) as [[resp|e] w2] eqn:Hget;
    [|destruct (exn_is_Exception e); intros; by simplify_eq/=].
  destruct (raise_for_status resp w2) as [[[]|e] w3] eqn:Hst;
    [|destruct (exn_is_Exception e); intros; by simplify_eq/=].
  destruct (write_file path (content resp) w3) as [[[]|e] w4] eqn:Hwr;
    [|destruct (exn_is_Exception e); intros; by simplify_eq/=].
  intros [= <- <-] _.
  destruct file as [| | |file| |]; simplify_eq/=.
  unfold requests_get in Hget. destruct url as [| | |url| |]; simplify_eq/=.
  assert (clock w1 = S (clock w) ∧ net w1 = net w) as [Hc Hn].
  { unfold os_makedirs in Hmk. repeat case_match; by simplify_eq/=. }
  rewrite Hc, Hn in Hget.
  destruct (net w (S (clock w)) url (headers self) []) as [|resp'] eqn:Hnet;
    simplify_eq/=.
  exists url, file, resp. split_and!; try done.
  unfold write_file in Hwr. repeat case_match; simplify_eq/=.
  all: apply lookup_insert_eq.
Qed.




(** ** Scratch directories and file paths *)

Lemma os_path_join_inj d f1 f2 :
  startswith_sep f1 = false → startswith_sep f2 = false →
  os_path_join d f1 = os_path_join d f2 → f1 = f2.
Proof.
  unfold os_path_join. intros -> ->.
  destruct (String.eqb d "" || endswith_sep d).
  - by intros ?%(inj (String.app d)).
  - by intros ?%(inj (String.app d))%(inj (String.app "/")).
Qed.




(** * More on [ModSyncer.py] *)

(** ** [CurseForgeRepository.get_latest_version] *)

(** Two worlds that differ by their logs at most, the second one request
    later. *)
Definition one_request_later (w w' : world) : Prop :=
  fs w' = fs w ∧ clock w' = S (clock w)
  ∧ net w' = net w ∧ os_denies w' = os_denies w.

Lemma get_latest_version_post self m v w :
  let r := CurseForgeRepository_get_latest_version self m v w in
  one_request_later w r.2
  ∧ (log r.2 = log w
     ∨ (r.1 = Return VNone
        ∧ ∃ name, log r.2 = log w ++ [("CurseForgeRepository",
               "Failed to fetch versions for mod " +:+ m +:+ ": " +:+ name)])).
Proof.
  unfold CurseForgeRepository_get_latest_version, try_except, py_bind,
    requests_get, raise_for_status, response_json, py_lift, py_ret, py_raise,
    logger_error, one_request_later.
  cbv zeta.
  destruct (net w (clock w) _ (headers self) _) as [name|resp]; simpl;
    [split; [done|right; eauto]|].
  destruct ((400 <=? status_code resp)%Z && (status_code resp <? 600)%Z); simpl;
    [split; [done|right; eauto]|].
  destruct (json resp) as [body|]; simpl; [|split; [done|right; eauto]].
  destruct (py_get body "data" (VList [])) as [versions|e] eqn:Hget; simpl.
  - destruct (truthy versions); simpl; [|by split; [|left]].
    destruct (py_getitem_0 versions) as [x|e] eqn:H0; simpl; [by split; [|left]|].
    rewrite (py_getitem_0_raises _ _ H0). simpl. split; [done|right; eauto].
  - rewrite (py_get_raises _ _ _ _ Hget). simpl. split; [done|right; eauto].
Qed.

(** X1.  [get_latest_version] sends one request and leaves the file system as
    it is; it writes one error to the log when it returns [None] after a
    fault, and nothing otherwise. *)
Theorem get_latest_version_frame self m v w :
  let r := CurseForgeRepository_get_latest_version self m v w in
  one_request_later w r.2
  ∧ (log r.2 = log w
     ∨ (r.1 = Return VNone
        ∧ ∃ name, log r.2 = log w ++ [("CurseForgeRepository",
               "Failed to fetch versions for mod " +:+ m +:+ ": " +:+ name)])).
Proof. exact (get_latest_version_post self m v w). Qed.

(** X2.  When the answer is a JSON object whose [data] is a list,
    [get_latest_version] returns the first element of the list, the
    newest file as the request asks for descending order, or [None] when
    the list is empty; nothing is logged. *)
Theorem get_latest_version_first self m v w resp d l :
  net w (clock w) (files_url m) (headers self) (files_params v) = HttpResponse resp →
  status_ok resp →
  json resp = Some (VDict d) →
  assoc "data" d = Some (VList l) →
  CurseForgeRepository_get_latest_version self m v w
  = (Return (from_option id VNone (head l)), tick w).
Proof.
  intros Hnet Hok Hjson Hdata.
  unfold CurseForgeRepository_get_latest_version, try_except, py_bind,
    requests_get, raise_for_status, response_json, py_lift, py_ret.
  fold (files_url m). fold (files_params v). rewrite Hnet.
  unfold status_ok in Hok. rewrite Hok, Hjson. simpl. rewrite Hdata. simpl.
  by destruct l.
Qed.

Lemma get_latest_version_first_witness :
  CurseForgeRepository_get_latest_version demo_curseforge "p1" "1.19.2" demo_world
  = (Return (demo_version "https://cdn/p1" "mod.jar"), tick demo_world).
Proof.
  apply (get_latest_version_first demo_curseforge "p1" "1.19.2" demo_world
           (Response 200 [] (Some (VDict [("data",
              VList [demo_version "https://cdn/p1" "mod.jar"])])))
           [("data", VList [demo_version "https://cdn/p1" "mod.jar"])]
           [demo_version "https://cdn/p1" "mod.jar"]);
    reflexivity.
Defined.

(** ** [CurseForgeRepository.download_mod] *)

Definition downloads_dir (self : CurseForgeRepository) : string :=
  os_path_join (cf_cache_dir self) "downloads".

Lemma download_mod_post self m info w :
  let r := CurseForgeRepository_download_mod self m info w in
  (r.1 = Return VNone
   ∧ (fs r.2 = fs w ∨ fs r.2 = <[downloads_dir self := Dir]> (fs w))
   ∧ ∃ name, log r.2 = log w ++ [("CurseForgeRepository",
               "Failed to download mod " +:+ m +:+ ": " +:+ name)])
  ∨ (∃ file resp,
       py_getitem_str info "fileName" = Return (VStr file)
       ∧ r.1 = Return (VStr (download_path_of self file))
       ∧ fs r.2 = <[download_path_of self file := File (content resp)]>
                    (<[downloads_dir self := Dir]> (fs w))
       ∧ log r.2 = log w).
Proof.
  unfold CurseForgeRepository_download_mod, try_except, py_bind, py_lift,
    py_ret, logger_error, downloads_dir. cbv zeta.
  destruct (py_getitem_str info "downloadUrl") as [url|e] eqn:Hurl.
  2:{ rewrite (py_getitem_str_raises _ _ _ Hurl). simpl. left. eauto. }
  destruct (py_getitem_str info "fileName") as [file|e] eqn:Hfile.
  2:{ rewrite (py_getitem_str_raises _ _ _ Hfile). simpl. left. eauto. }
  destruct (os_makedirs (os_path_join (cf_cache_dir self) "downloads") w)
    as [[[]|e] w1] eqn:Hmk.
  2:{ rewrite (os_makedirs_raises _ _ _ _ Hmk). simpl. left.
      unfold os_makedirs in Hmk. repeat case_match; simplify_eq/=; eauto. }
  assert (fs w1 = <[os_path_join (cf_cache_dir self) "downloads" := Dir]> (fs w)
          ∧ log w1 = log w) as [Hfs1 Hlog1].
  { unfold os_makedirs in Hmk. repeat case_match; by simplify_eq/=. }
  destruct (py_path_join (os_path_join (cf_cache_dir self) "downloads") file)
    as [path|e] eqn:Hpath.
  2:{ rewrite (py_path_join_raises _ _ _ Hpath). simpl. left.
      rewrite Hfs1, Hlog1. eauto. }
  destruct (requests_get url (headers self) [] w1) as [[resp|e] w2] eqn:Hget.
  2:{ rewrite (requests_get_raises _ _ _ _ _ _ Hget). simpl. left.
      unfold requests_get in Hget. repeat case_match; simplify_eq/=;
        rewrite Hfs1, Hlog1; eauto. }
  assert (fs w2 = fs w1 ∧ log w2 = log w1) as [Hfs2 Hlog2].
  { unfold requests_get in Hget. repeat case_match; by simplify_eq/=. }
  destruct (raise_for_status resp w2) as [[[]|e] w3] eqn:Hst.
  2:{ rewrite (raise_for_status_raises _ _ _ _ Hst). simpl. left.
      unfold raise_for_status, py_raise, py_ret in Hst.
      case_match; simplify_eq/=. rewrite Hfs2, Hfs1, Hlog2, Hlog1. eauto. }
  assert (w3 = w2) as ->.
  { unfold raise_for_status, py_raise, py_ret in Hst. by case_match; simplify_eq/=. }
  destruct (write_file path (content resp) w2) as [[[]|e] w4] eqn:Hwr.
  2:{ rewrite (write_file_raises _ _ _ _ _ Hwr). simpl. left.
      unfold write_file in Hwr. repeat case_match; simplify_eq/=;
        rewrite Hfs2, Hfs1, Hlog2, Hlog1; eauto. }
  right. destruct file as [| | |file| |]; simplify_eq/=.
  exists file, resp. unfold download_path_of.
  unfold write_file in Hwr. repeat case_match; simplify_eq/=;
    rewrite Hfs2, Hfs1, Hlog2, Hlog1; eauto.
Qed.

(** X3.  [download_mod] either fails: it returns [None], writes one error to
    the log, and has changed nothing in the file system but, at most, made
    the downloads directory; or it succeeds: it returns the path of the
    file, logs nothing, and has made the directory and written the body of
    the answer at that path. *)
Theorem download_mod_effect self m info w :
  let r := CurseForgeRepository_download_mod self m info w in
  (r.1 = Return VNone
   ∧ (fs r.2 = fs w ∨ fs r.2 = <[downloads_dir self := Dir]> (fs w))
   ∧ ∃ name, log r.2 = log w ++ [("CurseForgeRepository",
               "Failed to download mod " +:+ m +:+ ": " +:+ name)])
  ∨ (∃ file resp,
       py_getitem_str info "fileName" = Return (VStr file)
       ∧ r.1 = Return (VStr (download_path_of self file))
       ∧ fs r.2 = <[download_path_of self file := File (content resp)]>
                    (<[downloads_dir self := Dir]> (fs w))
       ∧ log r.2 = log w).
Proof. exact (download_mod_post self m info w). Qed.

(** [download_mod] removes nothing: what was in the file system still is
    there, as a file or as a directory. *)
Lemma download_mod_keeps self m info w p :
  is_Some (fs w !! p) →
  is_Some (fs (CurseForgeRepository_download_mod self m info w).2 !! p).
Proof.
  intros Hp.
  destruct (download_mod_post self m info w)
    as [(_ & [->| ->] & _)|(file & resp & _ & _ & -> & _)];
    rewrite ?lookup_insert_is_Some'; eauto.
Qed.

(** X4.  A version without [downloadUrl] or without [fileName] is refused
    before anything is done: no directory is made and no request is sent;
    the refusal is logged and [None] returned. *)
Theorem download_mod_missing_key self m info w :
  (∃ e, py_getitem_str info "downloadUrl" = Raise e)
  ∨ (∃ e, py_getitem_str info "fileName" = Raise e) →
  ∃ name,
    CurseForgeRepository_download_mod self m info w
    = (Return VNone,
       add_log "CurseForgeRepository"
         ("Failed to download mod " +:+ m +:+ ": " +:+ name) w).
Proof.
  unfold CurseForgeRepository_download_mod, try_except, py_bind, py_lift,
    py_ret, logger_error.
  intros [[e He]|[e He]].
  - rewrite He, (py_getitem_str_raises _ _ _ He). simpl. eauto.
  - destruct (py_getitem_str info "downloadUrl") as [url|e'] eqn:Hurl.
    + rewrite He, (py_getitem_str_raises _ _ _ He). simpl. eauto.
    + rewrite (py_getitem_str_raises _ _ _ Hurl). simpl. eauto.
Qed.

Lemma download_mod_missing_key_witness :
  ∃ name,
    CurseForgeRepository_download_mod demo_curseforge "p1"
      (VDict [("fileName", VStr "mod.jar")]) demo_world
    = (Return VNone,
       add_log "CurseForgeRepository"
         ("Failed to download mod p1: " +:+ name) demo_world).
Proof.
  apply (download_mod_missing_key demo_curseforge "p1"
           (VDict [("fileName", VStr "mod.jar")]) demo_world).
  left. eexists. reflexivity.
Defined.

(** X5.  The file name of a version is not confined to the downloads
    directory: a relative name is appended to the directory, an absolute
    name is the path itself, and that is where a successful download
    writes. *)
Theorem download_mod_absolute_name self m info w p w' file :
  CurseForgeRepository_download_mod self m info w = (Return p, w') →
  truthy p = true →
  py_getitem_str info "fileName" = Return (VStr file) →
  (startswith_sep file = true → p = VStr file ∧ is_Some (fs w' !! file))
  ∧ (startswith_sep file = false →
     ∃ sep, (sep = "" ∨ sep = "/")
            ∧ p = VStr (downloads_dir self +:+ sep +:+ file)).
Proof.
  intros Hdl Hp Hfile.
  apply CurseForgeRepository_download_mod_Return in Hdl
    as (url & file' & resp & _ & Hfile' & _ & -> & Hfs); [|done].
  rewrite Hfile in Hfile'. simplify_eq.
  unfold download_path_of, os_path_join in *. fold (downloads_dir self) in *.
  split; intros Hs; rewrite Hs in *.
  - eauto.
  - fold (os_path_join (cf_cache_dir self) "downloads"). fold (downloads_dir self).
    destruct (String.eqb (downloads_dir self) "" || endswith_sep (downloads_dir self)).
    + exists "". split; [by left|done].
    + exists "/". split; [by right|done].
Qed.

Lemma download_mod_absolute_name_witness :
  (CurseForgeRepository_download_mod demo_curseforge "p1"
     (demo_version "https://cdn/p1" "/tmp/mod.jar") demo_world).1
  = Return (VStr "/tmp/mod.jar")
  ∧ is_Some (fs (CurseForgeRepository_download_mod demo_curseforge "p1"
                   (demo_version "https://cdn/p1" "/tmp/mod.jar") demo_world).2
             !! "/tmp/mod.jar").
Proof.
  destruct (download_mod_absolute_name demo_curseforge "p1"
              (demo_version "https://cdn/p1" "/tmp/mod.jar") demo_world
              (VStr "/tmp/mod.jar")
              (CurseForgeRepository_download_mod demo_curseforge "p1"
                 (demo_version "https://cdn/p1" "/tmp/mod.jar") demo_world).2
              "/tmp/mod.jar") as [Habs _];
    [vm_compute; reflexivity|reflexivity|reflexivity|].
  destruct (Habs eq_refl) as [_ Hfs]. split; [vm_compute; reflexivity|exact Hfs].
Defined.

(** ** The constructors *)

(** [os.makedirs(p, exist_ok=True)] when the system does not refuse the
    call: it makes [p] a directory, unless a file is there. *)
Lemma os_makedirs_allowed p w :
  os_denies w (clock w) p = false →
  os_makedirs p w =
  match fs w !! p with
  | Some (File _) => (Raise (Exn true "FileExistsError"), tick w)
  | _ => (Return tt, set_fs (insert p Dir) (tick w))
  end.
Proof. intros Hok. unfold os_makedirs. by rewrite Hok. Qed.

Lemma string_app_self (s t : string) : s +:+ t = s → t = "".
Proof. induction s as [|c s IH]; simpl; [done|]. intros [= H]. auto. Qed.

(** Joining a relative name to a directory gives another path. *)
Lemma os_path_join_relative_ne d f :
  startswith_sep f = false → f ≠ "" → os_path_join d f ≠ d.
Proof.
  intros Hs Hf Heq. unfold os_path_join in Heq. rewrite Hs in Heq.
  destruct (String.eqb d "" || endswith_sep d).
  - by apply string_app_self in Heq.
  - apply string_app_self in Heq. destruct f; discriminate.
Qed.





(** ** [ModSyncer._sync_single_mod] *)

(** X8.  The method returns a dict exactly when the lookup returned a truthy
    version and the download of that version returned a truthy path; the
    dict then holds the mod, that version and that path. *)
Theorem _sync_single_mod_Some self m repo w d w' :
  _sync_single_mod self m repo w = (Return (Some d), w') ↔
  ∃ v w1 p,
    get_latest_version repo m (minecraft_version self) w = (Return v, w1)
    ∧ truthy v = true
    ∧ download_mod repo m v w1 = (Return p, w')
    ∧ truthy p = true
    ∧ d = {| mod_id := m; version := v; download_path := p |}.
Proof.
  unfold _sync_single_mod, try_except, py_bind, py_ret, sync_failed, logger_error.
  split.
  - destruct (get_latest_version repo m (minecraft_version self) w)
      as [[v|e] w1] eqn:Hv; [|destruct (exn_is_Exception e); intros; simplify_eq/=].
    destruct (truthy v) eqn:Htv; simpl; [|intros; simplify_eq].
    destruct (download_mod repo m v w1) as [[p|e] w2] eqn:Hp;
      [|destruct (exn_is_Exception e); intros; simplify_eq/=].
    destruct (truthy p) eqn:Htp; simpl; intros; simplify_eq.
    eauto 10.
  - intros (v & w1 & p & -> & -> & Hp & Htp & ->). simpl. by rewrite Hp, Htp.
Qed.

Lemma _sync_single_mod_Some_witness :
  ∃ d w',
    _sync_single_mod (demo_syncer []) "p1" (as_ModRepository demo_curseforge) demo_world
    = (Return (Some d), w')
    ∧ mod_id d = "p1".
Proof.
  eexists _, _. split.
  - apply (proj2 (_sync_single_mod_Some (demo_syncer []) "p1"
                    (as_ModRepository demo_curseforge) demo_world _ _)).
    eexists _, _, _. split_and!; [vm_compute; reflexivity|reflexivity
      |vm_compute; reflexivity|reflexivity|reflexivity].
  - reflexivity.
Defined.

(** X9.  When the lookup fails the download is not attempted: the method
    returns [None] and does the same as with any other repository that has
    the same lookup. *)
Theorem _sync_single_mod_no_download self m repo repo' w :
  get_latest_version repo = get_latest_version repo' →
  resolve_fault self m repo w →
  _sync_single_mod self m repo w = _sync_single_mod self m repo' w
  ∧ (_sync_single_mod self m repo w).1 = Return None.
Proof.
  intros Heq Hfault.
  unfold _sync_single_mod, try_except, py_bind, py_ret, sync_failed, logger_error.
  rewrite <-Heq.
  destruct Hfault as [(v & w1 & -> & ->)|(e & w1 & -> & ->)]; by simpl.
Qed.

Lemma _sync_single_mod_no_download_witness :
  _sync_single_mod (demo_syncer []) "p2" (as_ModRepository demo_curseforge) demo_world
  = _sync_single_mod (demo_syncer []) "p2"
      {| class_name := "Other"; cache_dir := ""; cache_file := "";
         get_latest_version := CurseForgeRepository_get_latest_version demo_curseforge;
         download_mod := λ _ _, py_raise (Exn false "SystemExit") |}
      demo_world.
Proof.
  apply (_sync_single_mod_no_download (demo_syncer []) "p2"
           (as_ModRepository demo_curseforge)
           {| class_name := "Other"; cache_dir := ""; cache_file := "";
              get_latest_version :=
                CurseForgeRepository_get_latest_version demo_curseforge;
              download_mod := λ _ _, py_raise (Exn false "SystemExit") |}
           demo_world); [reflexivity|].
  left. eexists _, _. split; reflexivity.
Defined.

(** ** The order of the report *)

(** The futures [as_completed] has yielded, as the trace shows them. *)
Definition yields (tr : list event) : list nat :=
  omap (λ e, match e with EvYield i => Some i | _ => None end) tr.

Lemma yields_snoc tr e :
  yields (tr ++ [e]) = yields tr ++ match e with EvYield i => [i] | _ => [] end.
Proof. unfold yields. rewrite omap_app. by destruct e. Qed.

Lemma yields_run self mod_list sched w :
  yields (trace (run self mod_list sched (initial w)))
  = yielded (run self mod_list sched (initial w)).
Proof.
  apply (run_invariant self mod_list (λ st, yields (trace st) = yielded st));
    [|done].
  intros a st st' Hy Hstep. destruct a; step_cases Hstep;
    rewrite ?yields_snoc, ?app_nil_r; congruence.
Qed.

(** X10.  The entries of the report are in the order in which [as_completed]
    yielded the futures, whatever the order of the mods in the list:
    [updated_mods] holds the dicts of the futures that have one, in that
    order, and [failed_mods] the mods of the others, in that order. *)
Theorem report_in_completion_order self mod_list sched w r w' :
  sync_mods self mod_list sched w = Some (Return r, w') →
  let st := run self mod_list sched (initial w) in
  updated_mods r = omap (synced_of (results st)) (yields (trace st))
  ∧ failed_mods r = omap (failed_of self mod_list (results st)) (yields (trace st))
  ∧ yields (trace st) ≡ₚ seq 0 (length (attempts self mod_list)).
Proof.
  intros [Hpc _]%sync_mods_Returned st. subst st.
  destruct (sync_ok_run self mod_list sched w) as (Hinv & _ & Hex & _).
  pose proof (yielded_all _ _ _ _ Hinv Hpc) as Hy.
  pose proof (inv_returned _ _ _ Hinv) as Hret.
  unfold report_exact in Hex. rewrite Hpc in Hret, Hex.
  destruct Hret as (-> & _). destruct Hex as [-> ->].
  by rewrite yields_run.
Qed.

Lemma report_in_completion_order_witness :
  ∃ r,
    fst <$> sync_mods (demo_syncer [as_ModRepository demo_curseforge]) ["p1"; "p4"]
              [Submit; Submit; Take 0; Take 1; Work 1; Work 0; Work 1; Work 0;
               Yield 1; Yield 0; Finish] demo_world
    = Some (Return r)
    ∧ mod_id <$> updated_mods r = ["p4"; "p1"].
Proof.
  destruct (sync_mods (demo_syncer [as_ModRepository demo_curseforge]) ["p1"; "p4"]
              [Submit; Submit; Take 0; Take 1; Work 1; Work 0; Work 1; Work 0;
               Yield 1; Yield 0; Finish] demo_world)
    as [[[r|e] w']|] eqn:Hsync;
    [|vm_compute in Hsync; discriminate..].
  exists r. split; [reflexivity|].
  rewrite (proj1 (report_in_completion_order _ _ _ _ _ _ Hsync)).
  vm_compute. reflexivity.
Defined.

(** ** What a synchronisation does to the file system *)

Section Files.
Context (self : ModSyncer) (mod_list : list string).
Context (cfs : list CurseForgeRepository).
Hypothesis Hrepos : repositories self = as_ModRepository <$> cfs.

(** A path a repository of the syncer may write: its downloads directory
    or a file it downloads. *)
Definition download_place (p : string) : Prop :=
  ∃ cf, cf ∈ cfs ∧ (p = downloads_dir cf ∨ ∃ file, p = download_path_of cf file).

(** Nothing has been removed, and what has changed is a place of
    downloads. *)
Definition files_kept (w : world) (st : state) : Prop :=
  ∀ p, (is_Some (fs w !! p) → is_Some (fs (world_of st) !! p))
       ∧ (fs (world_of st) !! p = fs w !! p ∨ download_place p).

Lemma attempts_curseforge i m repo :
  attempts self mod_list !! i = Some (m, repo) →
  ∃ cf, cf ∈ cfs ∧ repo = as_ModRepository cf.
Proof.
  intros [_ Hr]%list_elem_of_lookup_2%elem_of_attempts.
  rewrite Hrepos in Hr. apply list_elem_of_fmap in Hr as (cf & -> & Hcf). eauto.
Qed.

Lemma files_kept_same_fs w st st' :
  fs (world_of st') = fs (world_of st) → files_kept w st → files_kept w st'.
Proof. intros Heq Hk p. rewrite Heq. apply Hk. Qed.

Lemma resolve_fs cf m w :
  fs (_sync_single_mod_resolve self m (as_ModRepository cf) w).2 = fs w.
Proof.
  unfold _sync_single_mod_resolve, try_except, py_bind, py_ret, sync_failed,
    logger_error. simpl.
  destruct (get_latest_version_post cf m (minecraft_version self) w)
    as [(Hfs & _) _].
  destruct (CurseForgeRepository_get_latest_version cf m (minecraft_version self) w)
    as [[v|e] w1]; simpl in *.
  - by destruct (truthy v).
  - by destruct (exn_is_Exception e).
Qed.

Lemma fetch_fs cf m v w p :
  let w' := (_sync_single_mod_fetch self m (as_ModRepository cf) v w).2 in
  (is_Some (fs w !! p) → is_Some (fs w' !! p))
  ∧ (fs w' !! p = fs w !! p
     ∨ p = downloads_dir cf ∨ ∃ file, p = download_path_of cf file).
Proof.
  unfold _sync_single_mod_fetch, try_except, py_bind, py_ret, sync_failed,
    logger_error. simpl.
  pose proof (download_mod_keeps cf m v w p) as Hkeep.
  pose proof (download_mod_post cf m v w) as Heff. cbv zeta in Heff.
  destruct (CurseForgeRepository_download_mod cf m v w) as [[x|e] w1]; simpl in *.
  - assert (fs w1 !! p = fs w !! p
            ∨ p = downloads_dir cf ∨ ∃ file, p = download_path_of cf file) as Hp.
    { destruct Heff as [(_ & [->| ->] & _)|(file & resp & _ & _ & -> & _)].
      - by left.
      - destruct (decide (p = downloads_dir cf)); [by eauto|].
        left. by rewrite lookup_insert_ne.
      - destruct (decide (p = download_path_of cf file)); [by eauto|].
        destruct (decide (p = downloads_dir cf)); [by eauto|].
        left. by rewrite !lookup_insert_ne. }
    by destruct (truthy x).
  - destruct Heff as [(? & _)|(? & ? & _ & ? & _)]; simplify_eq.
Qed.

Lemma files_kept_step w a st st' :
  files_kept w st → step self mod_list a st = Some st' → files_kept w st'.
Proof.
  intros Hk Hstep. destruct a.
  - step_cases Hstep; by eapply files_kept_same_fs.
  - step_cases Hstep; by eapply files_kept_same_fs.
  - unfold step in Hstep.
    destruct (threads st !! t) as [[|i ph]|] eqn:Ht; try done.
    destruct (attempts self mod_list !! i) as [[m repo]|] eqn:Hi; try done.
    destruct (attempts_curseforge _ _ _ Hi) as (cf & Hcf & ->).
    destruct ph as [|v].
    + pose proof (resolve_fs cf m (world_of st)) as Hfs.
      destruct (_sync_single_mod_resolve self m (as_ModRepository cf) (world_of st))
        as [[[v|r]|e] w1]; simplify_eq/=; by eapply files_kept_same_fs.
    + intros p. pose proof (fetch_fs cf m v (world_of st) p) as Hfs.
      destruct (_sync_single_mod_fetch self m (as_ModRepository cf) v (world_of st))
        as [o w1]; simplify_eq/=.
      destruct (Hk p) as [Hk1 Hk2], Hfs as [Hf1 Hf2]. split; [by auto|].
      destruct Hf2 as [->|Hplace]; [done|]. right. by exists cf.
  - unfold step in Hstep.
    destruct (pc st) eqn:Hpc; try done.
    destruct (results st !! i) as [o|] eqn:Hr; try done.
    destruct (attempts self mod_list !! i) as [[m repo]|] eqn:Hi; try done.
    case_decide; try done.
    assert (fs (collect m o (cur_report st) (world_of st)).2 = fs (world_of st)) as Hfs.
    { unfold collect, try_except, py_bind, py_lift, py_ret, logger_error.
      destruct o as [[d|]|e]; simpl; try done. by destruct (exn_is_Exception e). }
    destruct (collect m o (cur_report st) (world_of st)) as [[r|e] w1];
      simplify_eq/=; by eapply files_kept_same_fs.
  - step_cases Hstep; by eapply files_kept_same_fs.
  - step_cases Hstep; by eapply files_kept_same_fs.
Qed.

End Files.

(** X11.  A synchronisation on [CurseForgeRepository] instances removes nothing
    from the file system, at any point of any run, and the paths whose
    content it changes are downloads directories and download paths of its
    repositories. *)
Theorem sync_mods_keeps_files self mod_list cfs sched w p :
  repositories self = as_ModRepository <$> cfs →
  let w' := world_of (run self mod_list sched (initial w)) in
  (is_Some (fs w !! p) → is_Some (fs w' !! p))
  ∧ (fs w' !! p = fs w !! p ∨ download_place cfs p).
Proof.
  intros Hrepos.
  apply (run_invariant self mod_list (files_kept cfs w)).
  - intros a st st'. by apply files_kept_step.
  - intros q. split; [done|by left].
Qed.

Lemma sync_mods_keeps_files_witness :
  let w' := world_of (run (demo_syncer [as_ModRepository demo_curseforge])
                        ["p1"; "p2"] (sequential_schedule 2) (initial demo_world)) in
  fs w' !! "./mods/other.jar" = fs demo_world !! "./mods/other.jar"
  ∨ download_place [demo_curseforge] "./mods/other.jar".
Proof.
  apply (sync_mods_keeps_files (demo_syncer [as_ModRepository demo_curseforge])
           ["p1"; "p2"] [demo_curseforge] (sequential_schedule 2) demo_world
           "./mods/other.jar").
  reflexivity.
Defined.

(** ** [main] of [ModSyncer.py] *)

(** What [main] leaves: its result, the world, and the lines it has
    printed.  [logging.basicConfig] sets the format of the log and has no
    part here; [logging.error] writes to the root logger. *)
Definition main_failed (e : exn) (w : world) (out : list string)
    : option (outcome unit * world * list string) :=
  if exn_is_Exception e
  then Some (Return tt,
             add_log "root" ("ModSyncer execution failed: " +:+ exn_name e) w,
             out)
  else Some (Raise e, w, out).

(** [main()], the call of [sync_mods] under a schedule; [None] when the
    schedule ends before the call does. *)
Definition main (sched : list action) (w : world)
    : option (outcome unit * world * list string) :=
  match CurseForgeRepository_init "YOUR_CURSEFORGE_API_KEY" "./mod_cache" w with
  | (Raise e, w1) => main_failed e w1 []
  | (Return curseforge_repo, w1) =>
      match ModSyncer_init "./mods" "1.19.2"
              (Some [as_ModRepository curseforge_repo]) w1 with
      | (Raise e, w2) => main_failed e w2 []
      | (Return syncer, w2) =>
          let mods_to_sync := ["324006"; "238222"] in
          match sync_mods syncer mods_to_sync sched w2 with
          | None => None
          | Some (Raise e, w3) => main_failed e w3 []
          | Some (Return sync_report, w3) =>
              Some (Return tt, w3,
                    ["Mod Synchronization Report:";
                     "Updated Mods: " +:+ pretty (length (updated_mods sync_report));
                     "Failed Mods: " +:+ pretty (length (failed_mods sync_report));
                     "Detected Conflicts: " +:+ pretty (length (conflicts sync_report))])
          end
      end
  end.

Lemma CurseForgeRepository_init_raises key root :
  raises_Exception (CurseForgeRepository_init key root).
Proof.
  unfold CurseForgeRepository_init, ModRepository_init. raises_auto.
Qed.

Lemma ModSyncer_init_raises d v repos :
  raises_Exception (ModSyncer_init d v repos).
Proof. unfold ModSyncer_init. raises_auto. Qed.

Lemma ModSyncer_init_repositories d v repos w self w' :
  ModSyncer_init d v repos w = (Return self, w') →
  repositories self = from_option id [] repos.
Proof.
  unfold ModSyncer_init, py_bind, py_ret.
  destruct (os_makedirs d w) as [[[]|e] w1]; intros; by simplify_eq.
Qed.

(** X12.  [main] never raises.  Either a constructor failed: the failure is
    logged and nothing is printed; or the report is printed: the counts of
    updated and failed mods add up to the two mods asked for, and no
    conflict is counted. *)
Theorem main_prints sched w res w' out :
  main sched w = Some (res, w', out) →
  res = Return tt
  ∧ ((out = [] ∧ ∃ name,
        last (log w') = Some ("root", "ModSyncer execution failed: " +:+ name))
     ∨ ∃ updated failed,
         updated + failed = 2
         ∧ out = ["Mod Synchronization Report:";
                  "Updated Mods: " +:+ pretty updated;
                  "Failed Mods: " +:+ pretty failed;
                  "Detected Conflicts: 0"]).
Proof.
  unfold main, main_failed.
  destruct (CurseForgeRepository_init _ _ w) as [[repo|e] w1] eqn:Hrepo.
  2:{ rewrite (CurseForgeRepository_init_raises _ _ _ _ _ Hrepo).
      intros [= <- <- <-]. split; [done|left]. split; [done|]. simpl.
      exists (exn_name e). apply last_snoc. }
  destruct (ModSyncer_init _ _ _ w1) as [[syncer|e] w2] eqn:Hsyncer.
  2:{ rewrite (ModSyncer_init_raises _ _ _ _ _ _ Hsyncer).
      intros [= <- <- <-]. split; [done|left]. split; [done|]. simpl.
      exists (exn_name e). apply last_snoc. }
  apply ModSyncer_init_repositories in Hsyncer as Hrepos. simpl in Hrepos.
  destruct (sync_mods syncer ["324006"; "238222"] sched w2)
    as [[[r|e] w3]|] eqn:Hsync; [| |done].
  2:{ exfalso. eapply (sync_mods_no_Raise syncer); [|exact Hsync].
      rewrite Hrepos.
      apply Forall_singleton, CurseForgeRepository_raises_only_Exception. }
  intros [= <- <- <-]. split; [done|right].
  apply sync_mods_Returned in Hsync as [Hpc _].
  destruct (sync_ok_run syncer ["324006"; "238222"] sched w2) as (Hinv & _).
  pose proof (reported_returned _ _ _ _ Hinv Hpc) as Hrep.
  apply Permutation_length in Hrep.
  rewrite length_fmap, attempts_length, Hrepos in Hrep.
  unfold reported in Hrep. rewrite length_app, length_fmap in Hrep. simpl in Hrep.
  pose proof (inv_returned _ _ _ Hinv) as Hret. rewrite Hpc in Hret.
  destruct Hret as (-> & _). rewrite (inv_conflicts _ _ _ Hinv).
  eexists _, _. split; [exact Hrep|].
  change (pretty (length (@nil val))) with "0". reflexivity.
Qed.

(** Under the sequential schedule [main] ends. *)
Lemma main_completes w :
  is_Some (main (sequential_schedule 2) w).
Proof.
  unfold main, main_failed.
  destruct (CurseForgeRepository_init _ _ w) as [[repo|e] w1];
    [|destruct (exn_is_Exception e); exact (mk_is_Some _ _ eq_refl)].
  destruct (ModSyncer_init _ _ _ w1) as [[syncer|e] w2] eqn:Hsyncer;
    [|destruct (exn_is_Exception e); exact (mk_is_Some _ _ eq_refl)].
  apply ModSyncer_init_repositories in Hsyncer as Hrepos.
  pose proof (sequential_schedule_completes syncer ["324006"; "238222"] w2) as Hc.
  rewrite attempts_length, Hrepos in Hc.
  change (length ["324006"; "238222"]
          * length (from_option id [] (Some [as_ModRepository repo])))
    with 2 in Hc.
  unfold sync_mods. cbv zeta.
  destruct Hc as [[r ->]|[e ->]]; [exact (mk_is_Some _ _ eq_refl)|].
  destruct (exn_is_Exception e); exact (mk_is_Some _ _ eq_refl).
Qed.

Lemma main_prints_witness :
  (λ x, (x.1.1, x.2)) <$> main (sequential_schedule 2) demo_world
  = Some (Return tt,
          ["Mod Synchronization Report:"; "Updated Mods: 0"; "Failed Mods: 2";
           "Detected Conflicts: 0"]).
Proof.
  destruct (main (sequential_schedule 2) demo_world) as [[[res w'] out]|] eqn:Hmain;
    [|vm_compute in Hmain; discriminate].
  destruct (main_prints _ _ _ _ _ Hmain) as [-> _].
  vm_compute in Hmain. injection Hmain as _ <-. reflexivity.
Defined.

(** * [ServerWizard.py] *)

Module Wizard.

(** ** More of Python *)

Definition ascii_upper (c : ascii) : ascii :=
  let n := nat_of_ascii c in
  if (97 <=? n) && (n <=? 122) then ascii_of_nat (n - 32) else c.

(** [str.capitalize()] on ASCII text. *)
Definition capitalize (s : string) : string :=
  match s with
  | "" => ""
  | String c s' => String (ascii_upper c) (lower s')
  end.




(** [a == b].  [True] and [False] are the integers 1 and 0; a dict
    equals a dict with the same keys and equal values, in any order. *)
Fixpoint py_eq (a b : val) : bool :=
  match a, b with
  | VNone, VNone => true
  | VBool x, VBool y => Bool.eqb x y
  | VBool x, VInt y => Z.eqb (if x then 1 else 0) y
  | VInt x, VBool y => Z.eqb x (if y then 1 else 0)
  | VInt x, VInt y => Z.eqb x y
  | VStr x, VStr y => String.eqb x y
  | VList l1, VList l2 =>
      (fix go (l1 l2 : list val) : bool :=
         match l1, l2 with
         | [], [] => true
         | x :: l1', y :: l2' => py_eq x y && go l1' l2'
         | _, _ => false
         end) l1 l2
  | VDict d1, VDict d2 =>
      Nat.eqb (length d1) (length d2)
      && (fix go (d : list (string * val)) : bool :=
            match d with
            | [] => true
            | (k, x) :: d' =>
                match assoc k d2 with
                | Some y => py_eq x y
                | None => false
                end && go d'
            end) d1
  | _, _ => false
  end.

(** [for x in v]: the elements of a list, the keys of a dict, the
    characters of a string. *)
Definition py_iter (v : val) : outcome (list val) :=
  match v with
  | VList l => Return l
  | VDict d => Return ((λ kv, VStr kv.1) <$> d)
  | VStr s => Return ((λ c, VStr (String c "")) <$> String.list_ascii_of_string s)
  | _ => Raise (Exn true "TypeError")
  end.

(** [v[-1]]. *)
Definition py_getitem_last (v : val) : outcome val :=
  match v with
  | VList l =>
      match last l with
      | Some x => Return x
      | None => Raise (Exn true "IndexError")
      end
  | VStr s =>
      match last (String.list_ascii_of_string s) with
      | Some c => Return (VStr (String c ""))
      | None => Raise (Exn true "IndexError")
      end
  | VDict _ => Raise (Exn true "KeyError")
  | _ => Raise (Exn true "TypeError")
  end.

(** ** The machine the wizard runs on *)

Record machine : Type := Machine {
  m_world : world;
  m_cwd : string;                     (* os.getcwd() *)
  m_stdin : list string;              (* the lines input() is still to read *)
  m_stdout : list string;             (* what print and input have written *)
  m_modes : gmap string Z             (* the modes os.chmod has set *)
}.

(** A computation on a state [S] that returns or raises. *)
Definition sio (S A : Type) : Type := S → outcome A * S.

Definition sio_ret {S A} (a : A) : sio S A := λ s, (Return a, s).
Definition sio_raise {S A} (e : exn) : sio S A := λ s, (Raise e, s).
Definition sio_bind {S A B} (c : sio S A) (k : A → sio S B) : sio S B :=
  λ s, match c s with
       | (Return a, s') => k a s'
       | (Raise e, s') => (Raise e, s')
       end.
Definition sio_lift {S A} (o : outcome A) : sio S A := λ s, (o, s).

Notation "x ←s c ;; k" := (sio_bind c (λ x, k))
  (at level 100, c at next level, right associativity,
   format "x  ←s  c ;;  '/' k").
Notation "c ;;s k" := (sio_bind c (λ _, k))
  (at level 100, right associativity).

(** [try: body except Exception as e: handler(e)]. *)
Definition sio_try_except {S A} (body : sio S A) (handler : exn → sio S A)
    : sio S A :=
  λ s, match body s with
       | (Return a, s') => (Return a, s')
       | (Raise e, s') =>
           if exn_is_Exception e then handler e s' else (Raise e, s')
       end.

Definition io (A : Type) : Type := sio machine A.

Definition set_world (w : world) (m : machine) : machine :=
  Machine w (m_cwd m) (m_stdin m) (m_stdout m) (m_modes m).

(** A computation on the world, run on the machine. *)
Definition on_world {A} (c : py A) : io A :=
  λ m, let r := c (m_world m) in (r.1, set_world r.2 m).

(** [print(s)]. *)
Definition print (s : string) : io unit :=
  λ m, (Return tt,
        Machine (m_world m) (m_cwd m) (m_stdin m) (m_stdout m ++ [s]) (m_modes m)).

(** [input(prompt)]: the prompt is written, a line is read; at the end of
    the input [EOFError] is raised. *)
Definition input (prompt : string) : io string :=
  λ m, match m_stdin m with
       | [] =>
           (Raise (Exn true "EOFError"),
            Machine (m_world m) (m_cwd m) [] (m_stdout m ++ [prompt]) (m_modes m))
       | line :: rest =>
           (Return line,
            Machine (m_world m) (m_cwd m) rest (m_stdout m ++ [prompt]) (m_modes m))
       end.

Definition os_getcwd : io string := λ m, (Return (m_cwd m), m).

(** [open(p, 'w')] or [open(p, 'wb')]: the file is made, or emptied. *)
Definition open_w (p : string) : io unit := on_world (write_file p []).

(** [f.write(data)] on the file opened at [p]. *)
Definition f_write (p : string) (data : list Byte.byte) : io unit :=
  on_world (λ w,
    (Return tt,
     set_fs (λ f, match f !! p with
                  | Some (File c) => <[p := File (c ++ data)]> f
                  | _ => f
                  end) w)).

(** The bytes of a text, POSIX line ends. *)
Definition encode (s : string) : list Byte.byte := String.list_byte_of_string s.

(** [os.chmod(p, mode)]. *)
Definition os_chmod (p : string) (mode : Z) : io unit :=
  λ m, let w := m_world m in
       let m1 := set_world (tick w) m in
       if os_denies w (clock w) p then (Raise (Exn true "PermissionError"), m1)
       else match fs w !! p with
            | None => (Raise (Exn true "FileNotFoundError"), m1)
            | Some _ =>
                (Return tt,
                 Machine (tick w) (m_cwd m) (m_stdin m) (m_stdout m)
                         (<[p := mode]> (m_modes m)))
            end.

(** [os.path.join(a, b)] when [a] may be [None]. *)
Definition join_opt (a : option string) (b : string) : outcome string :=
  match a with
  | Some d => Return (os_path_join d b)
  | None => Raise (Exn true "TypeError")
  end.

(** [for x in l: body(x)]. *)
Definition sio_for {S A} (l : list A) (body : A → sio S unit) : sio S unit :=
  foldr (λ x k, body x ;;s k) (sio_ret tt) l.

(** [while True: line = input(prompt); ...]: [body] gives [Some a] to
    leave the loop with [a] and [None] to go round again.  Every round
    reads a line, so the loop takes no more rounds than there are lines to
    read; [fuel] counts them, and when it is used up [input] has found the
    end of the input. *)
Fixpoint input_loop {A} (prompt : string) (body : string → io (option A))
    (fuel : nat) : io A :=
  line ←s input prompt ;;
  r ←s body line ;;
  match r with
  | Some a => sio_ret a
  | None =>
      match fuel with
      | 0 => sio_raise (Exn true "EOFError")
      | S fuel' => input_loop prompt body fuel'
      end
  end.

Definition while_input {A} (prompt : string) (body : string → io (option A)) : io A :=
  λ m, input_loop prompt body (length (m_stdin m)) m.

(** [template.format(a, b, ...)] for a template whose fields are all [{}]. *)
Fixpoint format (template : string) (args : list string) : string :=
  match template with
  | String "{" (String "}" rest) =>
      match args with
      | a :: args' => a +:+ format rest args'
      | [] => format rest []
      end
  | String c rest => String c (format rest args)
  | "" => ""
  end.

Definition nl : string := String (ascii_of_nat 10) "".

(** ** The class *)

Definition SERVER_TYPES : list (string * list (string * string)) :=
  [("vanilla",
    [("base_url", "https://piston-data.mojang.com/v1/objects/{}/server.jar");
     ("version_manifest_url",
      "https://piston-meta.mojang.com/mc/game/version_manifest.json")]);
   ("paper",
    [("base_url",
      "https://papermc.io/api/v2/projects/paper/versions/{}/builds/{}/downloads/{}");
     ("api_url", "https://papermc.io/api/v2/projects/paper/versions/{}")]);
   ("forge",
    [("base_url",
      "https://maven.minecraftforge.net/net/minecraftforge/forge/{}/forge-{}-installer.jar");
     ("version_url", "https://files.minecraftforge.net/net/minecraftforge/forge/")]);
   ("fabric",
    [("base_url", "https://meta.fabricmc.net/v2/versions/loader/{}/{}/server/jar")])].

(** [SERVER_TYPES[t][k]] for keys that are there. *)
Definition server_url (t k : string) : string :=
  from_option id ""
    (urls ← list_to_map (M := gmap string (list (string * string))) SERVER_TYPES !! t;
     list_to_map (M := gmap string string) urls !! k).

Record ServerWizard : Type := {
  server_type : string;
  version : val;
  server_dir : option string
}.

(** [ServerWizard(server_type, version)]. *)
Definition ServerWizard_init (type : string) (version : val) : outcome ServerWizard :=
  let self := {| server_type := lower type; version := version; server_dir := None |} in
  if bool_decide (server_type self ∈ SERVER_TYPES.*1) then Return self
  else Raise (Exn true "ValueError").

(** A method: it acts on the object and on the machine. *)
Definition wio (A : Type) : Type := sio (ServerWizard * machine) A.

Definition on_machine {A} (c : io A) : wio A :=
  λ s, let r := c s.2 in (r.1, (s.1, r.2)).
Definition get_self : wio ServerWizard := λ s, (Return s.1, s).
Definition set_version (v : val) : wio unit :=
  λ s, (Return tt,
        ({| server_type := server_type s.1; version := v;
            server_dir := server_dir s.1 |}, s.2)).
Definition set_server_dir (d : option string) : wio unit :=
  λ s, (Return tt,
        ({| server_type := server_type s.1; version := version s.1;
            server_dir := d |}, s.2)).

Definition subdirs : list string := ["world"; "plugins"; "mods"; "config"; "logs"].

Definition _create_server_directory : wio string :=
  self ←s get_self ;;
  cwd ←s on_machine os_getcwd ;;
  let base_dir := os_path_join cwd ("minecraft_" +:+ server_type self +:+ "_server") in
  on_machine (on_world (os_makedirs base_dir)) ;;s
  sio_for subdirs
    (λ subdir, on_machine (on_world (os_makedirs (os_path_join base_dir subdir)))) ;;s
  set_server_dir (Some base_dir) ;;s
  sio_ret base_dir.

Definition _fetch_latest_vanilla_version : io val :=
  sio_try_except
    (response ←s on_world (requests_get
                             (VStr (server_url "vanilla" "version_manifest_url")) [] []) ;;
     versions ←s on_world (response_json response) ;;
     latest ←s sio_lift (py_getitem_str versions "latest") ;;
     latest_version ←s sio_lift (py_getitem_str latest "release") ;;
     sio_ret latest_version)
    (λ e, print ("Error fetching version: " +:+ exn_name e) ;;s sio_ret VNone).

(** The [for version in version_data['versions']] loop: the download URL
    of the first version whose [id] is [self.version], if the loop finds
    one. *)
Fixpoint find_download_url (self_version : val) (versions : list val)
    : io (option val) :=
  match versions with
  | [] => sio_ret None
  | version :: rest =>
      id ←s sio_lift (py_getitem_str version "id") ;;
      if py_eq id self_version then
        version_url ←s sio_lift (py_getitem_str version "url") ;;
        response ←s on_world (requests_get version_url [] []) ;;
        version_details ←s on_world (response_json response) ;;
        downloads ←s sio_lift (py_getitem_str version_details "downloads") ;;
        server ←s sio_lift (py_getitem_str downloads "server") ;;
        download_url ←s sio_lift (py_getitem_str server "url") ;;
        sio_ret (Some download_url)
      else find_download_url self_version rest
  end.

Section Methods.

(** [str(v)] for a list or a dict. *)
Variable repr_container : val → string.

(** [str(v)], as [format] and f-strings use it. *)
Definition py_str (v : val) : string :=
  match v with
  | VNone => "None"
  | VBool true => "True"
  | VBool false => "False"
  | VInt z => pretty z
  | VStr s => s
  | _ => repr_container v
  end.

Definition _download_server_jar : wio string :=
  self ←s get_self ;;
  (if negb (truthy (version self)) then
     if String.eqb (server_type self) "vanilla" then
       v ←s on_machine _fetch_latest_vanilla_version ;;
       set_version v
     else sio_raise (Exn true "ValueError")
   else sio_ret tt) ;;s
  self ←s get_self ;;
  jar_path ←s sio_lift (join_opt (server_dir self) "server.jar") ;;
  response ←s
    (if String.eqb (server_type self) "vanilla" then
       manifest ←s on_machine (on_world (requests_get
         (VStr "https://launchermeta.mojang.com/mc/game/version_manifest.json") [] [])) ;;
       version_data ←s on_machine (on_world (response_json manifest)) ;;
       versions ←s sio_lift (py_getitem_str version_data "versions") ;;
       versions ←s sio_lift (py_iter versions) ;;
       download_url ←s on_machine (find_download_url (version self) versions) ;;
       match download_url with
       | None => sio_raise (Exn true "UnboundLocalError")
       | Some download_url =>
           response ←s on_machine (on_world (requests_get download_url [] [])) ;;
           sio_ret (Some response)
       end
     else if String.eqb (server_type self) "paper" then
       let version_api :=
         format (server_url "paper" "api_url") [py_str (version self)] in
       builds_response ←s on_machine (on_world (requests_get (VStr version_api) [] [])) ;;
       builds ←s on_machine (on_world (response_json builds_response)) ;;
       builds ←s sio_lift (py_getitem_str builds "builds") ;;
       latest_build ←s sio_lift (py_getitem_last builds) ;;
       let download_url :=
         format (server_url "paper" "base_url")
           [py_str (version self); py_str latest_build;
            "paper-" +:+ py_str (version self) +:+ "-" +:+ py_str latest_build
            +:+ ".jar"] in
       response ←s on_machine (on_world (requests_get (VStr download_url) [] [])) ;;
       sio_ret (Some response)
     else sio_ret None) ;;
  on_machine (open_w jar_path) ;;s
  match response with
  | None => sio_raise (Exn true "UnboundLocalError")
  | Some response => on_machine (f_write jar_path (content response))
  end ;;s
  sio_ret jar_path.

Definition _create_eula_file : wio unit :=
  self ←s get_self ;;
  eula_path ←s sio_lift (join_opt (server_dir self) "eula.txt") ;;
  on_machine (print (nl +:+ "--- Minecraft EULA ---")) ;;s
  on_machine (print "To run this server, you must agree to Minecraft's EULA.") ;;s
  on_machine (print "https://account.mojang.com/documents/minecraft_eula") ;;s
  on_machine (while_input "Do you agree to the EULA? (yes/no): "
    (λ response,
     let response := lower response in
     if String.eqb response "yes" then
       open_w eula_path ;;s
       f_write eula_path (encode "eula=true") ;;s
       print "EULA accepted." ;;s
       sio_ret (Some tt)
     else if String.eqb response "no" then
       print "You must accept the EULA to run the server." ;;s
       sio_raise (Exn false "SystemExit")
     else sio_ret None)).

Definition default_properties : list (string * string) :=
  [("difficulty", "normal"); ("gamemode", "survival"); ("max-players", "20");
   ("online-mode", "true"); ("pvp", "true")].

Definition _create_server_properties : wio unit :=
  self ←s get_self ;;
  properties_path ←s sio_lift (join_opt (server_dir self) "server.properties") ;;
  on_machine (open_w properties_path) ;;s
  sio_for default_properties
    (λ kv, on_machine (f_write properties_path (encode (kv.1 +:+ "=" +:+ kv.2 +:+ nl)))).

Definition _create_start_script : wio unit :=
  self ←s get_self ;;
  bat ←s sio_lift (join_opt (server_dir self) "start.bat") ;;
  on_machine (open_w bat) ;;s
  on_machine (f_write bat (encode ("@echo off" +:+ nl))) ;;s
  on_machine (f_write bat (encode ("java -Xmx2G -Xms1G -jar server.jar nogui" +:+ nl))) ;;s
  on_machine (f_write bat (encode ("pause" +:+ nl))) ;;s
  sh ←s sio_lift (join_opt (server_dir self) "start.sh") ;;
  on_machine (open_w sh) ;;s
  on_machine (f_write sh (encode ("#!/bin/bash" +:+ nl))) ;;s
  on_machine (f_write sh (encode ("java -Xmx2G -Xms1G -jar server.jar nogui" +:+ nl))) ;;s
  sh ←s sio_lift (join_opt (server_dir self) "start.sh") ;;
  on_machine (os_chmod sh 493).

Definition setup_server : wio unit :=
  self ←s get_self ;;
  on_machine (print ("Setting up " +:+ capitalize (server_type self)
                     +:+ " Minecraft Server")) ;;s
  on_machine (print ("Version: " +:+ (if truthy (version self)
                                      then py_str (version self) else "Latest"))) ;;s
  _create_server_directory ;;s
  jar_path ←s _download_server_jar ;;
  on_machine (print ("Server JAR downloaded: " +:+ jar_path)) ;;s
  _create_eula_file ;;s
  _create_server_properties ;;s
  _create_start_script ;;s
  on_machine (print (nl +:+ "--- Server Setup Complete ---")) ;;s
  self ←s get_self ;;
  on_machine (print ("Server located at: "
                     +:+ from_option id "None" (server_dir self))) ;;s
  on_machine (print "Run the start script to launch your server.").



End Methods.

(** ** A concrete machine *)

Definition wizard_json (v : val) : http_result :=
  HttpResponse (Response 200 [] (Some v)).

Definition wizard_net (t : nat) (url : string) (hs : list (string * string))
    (ps : list (string * val)) : http_result :=
  if String.eqb url "https://piston-meta.mojang.com/mc/game/version_manifest.json"
  then wizard_json (VDict [("latest", VDict [("release", VStr "1.20.1");
                                              ("snapshot", VStr "23w31a")])])
  else if String.eqb url "https://launchermeta.mojang.com/mc/game/version_manifest.json"
  then wizard_json (VDict [("versions",
         VList [VDict [("id", VStr "23w31a"); ("url", VStr "https://meta/23w31a.json")];
                VDict [("id", VStr "1.20.1"); ("url", VStr "https://meta/1.20.1.json")]])])
  else if String.eqb url "https://meta/1.20.1.json"
  then wizard_json (VDict [("downloads",
         VDict [("server", VDict [("url", VStr "https://cdn/server-1.20.1.jar")])])])
  else if String.eqb url "https://cdn/server-1.20.1.jar"
  then HttpResponse (Response 200 [Byte.x50; Byte.x4b; Byte.x03] None)
  else if String.eqb url "https://papermc.io/api/v2/projects/paper/versions/1.20.1"
  then wizard_json (VDict [("builds", VList [VInt 101; VInt 196])])
  else if String.eqb url
    "https://papermc.io/api/v2/projects/paper/versions/1.20.1/builds/196/downloads/paper-1.20.1-196.jar"
  then HttpResponse (Response 200 [Byte.x50; Byte.x4b; Byte.x04] None)
  else HttpResponse (Response 404 [Byte.x34; Byte.x30; Byte.x34] None).

Definition wizard_machine (lines : list string) : machine :=
  Machine (World ∅ 0 [] wizard_net (λ _ _, false)) "/home/steve" lines [] ∅.

Definition no_repr (v : val) : string := "".

Definition files_of (m : machine) : list (string * fsnode) :=
  map_to_list (fs (m_world m)).

(** * Properties of the wizard *)

(** ** The constructor *)

Lemma lower_lower s : lower (lower s) = lower s.
Proof.
  induction s as [|c s IH]; [done|]. simpl. f_equal; [|done].
  unfold ascii_lower.
  destruct ((65 <=? nat_of_ascii c) && (nat_of_ascii c <=? 90)) eqn:Hc; [|by rewrite Hc].
  apply andb_prop in Hc as [H1%Nat.leb_le H2%Nat.leb_le].
  rewrite nat_ascii_embedding by lia.
  destruct (65 <=? nat_of_ascii c + 32) eqn:H3; [|done].
  by rewrite (proj2 (Nat.leb_gt _ _)) by lia.
Qed.

(** X13.  [ServerWizard(type, version)] takes the type whatever its case: it is
    made exactly when the lower-cased type is one of the four server
    types, and it keeps the lower-cased type, a version as given and no
    server directory; otherwise [ValueError] is raised. *)
Theorem ServerWizard_init_accepts type v :
  (lower type ∈ ["vanilla"; "paper"; "forge"; "fabric"] →
   ServerWizard_init type v
   = Return {| server_type := lower type; version := v; server_dir := None |}
   ∧ ServerWizard_init (lower type) v = ServerWizard_init type v)
  ∧ (lower type ∉ ["vanilla"; "paper"; "forge"; "fabric"] →
     ServerWizard_init type v = Raise (Exn true "ValueError")).
Proof.
  unfold ServerWizard_init. simpl. rewrite lower_lower. split; intros Ht.
  - by rewrite bool_decide_eq_true_2.
  - by rewrite bool_decide_eq_false_2.
Qed.

Lemma ServerWizard_init_accepts_witness :
  ServerWizard_init "Paper" (VStr "1.20.1")
  = Return {| server_type := "paper"; version := VStr "1.20.1"; server_dir := None |}.
Proof.
  apply (ServerWizard_init_accepts "Paper" (VStr "1.20.1")).
  vm_compute. set_solver.
Defined.

(** ** [_fetch_latest_vanilla_version] *)

Definition manifest_url : string :=
  "https://piston-meta.mojang.com/mc/game/version_manifest.json".

(** X14.  The method never raises an instance of [Exception]: it returns.  It
    does not look at the status of the answer: whenever the body is a JSON
    object with [latest.release], that value is returned, also under an
    error status, and nothing is printed.  Otherwise it prints one line
    and returns [None]. *)
Theorem _fetch_latest_vanilla_version_result m :
  let w := m_world m in
  let r := _fetch_latest_vanilla_version m in
  (∀ resp body latest release,
     net w (clock w) manifest_url [] [] = HttpResponse resp →
     json resp = Some body →
     py_getitem_str body "latest" = Return latest →
     py_getitem_str latest "release" = Return release →
     r = (Return release, set_world (tick w) m))
  ∧ (∃ v, r.1 = Return v)
  ∧ (m_stdout r.2 = m_stdout m
     ∨ (r.1 = Return VNone
        ∧ ∃ name, m_stdout r.2
                  = m_stdout m ++ ["Error fetching version: " +:+ name])).
Proof.
  unfold _fetch_latest_vanilla_version, sio_try_except, sio_bind, sio_lift,
    sio_ret, on_world, requests_get, response_json, print, manifest_url.
  cbv zeta. change (server_url "vanilla" "version_manifest_url")
    with "https://piston-meta.mojang.com/mc/game/version_manifest.json".
  simpl. split.
  { intros resp body latest release -> Hj Hl Hr. simpl. rewrite Hj. simpl.
    by rewrite Hl, Hr. }
  destruct (net (m_world m) (clock (m_world m)) _ [] []) as [name|resp]; simpl;
    [by eauto 10|].
  destruct (json resp) as [body|]; simpl; [|by eauto 10].
  destruct (py_getitem_str body "latest") as [latest|e] eqn:Hl; simpl.
  - destruct (py_getitem_str latest "release") as [release|e] eqn:Hr; simpl;
      [by eauto|].
    rewrite (py_getitem_str_raises _ _ _ Hr). simpl. eauto 10.
  - rewrite (py_getitem_str_raises _ _ _ Hl). simpl. eauto 10.
Qed.

(** An answer with status 404 whose body names a release. *)
Definition error_status_machine : machine :=
  Machine (World ∅ 0 []
             (λ _ _ _ _, HttpResponse (Response 404 []
                (Some (VDict [("latest", VDict [("release", VStr "1.0")])]))))
             (λ _ _, false))
          "/" [] [] ∅.

Lemma _fetch_latest_vanilla_version_result_witness :
  (_fetch_latest_vanilla_version error_status_machine).1 = Return (VStr "1.0").
Proof.
  rewrite (proj1 (_fetch_latest_vanilla_version_result error_status_machine)
             (Response 404 [] (Some (VDict [("latest",
                VDict [("release", VStr "1.0")])])))
             (VDict [("latest", VDict [("release", VStr "1.0")])])
             (VDict [("release", VStr "1.0")]) (VStr "1.0")
             eq_refl eq_refl eq_refl eq_refl).
  reflexivity.
Defined.

(** ** [_create_server_directory] *)

(** The system refuses no call. *)
Definition never_denies (m : machine) : Prop :=
  ∀ t p, os_denies (m_world m) t p = false.

(** Two machines that differ by their worlds at most. *)
Definition same_console (m m' : machine) : Prop :=
  m_cwd m' = m_cwd m ∧ m_stdin m' = m_stdin m
  ∧ m_stdout m' = m_stdout m ∧ m_modes m' = m_modes m.

Definition server_paths (self : ServerWizard) (m : machine) : list string :=
  let base_dir :=
    os_path_join (m_cwd m) ("minecraft_" +:+ server_type self +:+ "_server") in
  base_dir :: (os_path_join base_dir <$> subdirs).

Lemma sio_for_fmap {S A B} (f : A → B) (l : list A) (body : B → sio S unit) :
  sio_for (f <$> l) body = sio_for l (λ x, body (f x)).
Proof.
  unfold sio_for. induction l as [|x l IH]; [done|].
  rewrite fmap_cons. simpl. by rewrite IH.
Qed.

Lemma sio_bind_assoc {S A B C} (c : sio S A) (k : A → sio S B)
    (k' : B → sio S C) s :
  sio_bind (sio_bind c k) k' s = sio_bind c (λ a, sio_bind (k a) k') s.
Proof. unfold sio_bind. by destruct (c s) as [[a|e] s']. Qed.

(** Making the directories of a list, none of which is a file. *)
Lemma makedirs_for (ps : list string) : ∀ (self : ServerWizard) m,
  never_denies m →
  (∀ p c, p ∈ ps → fs (m_world m) !! p ≠ Some (File c)) →
  ∃ m',
    sio_for ps (λ p, on_machine (on_world (os_makedirs p))) (self, m)
    = (Return tt, (self, m'))
    ∧ (∀ p, p ∈ ps → fs (m_world m') !! p = Some Dir)
    ∧ (∀ p, p ∉ ps → fs (m_world m') !! p = fs (m_world m) !! p)
    ∧ (∀ p, fs (m_world m) !! p = Some Dir → fs (m_world m') !! p = Some Dir)
    ∧ same_console m m' ∧ never_denies m'.
Proof.
  induction ps as [|q ps IH]; intros self m Hos Hfree.
  { exists m. split_and!; try done. intros p Hp. by apply elem_of_nil in Hp. }
  unfold sio_for. simpl. fold (sio_for ps (λ p, on_machine (on_world (os_makedirs p)))).
  unfold sio_bind at 1. unfold on_machine at 1, on_world at 1. simpl.
  rewrite os_makedirs_allowed by apply Hos.
  set (m1 := set_world (set_fs (insert q Dir) (tick (m_world m))) m).
  assert ((match fs (m_world m) !! q with
           | Some (File _) => (Raise (Exn true "FileExistsError"), tick (m_world m))
           | _ => (Return tt, set_fs (insert q Dir) (tick (m_world m)))
           end) = (Return tt, set_fs (insert q Dir) (tick (m_world m)))) as ->.
  { destruct (fs (m_world m) !! q) as [[|c]|] eqn:Hq; try done.
    by destruct (Hfree q c (list_elem_of_here _ _)). }
  simpl. fold m1.
  destruct (IH self m1) as (m' & Hrun & Hdirs & Hother & Hkeep & Hcons & Hos').
  { intros t p. apply Hos. }
  { intros p c Hp. simpl. destruct (decide (p = q)) as [->|].
    - by rewrite lookup_insert_eq.
    - rewrite lookup_insert_ne by done. apply Hfree. by right. }
  exists m'. rewrite Hrun. split_and!; try done.
  - intros p [->|Hp]%elem_of_cons; [|by auto].
    apply Hkeep. simpl. apply lookup_insert_eq.
  - intros p Hp. apply not_elem_of_cons in Hp as [Hpq Hp].
    rewrite Hother by done. simpl. by rewrite lookup_insert_ne.
  - intros p Hp. apply Hkeep. simpl. destruct (decide (p = q)) as [->|].
    + apply lookup_insert_eq.
    + by rewrite lookup_insert_ne.
Qed.

(** X15.  When the system refuses nothing and no file is in the way,
    [_create_server_directory] makes the server directory, named after the
    type under the current directory, and its five subdirectories, keeps
    it in [self.server_dir] and returns it; nothing else changes.  Called
    again, it does the same and leaves the file system as it is. *)
Theorem _create_server_directory_makes self m :
  let base_dir :=
    os_path_join (m_cwd m) ("minecraft_" +:+ server_type self +:+ "_server") in
  let self' := {| server_type := server_type self; version := version self;
                  server_dir := Some base_dir |} in
  never_denies m →
  (∀ p c, p ∈ server_paths self m → fs (m_world m) !! p ≠ Some (File c)) →
  ∃ m',
    _create_server_directory (self, m) = (Return base_dir, (self', m'))
    ∧ (∀ p, p ∈ server_paths self m → fs (m_world m') !! p = Some Dir)
    ∧ (∀ p, p ∉ server_paths self m → fs (m_world m') !! p = fs (m_world m) !! p)
    ∧ same_console m m'
    ∧ ∃ m'',
        _create_server_directory (self', m') = (Return base_dir, (self', m''))
        ∧ fs (m_world m'') = fs (m_world m').
Proof.
  intros base_dir self' Hos Hfree.
  assert (∀ (s : ServerWizard) m0,
            server_type s = server_type self → m_cwd m0 = m_cwd m →
            _create_server_directory (s, m0)
            = ((sio_for (server_paths self m)
                  (λ p, on_machine (on_world (os_makedirs p))) ;;s
                set_server_dir (Some base_dir) ;;s sio_ret base_dir) (s, m0)))
    as Hunfold.
  { intros s m0 Hs Hc.
    transitivity
      ((on_machine (on_world (os_makedirs base_dir)) ;;s
        (sio_for (os_path_join base_dir <$> subdirs)
           (λ p, on_machine (on_world (os_makedirs p))) ;;s
         set_server_dir (Some base_dir) ;;s sio_ret base_dir)) (s, m0)).
    - rewrite sio_for_fmap.
      unfold _create_server_directory, sio_bind at 1 2, get_self,
        on_machine at 1, os_getcwd.
      simpl. by rewrite Hs, Hc.
    - symmetry. apply sio_bind_assoc. }
  destruct (makedirs_for (server_paths self m) self m Hos Hfree)
    as (m' & Hrun & Hdirs & Hother & _ & Hcons & Hos').
  exists m'. rewrite Hunfold by done. unfold sio_bind at 1. rewrite Hrun.
  split_and!; try done.
  destruct (makedirs_for (server_paths self m) self' m' Hos')
    as (m'' & Hrun' & Hdirs' & Hother' & _ & _ & _).
  { intros p c Hp. by rewrite Hdirs. }
  exists m''. rewrite Hunfold by (done || apply Hcons).
  unfold sio_bind at 1. rewrite Hrun'. split; [done|].
  apply map_eq. intros p.
  destruct (decide (p ∈ server_paths self m)) as [Hp|Hp].
  - by rewrite Hdirs, Hdirs'.
  - by rewrite Hother'.
Qed.

Lemma _create_server_directory_makes_witness :
  ∃ m',
    _create_server_directory
      ({| server_type := "paper"; version := VNone; server_dir := None |},
       wizard_machine [])
    = (Return "/home/steve/minecraft_paper_server",
       ({| server_type := "paper"; version := VNone;
           server_dir := Some "/home/steve/minecraft_paper_server" |}, m'))
    ∧ fs (m_world m') !! "/home/steve/minecraft_paper_server/world" = Some Dir.
Proof.
  destruct (_create_server_directory_makes
              {| server_type := "paper"; version := VNone; server_dir := None |}
              (wizard_machine []))
    as (m' & Hrun & Hdirs & _).
  - intros t p. reflexivity.
  - intros p c _. simpl. by rewrite lookup_empty.
  - exists m'. split; [exact Hrun|].
    apply Hdirs. apply list_elem_of_further, list_elem_of_here.
Defined.

(** ** Postconditions *)

(** What holds of the result and the state [c] ends in, started in [s]:
    [Q] when it returns, [E] when it raises. *)
Definition post {S A} (c : sio S A) (s : S)
    (Q : A → S → Prop) (E : exn → S → Prop) : Prop :=
  match c s with
  | (Return a, s') => Q a s'
  | (Raise e, s') => E e s'
  end.

Lemma post_Return {S A} (c : sio S A) s Q E a s' :
  post c s Q E → c s = (Return a, s') → Q a s'.
Proof. unfold post. intros H Hc. by rewrite Hc in H. Qed.

Lemma post_Raise {S A} (c : sio S A) s Q E e s' :
  post c s Q E → c s = (Raise e, s') → E e s'.
Proof. unfold post. intros H Hc. by rewrite Hc in H. Qed.

Lemma post_mono {S A} (c : sio S A) s (Q Q' : A → S → Prop)
    (E E' : exn → S → Prop) :
  post c s Q E → (∀ a s', Q a s' → Q' a s') → (∀ e s', E e s' → E' e s') →
  post c s Q' E'.
Proof. unfold post. destruct (c s) as [[a|e] s']; auto. Qed.

Lemma post_bind {S A B} (c : sio S A) (k : A → sio S B) s Q E :
  post c s (λ a s', post (k a) s' Q E) E → post (sio_bind c k) s Q E.
Proof. unfold post, sio_bind. by destruct (c s) as [[a|e] s']. Qed.

Lemma post_ret {S A} (a : A) (s : S) (Q : A → S → Prop) E :
  Q a s → post (sio_ret a) s Q E.
Proof. done. Qed.

Lemma post_raise {S A} e (s : S) (Q : A → S → Prop) (E : exn → S → Prop) :
  E e s → post (sio_raise e) s Q E.
Proof. done. Qed.

Lemma post_lift {S A} (o : outcome A) (s : S) (Q : A → S → Prop)
    (E : exn → S → Prop) :
  match o with Return a => Q a s | Raise e => E e s end →
  post (sio_lift o) s Q E.
Proof. unfold post, sio_lift. by destruct o. Qed.

Lemma post_try_except {S A} (body : sio S A) handler s Q E :
  post body s Q
    (λ e s', if exn_is_Exception e then post (handler e) s' Q E else E e s') →
  post (sio_try_except body handler) s Q E.
Proof.
  unfold post, sio_try_except. destruct (body s) as [[a|e] s']; [done|].
  by destruct (exn_is_Exception e).
Qed.

Lemma post_on_machine {A} (c : io A) (s : ServerWizard * machine) Q E :
  post c s.2 (λ a m', Q a (s.1, m')) (λ e m', E e (s.1, m')) →
  post (on_machine c) s Q E.
Proof. unfold post, on_machine. simpl. by destruct (c s.2) as [[a|e] m']. Qed.

Lemma post_on_world {A} (c : py A) (m : machine) Q E :
  post (c : sio world A) (m_world m)
    (λ a w', Q a (set_world w' m)) (λ e w', E e (set_world w' m)) →
  post (on_world c) m Q E.
Proof. unfold post, on_world. simpl. by destruct (c (m_world m)) as [[a|e] w']. Qed.

Lemma post_get_self (s : ServerWizard * machine) Q E :
  Q s.1 s → post get_self s Q E.
Proof. done. Qed.

(** ** What a step leaves alone *)

(** From [m] to [m'] only the paths [ps] may have changed, in the file
    system and in the modes; the current directory is the same. *)
Definition track (ps : list string) (m m' : machine) : Prop :=
  (∀ q, q ∉ ps → fs (m_world m') !! q = fs (m_world m) !! q)
  ∧ (∀ q, q ∉ ps → m_modes m' !! q = m_modes m !! q)
  ∧ m_cwd m' = m_cwd m.

Lemma track_lookup ps m m' q :
  track ps m m' → q ∉ ps → fs (m_world m') !! q = fs (m_world m) !! q.
Proof. intros [H _]. apply H. Qed.

Lemma track_modes ps m m' q :
  track ps m m' → q ∉ ps → m_modes m' !! q = m_modes m !! q.
Proof. intros (_ & H & _). apply H. Qed.

Lemma track_refl ps m : track ps m m.
Proof. done. Qed.

Lemma track_trans ps ps' m m' m'' :
  track ps m m' → track ps' m' m'' → track (ps ++ ps') m m''.
Proof.
  intros (Hf & Hm & Hc) (Hf' & Hm' & Hc'). split_and!.
  - intros q [??]%not_elem_of_app. rewrite Hf' by done. by apply Hf.
  - intros q [??]%not_elem_of_app. rewrite Hm' by done. by apply Hm.
  - congruence.
Qed.

Lemma track_weaken ps ps' m m' : ps ⊆ ps' → track ps m m' → track ps' m m'.
Proof.
  intros Hsub (Hf & Hm & Hc). split_and!; [| |done].
  - intros q Hq. apply Hf. intros ?. apply Hq. by apply Hsub.
  - intros q Hq. apply Hm. intros ?. apply Hq. by apply Hsub.
Qed.

Lemma track_nil_l ps m m' m'' : track [] m m' → track ps m' m'' → track ps m m''.
Proof. apply (track_trans [] ps). Qed.

Lemma track_nil_r ps m m' m'' : track ps m m' → track [] m' m'' → track ps m m''.
Proof. intros H1 H2. rewrite <- (app_nil_r ps). by eapply track_trans. Qed.

Lemma track_same ps m m' m'' : track ps m m' → track ps m' m'' → track ps m m''.
Proof.
  intros H1 H2. eapply track_weaken; [|by eapply track_trans].
  intros q. rewrite elem_of_app. tauto.
Qed.

(** Nothing but the clock, the log and the output has changed. *)
Definition calm (m m' : machine) : Prop :=
  track [] m m' ∧ m_stdin m' = m_stdin m.

#[global] Instance calm_refl : Reflexive calm.
Proof. by intros m. Qed.

#[global] Instance calm_trans : Transitive calm.
Proof.
  intros m1 m2 m3 [H1 H1'] [H2 H2']. split; [|congruence].
  by eapply track_same.
Qed.

(** The same for a method: the object keeps its type and its directory. *)
Definition wcalm (s s' : ServerWizard * machine) : Prop :=
  server_type s'.1 = server_type s.1 ∧ server_dir s'.1 = server_dir s.1
  ∧ calm s.2 s'.2.

#[global] Instance wcalm_refl : Reflexive wcalm.
Proof. by intros s. Qed.

#[global] Instance wcalm_trans : Transitive wcalm.
Proof.
  intros s1 s2 s3 (H1 & H1' & H1'') (H2 & H2' & H2''). split_and!; try congruence.
  by etrans.
Qed.

(** A computation that moves the state along [R] and raises instances of
    [Exception] only. *)
Definition quiet_for {S A} (R : relation S) (c : sio S A) : Prop :=
  ∀ s, post c s (λ _ s', R s s') (λ e s', exn_is_Exception e = true ∧ R s s').

Section quiet.
Context {S : Type} (R : relation S) `{!Reflexive R, !Transitive R}.

Lemma quiet_for_ret {A} (a : A) : quiet_for R (sio_ret a).
Proof. intros s. by apply post_ret. Qed.

Lemma quiet_for_raise {A} name : quiet_for R (sio_raise (A:=A) (Exn true name)).
Proof. intros s. by apply post_raise. Qed.

Lemma quiet_for_lift {A} (o : outcome A) :
  (∀ e, o = Raise e → exn_is_Exception e = true) → quiet_for R (sio_lift o).
Proof. intros Ho s. apply post_lift. destruct o; [done|]. split; auto. Qed.

Lemma quiet_for_bind {A B} (c : sio S A) (k : A → sio S B) :
  quiet_for R c → (∀ a, quiet_for R (k a)) → quiet_for R (sio_bind c k).
Proof.
  intros Hc Hk s. apply post_bind.
  eapply post_mono; [apply Hc| |done]. intros a s' Hs. simpl in *.
  eapply post_mono; [apply Hk| |]; simpl.
  - intros b s'' ?. by etrans.
  - intros e s'' [??]. split; [done|by etrans].
Qed.

Lemma quiet_for_try_except {A} (body : sio S A) handler :
  quiet_for R body → (∀ e, quiet_for R (handler e)) →
  quiet_for R (sio_try_except body handler).
Proof.
  intros Hb Hh s. apply post_try_except.
  eapply post_mono; [apply Hb|done|]. intros e s' [-> Hs]. simpl in *.
  eapply post_mono; [apply Hh| |]; simpl.
  - intros b s'' ?. by etrans.
  - intros e' s'' [??]. split; [done|by etrans].
Qed.

(** What follows a quiet step. *)
Lemma post_quiet {A} (c : sio S A) s (Q : A → S → Prop) (E : exn → S → Prop) :
  quiet_for R c →
  (∀ a s', R s s' → Q a s') →
  (∀ e s', exn_is_Exception e = true → R s s' → E e s') →
  post c s Q E.
Proof.
  intros Hc HQ HE. eapply post_mono; [apply Hc|done|].
  intros e s' [??]. by apply HE.
Qed.

End quiet.

Lemma quiet_print s : quiet_for calm (print s).
Proof. intros m. unfold post, print. by repeat split. Qed.

Lemma quiet_on_world {A} (c : py A) :
  (∀ w, fs (c w).2 = fs w) →
  (∀ w e, (c w).1 = Raise e → exn_is_Exception e = true) →
  quiet_for calm (on_world c).
Proof.
  intros Hfs Hexn m. unfold post, on_world.
  specialize (Hfs (m_world m)). specialize (Hexn (m_world m)).
  assert (calm m (set_world (c (m_world m)).2 m)) as Hcalm.
  { split; [|done]. split_and!; try done. intros q _. simpl. by rewrite Hfs. }
  destruct (c (m_world m)) as [[a|e] w']; simpl in *; [done|].
  split; [by apply Hexn|done].
Qed.

Lemma quiet_requests_get url hs ps : quiet_for calm (on_world (requests_get url hs ps)).
Proof.
  apply quiet_on_world.
  - intros w. unfold requests_get. destruct url; try done.
    by destruct (net w (clock w) s hs ps).
  - intros w e. unfold requests_get.
    destruct url; simpl; try (intros [= <-]; done).
    destruct (net w (clock w) s hs ps); simpl; [|done]. by intros [= <-].
Qed.

Lemma quiet_response_json r : quiet_for calm (on_world (response_json r)).
Proof.
  apply quiet_on_world.
  - intros w. unfold response_json. by destruct (json r).
  - intros w e. unfold response_json. destruct (json r); simpl; [done|].
    by intros [= <-].
Qed.

Lemma quiet_on_machine {A} (c : io A) :
  quiet_for calm c → quiet_for wcalm (on_machine c).
Proof.
  intros Hc s. apply post_on_machine.
  eapply post_mono; [apply Hc| |]; simpl.
  - intros a m' ?. by split_and!.
  - intros e m' [??]. by split_and!.
Qed.

Lemma quiet_get_self : quiet_for wcalm get_self.
Proof. intros s. unfold post, get_self. by repeat split. Qed.

Lemma quiet_set_version v : quiet_for wcalm (set_version v).
Proof. intros s. unfold post, set_version. by repeat split. Qed.

Lemma py_iter_raises v e : py_iter v = Raise e → exn_is_Exception e = true.
Proof. destruct v; simpl; intros [=]; by subst. Qed.

Lemma py_getitem_last_raises v e :
  py_getitem_last v = Raise e → exn_is_Exception e = true.
Proof.
  destruct v; simpl; repeat case_match; intros [=]; by subst.
Qed.

Lemma join_opt_raises a b e : join_opt a b = Raise e → exn_is_Exception e = true.
Proof. destruct a; simpl; intros [=]; by subst. Qed.

Create HintDb quiet.

#[global] Hint Resolve quiet_for_ret quiet_for_raise quiet_print
  quiet_requests_get quiet_response_json quiet_get_self quiet_set_version
  py_getitem_str_raises py_iter_raises py_getitem_last_raises join_opt_raises
  : quiet.

(** Quietness of a computation, by its shape. *)
Ltac quiet :=
  repeat first
    [ progress eauto with quiet typeclass_instances
    | apply quiet_for_bind; [..|intros ?]
    | apply quiet_for_try_except; [..|intros ?]
    | apply quiet_for_lift
    | apply quiet_on_machine
    | match goal with
      | |- quiet_for _ (if ?b then _ else _) => destruct b
      | |- quiet_for _ (match ?x with _ => _ end) => destruct x
      end ].

Lemma post_makedirs p m (Q : unit → machine → Prop) E :
  (∀ m', fs (m_world m') = <[p := Dir]> (fs (m_world m)) →
         track [p] m m' → m_stdin m' = m_stdin m → Q tt m') →
  (∀ e m', exn_is_Exception e = true → E e m') →
  post (on_world (os_makedirs p)) m Q E.
Proof.
  intros HQ HE. unfold post, on_world, os_makedirs. cbv zeta.
  destruct (os_denies (m_world m) (clock (m_world m)) p); simpl; [by apply HE|].
  destruct (fs (m_world m) !! p) as [[|c]|] eqn:Hp; simpl; try by apply HE.
  - apply HQ; try done. split_and!; try done. intros q Hq. simpl.
    rewrite lookup_insert_ne; [done|]. intros ->. apply Hq. by left.
  - apply HQ; try done. split_and!; try done. intros q Hq. simpl.
    rewrite lookup_insert_ne; [done|]. intros ->. apply Hq. by left.
Qed.

Lemma post_open_w p m (Q : unit → machine → Prop) E :
  (∀ m', fs (m_world m') = <[p := File []]> (fs (m_world m)) →
         track [p] m m' → m_stdin m' = m_stdin m → Q tt m') →
  (∀ e m', exn_is_Exception e = true → E e m') →
  post (open_w p) m Q E.
Proof.
  intros HQ HE. unfold post, open_w, on_world, write_file. cbv zeta.
  destruct (os_denies (m_world m) (clock (m_world m)) p); simpl; [by apply HE|].
  destruct (fs (m_world m) !! p) as [[|c]|] eqn:Hp; simpl; try by apply HE.
  - apply HQ; try done. split_and!; try done. intros q Hq. simpl.
    rewrite lookup_insert_ne; [done|]. intros ->. apply Hq. by left.
  - apply HQ; try done. split_and!; try done. intros q Hq. simpl.
    rewrite lookup_insert_ne; [done|]. intros ->. apply Hq. by left.
Qed.

(** Writing to a file that is open: the data goes to its end. *)
Lemma post_f_write p data c m (Q : unit → machine → Prop) E :
  fs (m_world m) !! p = Some (File c) →
  (∀ m', fs (m_world m') = <[p := File (c ++ data)]> (fs (m_world m)) →
         track [p] m m' → m_stdin m' = m_stdin m → Q tt m') →
  post (f_write p data) m Q E.
Proof.
  intros Hp HQ. unfold post, f_write, on_world. simpl.
  apply HQ; try done; [by simpl; rewrite Hp|].
  split_and!; try done. intros q Hq. simpl. rewrite Hp.
  rewrite lookup_insert_ne; [done|]. intros ->. apply Hq. by left.
Qed.

Lemma post_chmod p mode m (Q : unit → machine → Prop) E :
  (∀ m', fs (m_world m') = fs (m_world m) →
         m_modes m' = <[p := mode]> (m_modes m) →
         m_cwd m' = m_cwd m → m_stdin m' = m_stdin m → Q tt m') →
  (∀ e m', exn_is_Exception e = true → E e m') →
  post (os_chmod p mode) m Q E.
Proof.
  intros HQ HE. unfold post, os_chmod. cbv zeta.
  destruct (os_denies (m_world m) (clock (m_world m)) p); simpl; [by apply HE|].
  destruct (fs (m_world m) !! p) as [n|] eqn:Hp; simpl; [|by apply HE].
  by apply HQ.
Qed.

Lemma quiet_fetch_latest_vanilla_version :
  quiet_for calm _fetch_latest_vanilla_version.
Proof. unfold _fetch_latest_vanilla_version. quiet. Qed.

Lemma quiet_find_download_url v versions :
  quiet_for calm (find_download_url v versions).
Proof. induction versions as [|x l IH]; simpl; quiet. Qed.

#[global] Hint Resolve quiet_fetch_latest_vanilla_version
  quiet_find_download_url : quiet.

(** ** What each method leaves behind *)

Lemma post_makedirs_for ps :
  ∀ (s : ServerWizard * machine) (Q : unit → ServerWizard * machine → Prop) E,
  (∀ m', (∀ p, p ∈ ps → fs (m_world m') !! p = Some Dir) →
         (∀ q, fs (m_world s.2) !! q = Some Dir → fs (m_world m') !! q = Some Dir) →
         track ps s.2 m' → m_stdin m' = m_stdin s.2 → Q tt (s.1, m')) →
  (∀ e s', exn_is_Exception e = true → E e s') →
  post (sio_for ps (λ p, on_machine (on_world (os_makedirs p)))) s Q E.
Proof.
  induction ps as [|p ps IH]; intros [self m] Q E HQ HE; simpl in *.
  { apply post_ret. apply HQ; try done. intros p Hp. by apply elem_of_nil in Hp. }
  unfold sio_for. simpl.
  fold (sio_for ps (λ p, on_machine (on_world (os_makedirs p)))).
  apply post_bind, post_on_machine, post_makedirs; [|intros; by apply HE].
  intros m1 Hfs Htr Hin. apply IH; [|done]. simpl.
  intros m' Hdirs Hkeep Htr' Hin'. apply HQ.
  - intros q [->|Hq]%elem_of_cons; [|by auto].
    apply Hkeep. rewrite Hfs. apply lookup_insert_eq.
  - intros q Hq. apply Hkeep. rewrite Hfs.
    destruct (decide (q = p)) as [->|]; [apply lookup_insert_eq|].
    by rewrite lookup_insert_ne.
  - by apply (track_trans [p] ps _ m1).
  - simpl in *. congruence.
Qed.

Lemma post_create_server_directory s (Q : string → ServerWizard * machine → Prop) E :
  let base_dir :=
    os_path_join (m_cwd s.2) ("minecraft_" +:+ server_type s.1 +:+ "_server") in
  (∀ m', (∀ p, p ∈ server_paths s.1 s.2 → fs (m_world m') !! p = Some Dir) →
         track (server_paths s.1 s.2) s.2 m' → m_stdin m' = m_stdin s.2 →
         Q base_dir ({| server_type := server_type s.1; version := version s.1;
                        server_dir := Some base_dir |}, m')) →
  (∀ e s', exn_is_Exception e = true → E e s') →
  post _create_server_directory s Q E.
Proof.
  intros base_dir HQ HE. unfold _create_server_directory.
  apply post_bind, post_get_self.
  apply post_bind, post_on_machine. unfold post at 1, os_getcwd. fold base_dir.
  rewrite <- (sio_for_fmap (os_path_join base_dir) subdirs
                (λ p, on_machine (on_world (os_makedirs p)))).
  apply post_bind, post_on_machine, post_makedirs; [|intros; by apply HE].
  intros m1 Hfs Htr Hin.
  apply post_bind, post_makedirs_for; [|intros; by apply HE].
  simpl. intros m' Hdirs Hkeep Htr' Hin'.
  apply post_bind. unfold post at 1, set_server_dir. simpl. apply post_ret.
  apply HQ.
  - intros p [->|Hp]%elem_of_cons; [|by auto].
    apply Hkeep. rewrite Hfs. apply lookup_insert_eq.
  - by apply (track_trans [base_dir] _ _ m1).
  - simpl in *. congruence.
Qed.

Section Specs.

Variable repr_container : val → string.

Lemma post_download_server_jar s (Q : string → ServerWizard * machine → Prop) E :
  (∀ d self' m' c,
     server_dir s.1 = Some d →
     server_type self' = server_type s.1 → server_dir self' = Some d →
     server_type s.1 ∈ ["vanilla"; "paper"] →
     fs (m_world m') !! os_path_join d "server.jar" = Some (File c) →
     track [os_path_join d "server.jar"] s.2 m' → m_stdin m' = m_stdin s.2 →
     Q (os_path_join d "server.jar") (self', m')) →
  (∀ e s', exn_is_Exception e = true → E e s') →
  post (_download_server_jar repr_container) s Q E.
Proof.
  intros HQ HE. unfold _download_server_jar.
  apply post_bind, post_get_self.
  apply post_bind, (post_quiet wcalm); [by quiet| |by intros; apply HE].
  intros [] s1 (Ht1 & Hd1 & Htr1 & Hin1).
  apply post_bind, post_get_self.
  apply post_bind, post_lift.
  destruct (server_dir s1.1) as [d|] eqn:Hd; simpl; [|by apply HE].
  assert (∀ (response : option response) s0,
    post (on_machine (open_w (os_path_join d "server.jar")) ;;s
          match response with
          | None => sio_raise (Exn true "UnboundLocalError")
          | Some response =>
              on_machine (f_write (os_path_join d "server.jar") (content response))
          end ;;s sio_ret (os_path_join d "server.jar")) s0
      (λ p s', p = os_path_join d "server.jar" ∧ s'.1 = s0.1
               ∧ (∃ c, fs (m_world s'.2) !! p = Some (File c))
               ∧ track [p] s0.2 s'.2 ∧ m_stdin s'.2 = m_stdin s0.2)
      (λ e _, exn_is_Exception e = true)) as Htail.
  { intros response [self0 m0].
    apply post_bind, post_on_machine, post_open_w; [|done].
    intros m2 Hfs2 Htr2 Hin2. apply post_bind.
    destruct response as [response|]; [|by apply post_raise].
    apply post_on_machine, (post_f_write _ _ []).
    { simpl. rewrite Hfs2. apply lookup_insert_eq. }
    intros m3 Hfs3 Htr3 Hin3. apply post_ret. simpl. split_and!; try done.
    - eexists. rewrite Hfs3. apply lookup_insert_eq.
    - by eapply track_same.
    - simpl in *. congruence. }
  assert (server_type s1.1 ∈ ["vanilla"; "paper"] →
          ∀ (response : option response) s2, wcalm s1 s2 →
          post (on_machine (open_w (os_path_join d "server.jar")) ;;s
                match response with
                | None => sio_raise (Exn true "UnboundLocalError")
                | Some response =>
                    on_machine (f_write (os_path_join d "server.jar")
                                  (content response))
                end ;;s sio_ret (os_path_join d "server.jar")) s2 Q E) as Hend.
  { intros Htype response s2 (Ht2 & Hd2 & Htr2 & Hin2).
    eapply post_mono; [apply Htail| |by intros; apply HE].
    simpl. intros p [self' m'] (-> & Hself & [c Hc] & Htr3 & Hin3).
    simpl in *. subst self'. apply (HQ d _ _ c); try congruence.
    - eapply track_nil_l; [apply Htr1|]. by eapply track_nil_l. }
  apply post_bind.
  destruct (String.eqb (server_type s1.1) "vanilla") eqn:Hv;
    [|destruct (String.eqb (server_type s1.1) "paper") eqn:Hp].
  - apply String.eqb_eq in Hv.
    apply (post_quiet wcalm); [by quiet| |by intros; apply HE].
    intros response s2 Hs2. apply Hend; [|done]. rewrite Hv. by left.
  - apply String.eqb_eq in Hp.
    apply (post_quiet wcalm); [by quiet| |by intros; apply HE].
    intros response s2 Hs2. apply Hend; [|done]. rewrite Hp. by right; left.
  - apply post_ret.
    apply post_bind, post_on_machine, post_open_w; [|by intros; apply HE].
    intros m2 _ _ _. by apply post_bind, post_raise, HE.
Qed.

End Specs.

Lemma post_input prompt m (Q : string → machine → Prop) E :
  (∀ l m', track [] m m' → Q l m') →
  (∀ m', track [] m m' → E (Exn true "EOFError") m') →
  post (input prompt) m Q E.
Proof.
  intros HQ HE. unfold post, input. destruct (m_stdin m); [apply HE|apply HQ]; done.
Qed.

(** The loop around [input], for a body that keeps the files until it
    leaves the loop. *)
Lemma post_input_loop {A} prompt (body : string → io (option A)) m0
    (Q : A → machine → Prop) E :
  (∀ l m, track [] m0 m →
     post (body l) m
       (λ r m', match r with Some a => Q a m' | None => track [] m0 m' end) E) →
  (∀ m, E (Exn true "EOFError") m) →
  ∀ fuel m, track [] m0 m → post (input_loop prompt body fuel) m Q E.
Proof.
  intros Hbody HE.
  assert (∀ (k : io A) m, track [] m0 m →
            (∀ m', track [] m0 m' → post k m' Q E) →
            post (line ←s input prompt ;; r ←s body line ;;
                  match r with Some a => sio_ret a | None => k end) m Q E) as Hstep.
  { intros k m Hm Hk. apply post_bind, post_input; [|done].
    intros l m1 Hm1. apply post_bind.
    eapply post_mono; [apply Hbody; by eapply track_same| |done].
    intros [a|] m2; simpl; [by intros; apply post_ret|]. apply Hk. }
  induction fuel as [|fuel IH]; intros m Hm; simpl; apply Hstep; try done.
  intros m' _. apply post_raise, HE.
Qed.

Lemma post_create_eula_file s (Q : unit → ServerWizard * machine → Prop) E :
  (∀ d m', server_dir s.1 = Some d →
     fs (m_world m') !! os_path_join d "eula.txt" = Some (File (encode "eula=true")) →
     track [os_path_join d "eula.txt"] s.2 m' → Q tt (s.1, m')) →
  (∀ e s', exn_is_Exception e = true → E e s') →
  (∀ m', track [] s.2 m' → E (Exn false "SystemExit") (s.1, m')) →
  post _create_eula_file s Q E.
Proof.
  destruct s as [self m]. simpl. intros HQ HE Hexit. unfold _create_eula_file.
  apply post_bind, post_get_self.
  apply post_bind, post_lift. simpl.
  destruct (server_dir self) as [d|] eqn:Hd; simpl; [|by apply HE].
  apply post_bind, post_on_machine, (post_quiet calm);
    [by quiet| |by intros; apply HE].
  intros [] m1 [Hm1 _].
  apply post_bind, post_on_machine, (post_quiet calm);
    [by quiet| |by intros; apply HE].
  intros [] m2 [Hm2 _].
  apply post_bind, post_on_machine, (post_quiet calm);
    [by quiet| |by intros; apply HE].
  intros [] m3 [Hm3 _]. simpl in *.
  assert (track [] m m3) as Hm by (by repeat (eapply track_same; [|done])).
  clear Hm1 Hm2 Hm3.
  apply post_on_machine. unfold while_input. simpl.
  apply (post_input_loop _ _ m3); [|by intros; apply HE|done].
  intros l m4 Hm4.
  assert (track [] m m4) as Hm' by (by eapply track_same).
  destruct (String.eqb (lower l) "yes").
  - apply post_bind, post_open_w; [|by intros; apply HE].
    intros m5 Hfs5 Htr5 _.
    apply post_bind, (post_f_write _ _ []); [by rewrite Hfs5, lookup_insert_eq|].
    intros m6 Hfs6 Htr6 _.
    apply post_bind, (post_quiet calm); [by quiet| |by intros; apply HE].
    intros [] m7 [Hm7 _]. apply post_ret. apply (HQ d); [done| |].
    + rewrite (track_lookup _ _ _ _ Hm7) by apply not_elem_of_nil.
      rewrite Hfs6. apply lookup_insert_eq.
    + eapply track_nil_l; [done|]. eapply track_nil_r; [|done].
      by eapply track_same.
  - destruct (String.eqb (lower l) "no").
    + apply post_bind, (post_quiet calm); [by quiet| |by intros; apply HE].
      intros [] m5 [Hm5 _]. apply post_raise, Hexit. by eapply track_same.
    + by apply post_ret.
Qed.

(** Writing pieces to a file that is open. *)
Lemma post_write_chunks p chunks :
  ∀ c (s : ServerWizard * machine) (Q : unit → ServerWizard * machine → Prop) E,
  fs (m_world s.2) !! p = Some (File c) →
  (∀ m', fs (m_world m') !! p = Some (File (c ++ concat chunks)) →
         track [p] s.2 m' → m_stdin m' = m_stdin s.2 → Q tt (s.1, m')) →
  post (sio_for chunks (λ d, on_machine (f_write p d))) s Q E.
Proof.
  induction chunks as [|x chunks IH]; intros c [self m] Q E Hp HQ; simpl in *.
  { apply post_ret. apply HQ; try done. by rewrite app_nil_r. }
  unfold sio_for. simpl. fold (sio_for chunks (λ d, on_machine (f_write p d))).
  apply post_bind, post_on_machine, (post_f_write _ _ c); [done|].
  intros m1 Hfs1 Htr1 Hin1. apply (IH (c ++ x)).
  { simpl. rewrite Hfs1. apply lookup_insert_eq. }
  simpl. intros m' Hp' Htr' Hin'. apply HQ.
  - by rewrite (assoc_L (++)).
  - by eapply track_same.
  - simpl in *. congruence.
Qed.

Definition properties_text : string :=
  "difficulty=normal" +:+ nl +:+ "gamemode=survival" +:+ nl
  +:+ "max-players=20" +:+ nl +:+ "online-mode=true" +:+ nl
  +:+ "pvp=true" +:+ nl.

Definition start_bat_text : string :=
  "@echo off" +:+ nl +:+ "java -Xmx2G -Xms1G -jar server.jar nogui" +:+ nl
  +:+ "pause" +:+ nl.

Definition start_sh_text : string :=
  "#!/bin/bash" +:+ nl +:+ "java -Xmx2G -Xms1G -jar server.jar nogui" +:+ nl.

Lemma post_create_server_properties s (Q : unit → ServerWizard * machine → Prop) E :
  (∀ d m', server_dir s.1 = Some d →
     fs (m_world m') !! os_path_join d "server.properties"
     = Some (File (encode properties_text)) →
     track [os_path_join d "server.properties"] s.2 m' →
     m_stdin m' = m_stdin s.2 → Q tt (s.1, m')) →
  (∀ e s', exn_is_Exception e = true → E e s') →
  post _create_server_properties s Q E.
Proof.
  destruct s as [self m]. simpl. intros HQ HE. unfold _create_server_properties.
  apply post_bind, post_get_self.
  apply post_bind, post_lift. simpl.
  destruct (server_dir self) as [d|] eqn:Hd; simpl; [|by apply HE].
  apply post_bind, post_on_machine, post_open_w; [|by intros; apply HE].
  intros m1 Hfs1 Htr1 Hin1.
  change (post (sio_for
                  ((λ kv, encode (kv.1 +:+ "=" +:+ kv.2 +:+ nl)) <$> default_properties)
                  (λ data, on_machine
                             (f_write (os_path_join d "server.properties") data)))
            (self, m1) Q E).
  apply (post_write_chunks _ _ []).
  { simpl. rewrite Hfs1. apply lookup_insert_eq. }
  simpl. intros m' Hp Htr' Hin'. apply (HQ d); try done.
  - by eapply track_same.
  - simpl in *. congruence.
Qed.

Lemma os_path_join_ne d f1 f2 :
  startswith_sep f1 = false → startswith_sep f2 = false → f1 ≠ f2 →
  os_path_join d f1 ≠ os_path_join d f2.
Proof. intros H1 H2 Hne Heq. by apply Hne, (os_path_join_inj d). Qed.

Lemma post_create_start_script s (Q : unit → ServerWizard * machine → Prop) E :
  (∀ d m', server_dir s.1 = Some d →
     fs (m_world m') !! os_path_join d "start.bat"
     = Some (File (encode start_bat_text)) →
     fs (m_world m') !! os_path_join d "start.sh"
     = Some (File (encode start_sh_text)) →
     m_modes m' !! os_path_join d "start.sh" = Some 493%Z →
     track [os_path_join d "start.bat"; os_path_join d "start.sh"] s.2 m' →
     m_stdin m' = m_stdin s.2 → Q tt (s.1, m')) →
  (∀ e s', exn_is_Exception e = true → E e s') →
  post _create_start_script s Q E.
Proof.
  destruct s as [self m]. simpl. intros HQ HE. unfold _create_start_script.
  apply post_bind, post_get_self.
  apply post_bind, post_lift. simpl.
  destruct (server_dir self) as [d|] eqn:Hd; simpl; [|by apply HE].
  set (bat := os_path_join d "start.bat"). set (sh := os_path_join d "start.sh").
  assert (bat ≠ sh) as Hne by (by apply os_path_join_ne).
  apply post_bind, post_on_machine, post_open_w; [|by intros; apply HE].
  intros m1 Hfs1 Htr1 Hin1.
  apply post_bind, post_on_machine, (post_f_write _ _ []);
    [by simpl; rewrite Hfs1, lookup_insert_eq|].
  intros m2 Hfs2 Htr2 Hin2.
  eapply post_bind, post_on_machine, post_f_write;
    [by simpl; rewrite Hfs2, lookup_insert_eq|].
  intros m3 Hfs3 Htr3 Hin3.
  eapply post_bind, post_on_machine, post_f_write;
    [by simpl; rewrite Hfs3, lookup_insert_eq|].
  intros m4 Hfs4 Htr4 Hin4.
  apply post_bind, post_lift. simpl.
  apply post_bind, post_on_machine, post_open_w; [|by intros; apply HE].
  intros m5 Hfs5 Htr5 Hin5.
  apply post_bind, post_on_machine, (post_f_write _ _ []);
    [by simpl; rewrite Hfs5, lookup_insert_eq|].
  intros m6 Hfs6 Htr6 Hin6.
  eapply post_bind, post_on_machine, post_f_write;
    [by simpl; rewrite Hfs6, lookup_insert_eq|].
  intros m7 Hfs7 Htr7 Hin7.
  apply post_bind, post_lift. simpl.
  apply post_on_machine, post_chmod; [|by intros; apply HE].
  intros m8 Hfs8 Hmodes8 Hcwd8 Hin8. simpl in *.
  assert (track [bat] m m4) as Hbat by (by repeat (eapply track_same; [|done])).
  assert (track [sh] m4 m7) as Hsh by (by repeat (eapply track_same; [|done])).
  apply (HQ d); try done.
  - fold bat. rewrite Hfs8.
    rewrite (track_lookup _ _ _ _ Hsh)
      by (apply not_elem_of_cons; split; [done|apply not_elem_of_nil]).
    rewrite Hfs4. by rewrite lookup_insert_eq.
  - fold sh. rewrite Hfs8, Hfs7. by rewrite lookup_insert_eq.
  - fold sh. rewrite Hmodes8. apply lookup_insert_eq.
  - eapply track_same; [apply (track_trans [bat] [sh] _ m4); done|].
    split_and!; [by intros q _; rewrite Hfs8| |done].
    intros q Hq. rewrite Hmodes8. rewrite lookup_insert_ne; [done|].
    intros <-. apply Hq. by right; left.
  - congruence.
Qed.

(** ** [setup_server] *)

Definition base_dir_of (self : ServerWizard) (m : machine) : string :=
  os_path_join (m_cwd m) ("minecraft_" +:+ server_type self +:+ "_server").

(** The files [setup_server] writes in the server directory. *)
Definition server_files : list string :=
  ["server.jar"; "eula.txt"; "server.properties"; "start.bat"; "start.sh"].

(** A completed setup: the directories, the five files and the mode of
    the shell script; no other path has changed. *)
Definition set_up (self : ServerWizard) (m m' : machine) : Prop :=
  let d := base_dir_of self m in
  (∀ p, p ∈ server_paths self m → fs (m_world m') !! p = Some Dir)
  ∧ (∃ jar, fs (m_world m') !! os_path_join d "server.jar" = Some (File jar))
  ∧ fs (m_world m') !! os_path_join d "eula.txt" = Some (File (encode "eula=true"))
  ∧ fs (m_world m') !! os_path_join d "server.properties"
    = Some (File (encode properties_text))
  ∧ fs (m_world m') !! os_path_join d "start.bat" = Some (File (encode start_bat_text))
  ∧ fs (m_world m') !! os_path_join d "start.sh" = Some (File (encode start_sh_text))
  ∧ m_modes m' !! os_path_join d "start.sh" = Some 493%Z
  ∧ track (server_paths self m ++ (os_path_join d <$> server_files)) m m'.

(** A setup that stopped at the EULA: the directories and the downloaded
    JAR are there, the other four files are as they were. *)
Definition refused (self : ServerWizard) (m m' : machine) : Prop :=
  let d := base_dir_of self m in
  (∀ p, p ∈ server_paths self m → fs (m_world m') !! p = Some Dir)
  ∧ (∃ jar, fs (m_world m') !! os_path_join d "server.jar" = Some (File jar))
  ∧ (∀ f, f ∈ ["eula.txt"; "server.properties"; "start.bat"; "start.sh"] →
       fs (m_world m') !! os_path_join d f = fs (m_world m) !! os_path_join d f)
  ∧ track (server_paths self m ++ [os_path_join d "server.jar"]) m m'.

Lemma server_names_NoDup : NoDup (server_files ++ subdirs).
Proof. apply (bool_decide_unpack _). vm_compute. exact I. Qed.

Lemma server_names_relative f :
  f ∈ server_files ++ subdirs → startswith_sep f = false ∧ f ≠ "".
Proof.
  intros Hf. unfold server_files, subdirs in Hf. simpl in Hf.
  repeat (apply elem_of_cons in Hf as [->|Hf]; [done|]).
  by apply elem_of_nil in Hf.
Qed.

(** The files are not among the directories. *)
Lemma server_file_fresh self m f :
  f ∈ server_files →
  os_path_join (base_dir_of self m) f ∉ server_paths self m.
Proof.
  intros Hf. destruct (server_names_relative f) as [Hrel Hne].
  { apply elem_of_app. by left. }
  unfold server_paths. fold (base_dir_of self m).
  intros [Heq|Hin]%elem_of_cons.
  - by apply os_path_join_relative_ne in Heq.
  - apply list_elem_of_fmap in Hin as (g & Heq & Hg).
    destruct (server_names_relative g) as [Hrel' _].
    { apply elem_of_app. by right. }
    apply os_path_join_inj in Heq; [|done..]. subst g.
    pose proof server_names_NoDup as Hnd.
    apply NoDup_app in Hnd as (_ & Hnd & _). by apply (Hnd f).
Qed.

Lemma server_file_ne d f g :
  f ∈ server_files → g ∈ server_files → f ≠ g →
  os_path_join d f ≠ os_path_join d g.
Proof.
  intros Hf Hg. apply os_path_join_ne.
  - apply server_names_relative, elem_of_app. by left.
  - apply server_names_relative, elem_of_app. by left.
Qed.

Lemma elem_of_server_files f :
  bool_decide (f ∈ server_files) = true → f ∈ server_files.
Proof. apply bool_decide_eq_true_1. Qed.

(** A directory of the server is none of its files. *)
Lemma server_path_not_file self m p names :
  p ∈ server_paths self m → Forall (λ f, f ∈ server_files) names →
  p ∉ os_path_join (base_dir_of self m) <$> names.
Proof.
  intros Hp Hnames (f & -> & Hf)%list_elem_of_fmap.
  rewrite Forall_forall in Hnames. by eapply server_file_fresh; [apply Hnames|].
Qed.

(** One file of the server is none of the others. *)
Lemma server_file_not_file d f names :
  f ∈ server_files → Forall (λ g, g ∈ server_files ∧ g ≠ f) names →
  os_path_join d f ∉ os_path_join d <$> names.
Proof.
  intros Hf Hnames (g & Heq & Hg)%list_elem_of_fmap.
  rewrite Forall_forall in Hnames. destruct (Hnames g Hg) as [Hg' Hne].
  by apply (server_file_ne d g f) in Hne.
Qed.

Ltac server_file :=
  lazymatch goal with
  | |- _ ∈ server_files => by apply elem_of_server_files
  | |- Forall _ _ =>
      repeat (apply Forall_cons; split; [first [by apply elem_of_server_files
        | by split; [apply elem_of_server_files|]]|]); by apply Forall_nil
  end.

Section Setup.

Variable repr_container : val → string.

Lemma post_setup_server self m :
  post (setup_server repr_container) (self, m)
    (λ _ s', server_type s'.1 = server_type self
             ∧ server_dir s'.1 = Some (base_dir_of self m)
             ∧ set_up self m s'.2)
    (λ e s', exn_is_Exception e = false →
             e = Exn false "SystemExit" ∧ refused self m s'.2).
Proof.
  set (d := base_dir_of self m). set (paths := server_paths self m).
  set (E := λ (e : exn) (s' : ServerWizard * machine),
              exn_is_Exception e = false →
              e = Exn false "SystemExit" ∧ refused self m s'.2).
  assert (∀ e s', exn_is_Exception e = true → E e s') as HE.
  { intros e s' He He'. congruence. }
  unfold setup_server.
  apply post_bind, post_get_self. cbn [fst snd].
  apply post_bind, (post_quiet wcalm); [by quiet| |by intros; apply HE].
  intros [] s1 Hs1.
  apply post_bind, (post_quiet wcalm); [by quiet| |by intros; apply HE].
  intros [] s2 Hs2.
  assert (wcalm (self, m) s2) as (Ht2 & Hd2 & Htr2 & _) by (by etrans).
  clear Hs1 Hs2 s1. destruct s2 as [self2 m2]. cbn [fst snd] in *.
  apply post_bind, post_create_server_directory; [|done].
  cbn [fst snd].
  assert (os_path_join (m_cwd m2) ("minecraft_" +:+ server_type self2 +:+ "_server")
          = d) as Hbase.
  { unfold d, base_dir_of. destruct Htr2 as (_ & _ & ->). by rewrite Ht2. }
  assert (server_paths self2 m2 = paths) as Hpaths.
  { unfold paths, server_paths. destruct Htr2 as (_ & _ & ->). by rewrite Ht2. }
  rewrite Hbase, Hpaths.
  intros m3 Hdirs3 Htr3 _.
  apply (track_nil_l _ _ _ _ Htr2) in Htr3. clear Htr2.
  apply post_bind, post_download_server_jar; [|done]. cbn [fst snd].
  intros ? self4 m4 jar [= <-] Ht4 Hd4 _ Hjar4 Htr4 _.
  apply post_bind, (post_quiet wcalm); [by quiet| |by intros; apply HE].
  intros [] [self5 m5] (Ht5 & Hd5 & Htr5 & _). cbn [fst snd] in *.
  assert (track (paths ++ (os_path_join d <$> ["server.jar"])) m m5) as Htr.
  { eapply track_nil_r; [|done]. by eapply track_trans. }
  assert (∀ p, p ∈ paths → fs (m_world m5) !! p = Some Dir) as Hdirs5.
  { intros p Hp. rewrite (track_lookup _ _ _ _ Htr5) by apply not_elem_of_nil.
    rewrite (track_lookup _ _ _ _ Htr4); [by apply Hdirs3|].
    apply (server_path_not_file self m p ["server.jar"]); [done|server_file]. }
  assert (fs (m_world m5) !! os_path_join d "server.jar" = Some (File jar)) as Hjar5.
  { by rewrite (track_lookup _ _ _ _ Htr5) by apply not_elem_of_nil. }
  clear Htr3 Htr4 Htr5 Hdirs3 Hjar4.
  assert (server_dir self5 = Some d) as Hdir5 by congruence.
  apply post_bind, post_create_eula_file; [|done|]; cbn [fst snd].
  2: { intros m6 Htr6 _. split; [done|]. split_and!.
       - intros p Hp. rewrite (track_lookup _ _ _ _ Htr6) by apply not_elem_of_nil.
         by apply Hdirs5.
       - exists jar. by rewrite (track_lookup _ _ _ _ Htr6) by apply not_elem_of_nil.
       - intros f Hf. apply (track_lookup (paths ++ (os_path_join d <$> ["server.jar"]))).
         { by eapply track_nil_r. }
         apply not_elem_of_app. split.
         + apply server_file_fresh.
           repeat (apply elem_of_cons in Hf as [->|Hf]; [server_file|]).
           by apply elem_of_nil in Hf.
         + repeat (apply elem_of_cons in Hf as [->|Hf];
                   [apply server_file_not_file; server_file|]).
           by apply elem_of_nil in Hf.
       - by eapply track_nil_r. }
  intros ? m6 [= <-]%(eq_trans (eq_sym Hdir5)) Heula6 Htr6.
  apply post_bind, post_create_server_properties; [|done]. cbn [fst snd].
  intros ? m7 [= <-]%(eq_trans (eq_sym Hdir5)) Hprops7 Htr7 _.
  apply post_bind, post_create_start_script; [|done]. cbn [fst snd].
  intros ? m8 [= <-]%(eq_trans (eq_sym Hdir5)) Hbat8 Hsh8 Hmode8 Htr8 _.
  apply post_bind, (post_quiet wcalm); [by quiet| |by intros; apply HE].
  intros [] [self9 m9] (Ht9 & Hd9 & Htr9 & _).
  apply post_bind, post_get_self.
  apply post_bind, (post_quiet wcalm); [by quiet| |by intros; apply HE].
  intros [] [self10 m10] (Ht10 & Hd10 & Htr10 & _).
  apply (post_quiet wcalm); [by quiet| |by intros; apply HE].
  intros [] [self11 m11] (Ht11 & Hd11 & Htr11 & _). cbn [fst snd] in *.
  assert (track [] m8 m11) as Htr' by (by repeat (eapply track_same; [|done])).
  clear Htr9 Htr10 Htr11.
  simpl in Ht4. split_and!; [congruence|congruence|].
  unfold set_up. fold d. fold paths. cbv zeta.
  rewrite !(track_lookup _ _ _ _ Htr') by apply not_elem_of_nil.
  split_and!.
  - intros p Hp. rewrite (track_lookup _ _ _ _ Htr') by apply not_elem_of_nil.
    rewrite (track_lookup _ _ _ _ Htr8)
      by (apply (server_path_not_file self m p ["start.bat"; "start.sh"]);
          [done|server_file]).
    rewrite (track_lookup _ _ _ _ Htr7)
      by (apply (server_path_not_file self m p ["server.properties"]);
          [done|server_file]).
    rewrite (track_lookup _ _ _ _ Htr6)
      by (apply (server_path_not_file self m p ["eula.txt"]); [done|server_file]).
    by apply Hdirs5.
  - exists jar.
    rewrite (track_lookup _ _ _ _ Htr8)
      by (apply (server_file_not_file d "server.jar" ["start.bat"; "start.sh"]);
          server_file).
    rewrite (track_lookup _ _ _ _ Htr7)
      by (apply (server_file_not_file d "server.jar" ["server.properties"]);
          server_file).
    by rewrite (track_lookup _ _ _ _ Htr6)
      by (apply (server_file_not_file d "server.jar" ["eula.txt"]); server_file).
  - rewrite (track_lookup _ _ _ _ Htr8)
      by (apply (server_file_not_file d "eula.txt" ["start.bat"; "start.sh"]);
          server_file).
    by rewrite (track_lookup _ _ _ _ Htr7)
      by (apply (server_file_not_file d "eula.txt" ["server.properties"]);
          server_file).
  - by rewrite (track_lookup _ _ _ _ Htr8)
      by (apply (server_file_not_file d "server.properties" ["start.bat"; "start.sh"]);
          server_file).
  - done.
  - done.
  - by rewrite (track_modes _ _ _ _ Htr') by apply not_elem_of_nil.
  - eapply track_nil_r; [|done].
    eapply track_weaken;
      [|eapply track_trans; [apply Htr|];
        eapply track_trans; [apply Htr6|];
        eapply track_trans; [apply Htr7|apply Htr8]].
    intros q. rewrite !elem_of_app. unfold server_files. simpl.
    rewrite !elem_of_cons. tauto.
Qed.

(** X21.  A setup that returns has made the server directory with its five
    subdirectories under the current directory, downloaded [server.jar],
    written [eula.txt] with [eula=true], [server.properties] with the five
    defaults, [start.bat] and [start.sh], and set the mode of [start.sh] to
    [0o755]; no other path has changed, in the file system or in the
    modes, and the object has the directory. *)
Theorem setup_server_complete self m self' m' :
  setup_server repr_container (self, m) = (Return tt, (self', m')) →
  server_type self' = server_type self
  ∧ server_dir self' = Some (base_dir_of self m)
  ∧ set_up self m m'.
Proof.
  intros H. exact (post_Return _ _ _ _ _ _ (post_setup_server self m) H).
Qed.

(** X22.  What leaves [setup_server] without being an instance of [Exception]
    is the [SystemExit] of a refused EULA.  It comes after the download:
    the directories and [server.jar] are there, [eula.txt],
    [server.properties] and the start scripts are as they were before the
    call. *)
Theorem setup_server_refused self m e self' m' :
  setup_server repr_container (self, m) = (Raise e, (self', m')) →
  exn_is_Exception e = false →
  e = Exn false "SystemExit" ∧ refused self m m'.
Proof.
  intros H. exact (post_Raise _ _ _ _ _ _ (post_setup_server self m) H).
Qed.

(** X16.  [_download_server_jar] returns for the types vanilla and paper only,
    and only when the object has a directory: the path it returns is
    [server.jar] in that directory and a file is there; no other path has
    changed, the object keeps its type and directory and the input is
    untouched.  What it raises is an instance of [Exception]. *)
Theorem _download_server_jar_returns self m :
  (∀ p self' m',
     _download_server_jar repr_container (self, m) = (Return p, (self', m')) →
     server_type self ∈ ["vanilla"; "paper"]
     ∧ ∃ d, server_dir self = Some d ∧ p = os_path_join d "server.jar"
            ∧ server_dir self' = Some d ∧ server_type self' = server_type self
            ∧ (∃ c, fs (m_world m') !! p = Some (File c))
            ∧ track [p] m m' ∧ m_stdin m' = m_stdin m)
  ∧ (∀ e s', _download_server_jar repr_container (self, m) = (Raise e, s') →
             exn_is_Exception e = true).
Proof.
  assert (post (_download_server_jar repr_container) (self, m)
            (λ p s',
               server_type self ∈ ["vanilla"; "paper"]
               ∧ ∃ d, server_dir self = Some d ∧ p = os_path_join d "server.jar"
                      ∧ server_dir s'.1 = Some d
                      ∧ server_type s'.1 = server_type self
                      ∧ (∃ c, fs (m_world s'.2) !! p = Some (File c))
                      ∧ track [p] m s'.2 ∧ m_stdin s'.2 = m_stdin m)
            (λ e _, exn_is_Exception e = true)) as Hpost.
  { apply post_download_server_jar; [|done]. simpl.
    intros d self' m' c Hd Ht Hd' Htype Hc Htr Hin. split; [done|].
    exists d. split_and!; try done. by exists c. }
  split.
  - intros p self' m' H. exact (post_Return _ _ _ _ _ _ Hpost H).
  - intros e s' H. exact (post_Raise _ _ _ _ _ _ Hpost H).
Qed.

End Setup.

Lemma setup_server_complete_witness :
  let self := {| server_type := "vanilla"; version := VNone; server_dir := None |} in
  let r := setup_server no_repr (self, wizard_machine ["YES"]) in
  set_up self (wizard_machine ["YES"]) r.2.2.
Proof.
  intros self r.
  apply (setup_server_complete no_repr self (wizard_machine ["YES"]) r.2.1 r.2.2).
  vm_compute. reflexivity.
Defined.

Lemma setup_server_refused_witness :
  let self := {| server_type := "paper"; version := VStr "1.20.1";
                 server_dir := None |} in
  let r := setup_server no_repr (self, wizard_machine ["maybe"; "No"]) in
  refused self (wizard_machine ["maybe"; "No"]) r.2.2.
Proof.
  intros self r.
  apply (setup_server_refused no_repr self (wizard_machine ["maybe"; "No"])
           (Exn false "SystemExit") r.2.1 r.2.2).
  - vm_compute. reflexivity.
  - reflexivity.
Defined.

Lemma _download_server_jar_returns_witness :
  let self := {| server_type := "paper"; version := VStr "1.20.1";
                 server_dir := Some "/srv" |} in
  let r := _download_server_jar no_repr (self, wizard_machine []) in
  ∃ c, fs (m_world r.2.2) !! "/srv/server.jar" = Some (File c).
Proof.
  intros self r.
  destruct (proj1 (_download_server_jar_returns no_repr self (wizard_machine []))
              "/srv/server.jar" r.2.1 r.2.2)
    as (_ & d & Hd & Hp & _ & _ & Hc & _).
  - vm_compute. reflexivity.
  - exact Hc.
Defined.

Section Download.

Variable repr_container : val → string.

(** X17.  Only vanilla can do without a version: for another type
    [_download_server_jar] raises [ValueError] before anything is
    touched.  Forge and fabric, which the constructor accepts, have no
    download branch: with a version, [server.jar] is opened for writing,
    which empties a JAR that is there, and [UnboundLocalError] is raised. *)
Theorem _download_server_jar_unsupported self m :
  server_type self ≠ "vanilla" →
  (truthy (version self) = false →
   _download_server_jar repr_container (self, m)
   = (Raise (Exn true "ValueError"), (self, m)))
  ∧ (server_type self ≠ "paper" → truthy (version self) = true →
     ∀ d, server_dir self = Some d →
     let jar := os_path_join d "server.jar" in
     os_denies (m_world m) (clock (m_world m)) jar = false →
     fs (m_world m) !! jar ≠ Some Dir →
     _download_server_jar repr_container (self, m)
     = (Raise (Exn true "UnboundLocalError"),
        (self, set_world (set_fs (insert jar (File [])) (tick (m_world m))) m))).
Proof.
  intros Hv%String.eqb_neq. split.
  - intros Hver. unfold _download_server_jar, sio_bind, get_self. simpl.
    by rewrite Hver, Hv.
  - intros Hp%String.eqb_neq Hver d Hd jar Hos Hjar.
    unfold _download_server_jar, sio_bind, get_self. simpl.
    rewrite Hver. simpl. rewrite Hd. simpl. rewrite Hv, Hp. simpl.
    unfold on_machine, open_w, on_world, write_file. simpl. fold jar.
    rewrite Hos. by destruct (fs (m_world m) !! jar) as [[|c]|].
Qed.

End Download.

Lemma _download_server_jar_unsupported_witness :
  let self := {| server_type := "forge"; version := VStr "1.20.1";
                 server_dir := Some "/srv" |} in
  let m := Machine (World {["/srv/server.jar" := File [Byte.x50; Byte.x4b]]} 0 []
                      wizard_net (λ _ _, false)) "/" [] [] ∅ in
  let r := _download_server_jar no_repr (self, m) in
  r.1 = Raise (Exn true "UnboundLocalError")
  ∧ fs (m_world r.2.2) !! "/srv/server.jar" = Some (File []).
Proof.
  intros self m r. unfold r.
  rewrite (proj2 (_download_server_jar_unsupported no_repr self m
                    ltac:(discriminate))
             ltac:(discriminate) eq_refl "/srv" eq_refl eq_refl
             ltac:(vm_compute; discriminate)).
  split; [reflexivity|]. vm_compute. reflexivity.
Defined.

Definition launcher_manifest_url : string :=
  "https://launchermeta.mojang.com/mc/game/version_manifest.json".

(** The loop over the manifest finds nothing when no entry has the
    version as its [id]; it sends no request then. *)
Lemma find_download_url_none v versions m :
  Forall (λ x, ∃ id, py_getitem_str x "id" = Return id ∧ py_eq id v = false)
    versions →
  find_download_url v versions m = (Return None, m).
Proof.
  induction 1 as [|x l (id & Hid & Hne) _ IH]; [done|].
  simpl. unfold sio_bind at 1, sio_lift. by rewrite Hid, Hne.
Qed.

Section Download_vanilla.

Variable repr_container : val → string.

(** X18.  A vanilla version that the launcher manifest does not list: the
    loop ends without a download URL, [UnboundLocalError] is raised after
    the one request for the manifest and no file is written. *)
Theorem _download_server_jar_unknown_version self m d resp body versions :
  let w := m_world m in
  server_type self = "vanilla" → truthy (version self) = true →
  server_dir self = Some d →
  net w (clock w) launcher_manifest_url [] [] = HttpResponse resp →
  json resp = Some body →
  py_getitem_str body "versions" = Return (VList versions) →
  Forall (λ x, ∃ id, py_getitem_str x "id" = Return id
                     ∧ py_eq id (version self) = false) versions →
  _download_server_jar repr_container (self, m)
  = (Raise (Exn true "UnboundLocalError"), (self, set_world (tick w) m)).
Proof.
  intros w Ht Hver Hd Hnet Hjson Hvs Hall.
  unfold _download_server_jar, sio_bind, get_self. simpl.
  rewrite Hver. simpl. rewrite Hd. simpl. rewrite Ht. simpl.
  unfold on_machine, on_world, requests_get. simpl.
  fold launcher_manifest_url. fold w. rewrite Hnet. simpl.
  unfold response_json. rewrite Hjson. simpl. rewrite Hvs. simpl.
  by rewrite find_download_url_none.
Qed.

(** X19.  Paper: the build is the last of the builds the API lists for the
    version, and the body of the answer to the download request is what
    [server.jar] holds afterwards, whatever the status of that answer. *)
Theorem _download_server_jar_paper self m d v resp body builds build jar_resp :
  let w := m_world m in
  let api := format (server_url "paper" "api_url") [v] in
  let build_str := py_str repr_container build in
  let url := format (server_url "paper" "base_url")
               [v; build_str; "paper-" +:+ v +:+ "-" +:+ build_str +:+ ".jar"] in
  let jar := os_path_join d "server.jar" in
  server_type self = "paper" → version self = VStr v → v ≠ "" →
  server_dir self = Some d →
  net w (clock w) api [] [] = HttpResponse resp →
  json resp = Some body →
  py_getitem_str body "builds" = Return (VList builds) →
  last builds = Some build →
  net w (S (clock w)) url [] [] = HttpResponse jar_resp →
  os_denies w (S (S (clock w))) jar = false →
  fs w !! jar ≠ Some Dir →
  ∃ m',
    _download_server_jar repr_container (self, m) = (Return jar, (self, m'))
    ∧ fs (m_world m') = <[jar := File (content jar_resp)]> (fs w).
Proof.
  intros w api build_str url jar Ht Hver Hv Hd Hnet Hjson Hbuilds Hlast Hnet' Hos Hjar.
  destruct self as [t ver dir]. simpl in Ht, Hver, Hd. subst t ver dir.
  apply String.eqb_neq in Hv.
  unfold _download_server_jar, sio_bind, get_self.
  cbn -[format server_url os_path_join]. rewrite Hv. cbn -[format server_url os_path_join].
  unfold on_machine, on_world, requests_get. cbn -[format server_url os_path_join].
  fold api. fold w. rewrite Hnet. cbn -[format server_url os_path_join].
  unfold response_json. rewrite Hjson. cbn -[format server_url os_path_join].
  rewrite Hbuilds. cbn -[format server_url os_path_join].
  rewrite Hlast. cbn -[format server_url os_path_join].
  fold build_str. fold url. rewrite Hnet'. cbn -[format server_url os_path_join].
  unfold open_w, on_world, write_file. cbn -[format server_url os_path_join].
  fold jar. rewrite Hos.
  assert (∀ f : gmap string fsnode, f !! jar ≠ Some Dir →
            match f !! jar with
            | Some Dir => (Raise (Exn true "IsADirectoryError") : outcome (),
                           tick (tick (tick w)))
            | _ => (Return (), set_fs (insert jar (File [])) (tick (tick (tick w))))
            end = (Return (), set_fs (insert jar (File [])) (tick (tick (tick w)))))
    as Hopen.
  { intros f Hf. by destruct (f !! jar) as [[|c]|]. }
  rewrite (Hopen _ Hjar). cbn -[format server_url os_path_join]. unfold f_write, on_world.
  cbn -[format server_url os_path_join].
  eexists. split; [reflexivity|]. cbn -[format server_url os_path_join].
  rewrite lookup_insert_eq. by rewrite insert_insert_eq.
Qed.

End Download_vanilla.

Lemma _download_server_jar_unknown_version_witness :
  (_download_server_jar no_repr
     ({| server_type := "vanilla"; version := VStr "9.9.9";
         server_dir := Some "/srv" |}, wizard_machine [])).1
  = Raise (Exn true "UnboundLocalError").
Proof.
  erewrite (_download_server_jar_unknown_version no_repr
              {| server_type := "vanilla"; version := VStr "9.9.9";
                 server_dir := Some "/srv" |} (wizard_machine []) "/srv");
    [reflexivity|reflexivity|reflexivity|reflexivity
    |vm_compute; reflexivity|reflexivity|reflexivity|].
  repeat (apply Forall_cons; split; [eexists; split; reflexivity|]).
  by apply Forall_nil.
Defined.

Lemma _download_server_jar_paper_witness :
  ∃ m',
    _download_server_jar no_repr
      ({| server_type := "paper"; version := VStr "1.20.1";
          server_dir := Some "/srv" |}, wizard_machine [])
    = (Return "/srv/server.jar",
       ({| server_type := "paper"; version := VStr "1.20.1";
           server_dir := Some "/srv" |}, m'))
    ∧ fs (m_world m')
      = <["/srv/server.jar" := File [Byte.x50; Byte.x4b; Byte.x04]]> ∅.
Proof.
  apply (_download_server_jar_paper no_repr
           {| server_type := "paper"; version := VStr "1.20.1";
              server_dir := Some "/srv" |} (wizard_machine []) "/srv" "1.20.1"
           (Response 200 [] (Some (VDict [("builds", VList [VInt 101; VInt 196])])))
           (VDict [("builds", VList [VInt 101; VInt 196])])
           [VInt 101; VInt 196] (VInt 196)
           (Response 200 [Byte.x50; Byte.x4b; Byte.x04] None));
    try reflexivity.
  - discriminate.
  - vm_compute. discriminate.
Defined.

(** ** The loops around [input] *)

Definition with_console (stdin stdout : list string) (m : machine) : machine :=
  Machine (m_world m) (m_cwd m) stdin stdout (m_modes m).

Lemma input_loop_eq {A} prompt (body : string → io (option A)) fuel :
  input_loop prompt body fuel
  = (line ←s input prompt ;;
     r ←s body line ;;
     match r with
     | Some a => sio_ret a
     | None =>
         match fuel with
         | 0 => sio_raise (Exn true "EOFError")
         | S fuel' => input_loop prompt body fuel'
         end
     end).
Proof. by destruct fuel. Qed.

(** Lines on which the body goes round again, echoing [echo l], are
    read and passed over, each after a prompt. *)
Lemma input_loop_skip {A} prompt (body : string → io (option A))
    (echo : string → list string) skipped :
  (∀ l m0, l ∈ skipped →
     body l m0 = (Return None, with_console (m_stdin m0) (m_stdout m0 ++ echo l) m0)) →
  ∀ fuel m tail,
    m_stdin m = skipped ++ tail →
    input_loop prompt body (length skipped + fuel) m
    = input_loop prompt body fuel
        (with_console tail
           (m_stdout m ++ flat_map (λ l, prompt :: echo l) skipped) m).
Proof.
  induction skipped as [|l skipped IH]; intros Hbody fuel m tail Hin.
  { simpl in *. rewrite app_nil_r. destruct m. simpl in *. by subst. }
  simpl. unfold sio_bind at 1. unfold input at 1. rewrite Hin. simpl.
  unfold sio_bind at 1. rewrite Hbody by left. simpl.
  rewrite (IH (λ l' m0 Hl', Hbody l' m0 (list_elem_of_further _ _ _ Hl')) fuel _ tail)
    by done.
  unfold with_console. simpl. by rewrite <- !(assoc_L (++)).
Qed.

Lemma while_input_skip {A} prompt (body : string → io (option A))
    (echo : string → list string) skipped l rest m :
  (∀ l m0, l ∈ skipped →
     body l m0 = (Return None, with_console (m_stdin m0) (m_stdout m0 ++ echo l) m0)) →
  m_stdin m = skipped ++ l :: rest →
  let m1 := with_console rest
              (m_stdout m ++ flat_map (λ l, prompt :: echo l) skipped ++ [prompt]) m in
  (∀ a m2, body l m1 = (Return (Some a), m2) →
           while_input prompt body m = (Return a, m2))
  ∧ (∀ e m2, body l m1 = (Raise e, m2) →
             while_input prompt body m = (Raise e, m2)).
Proof.
  intros Hbody Hin m1.
  assert (while_input prompt body m
          = (r ←s body l ;;
             match r with
             | Some a => sio_ret a
             | None => input_loop prompt body (length rest)
             end) m1) as ->.
  { unfold while_input. rewrite Hin, length_app. simpl.
    rewrite (input_loop_skip prompt body echo skipped Hbody _ m (l :: rest) Hin).
    simpl. unfold sio_bind at 1, input at 1. simpl.
    by rewrite <- (assoc_L (++)). }
  unfold sio_bind. split; intros x m2 ->; done.
Qed.

Lemma while_input_eof {A} prompt (body : string → io (option A))
    (echo : string → list string) m :
  (∀ l m0, l ∈ m_stdin m →
     body l m0 = (Return None, with_console (m_stdin m0) (m_stdout m0 ++ echo l) m0)) →
  while_input prompt body m
  = (Raise (Exn true "EOFError"),
     with_console []
       (m_stdout m ++ flat_map (λ l, prompt :: echo l) (m_stdin m) ++ [prompt]) m).
Proof.
  intros Hbody. unfold while_input.
  rewrite <- (Nat.add_0_r (length (m_stdin m))).
  rewrite (input_loop_skip prompt body echo (m_stdin m) Hbody 0 m [])
    by (by rewrite app_nil_r).
  simpl. unfold sio_bind, input. simpl. by rewrite <- (assoc_L (++)).
Qed.

(** ** [_create_eula_file] *)

Definition eula_prompt : string := "Do you agree to the EULA? (yes/no): ".

Definition eula_banner : list string :=
  [nl +:+ "--- Minecraft EULA ---";
   "To run this server, you must agree to Minecraft's EULA.";
   "https://account.mojang.com/documents/minecraft_eula"].

(** X20.  The question is asked again until the answer is yes or no, in any
    case of the letters; the other lines are read and dropped.  On yes
    [eula.txt] is written with [eula=true] and the method returns.  On no
    [SystemExit] is raised, which [except Exception] does not catch, and
    the world is as it was: no file is written.  When the input ends
    first, [EOFError] is raised. *)
Theorem _create_eula_file_answers self d m skipped :
  server_dir self = Some d →
  Forall (λ l, lower l ≠ "yes" ∧ lower l ≠ "no") skipped →
  let p := os_path_join d "eula.txt" in
  let w := m_world m in
  let out := m_stdout m ++ eula_banner ++ replicate (length skipped) eula_prompt in
  (∀ l rest, m_stdin m = skipped ++ l :: rest → lower l = "yes" →
     os_denies w (clock w) p = false → fs w !! p ≠ Some Dir →
     _create_eula_file (self, m)
     = (Return tt,
        (self, Machine (set_fs (insert p (File (encode "eula=true"))) (tick w))
                 (m_cwd m) rest (out ++ [eula_prompt; "EULA accepted."])
                 (m_modes m))))
  ∧ (∀ l rest, m_stdin m = skipped ++ l :: rest → lower l = "no" →
       _create_eula_file (self, m)
       = (Raise (Exn false "SystemExit"),
          (self, Machine w (m_cwd m) rest
                   (out ++ [eula_prompt; "You must accept the EULA to run the server."])
                   (m_modes m))))
  ∧ (m_stdin m = skipped →
       _create_eula_file (self, m)
       = (Raise (Exn true "EOFError"),
          (self, Machine w (m_cwd m) [] (out ++ [eula_prompt]) (m_modes m)))).
Proof.
  intros Hd Hskip p w out.
  set (body := λ response : string,
     if String.eqb (lower response) "yes" then
       open_w p ;;s f_write p (encode "eula=true") ;;s
       print "EULA accepted." ;;s sio_ret (Some tt)
     else if String.eqb (lower response) "no" then
       print "You must accept the EULA to run the server." ;;s
       sio_raise (Exn false "SystemExit")
     else sio_ret None).
  set (m0 := with_console (m_stdin m) (m_stdout m ++ eula_banner) m).
  assert (_create_eula_file (self, m)
          = on_machine (while_input eula_prompt body) (self, m0)) as ->.
  { unfold _create_eula_file, sio_bind, get_self. simpl. rewrite Hd. simpl.
    unfold m0, with_console, eula_banner. simpl.
    by rewrite <- !(assoc_L (++)). }
  assert (∀ l m1, l ∈ skipped →
            body l m1 = (Return None, with_console (m_stdin m1) (m_stdout m1 ++ []) m1))
    as Hbody.
  { intros l m1 Hl. rewrite Forall_forall in Hskip.
    destruct (Hskip l Hl) as [Hy%String.eqb_neq Hn%String.eqb_neq].
    unfold body. rewrite Hy, Hn. unfold with_console. rewrite app_nil_r.
    by destruct m1. }
  assert (flat_map (λ _ : string, [eula_prompt]) skipped
          = replicate (length skipped) eula_prompt) as Hprompts.
  { clear. induction skipped as [|l skipped IH]; [done|]. simpl. by rewrite IH. }
  split_and!.
  - intros l rest Hin Hyes Hos Hfree.
    destruct (while_input_skip eula_prompt body (λ _, []) skipped l rest m0 Hbody Hin)
      as [Hret _].
    unfold on_machine. simpl. erewrite Hret; [reflexivity|].
    unfold body. rewrite Hyes. simpl.
    unfold sio_bind, open_w, on_world, write_file. simpl. fold w. fold p.
    rewrite Hos. rewrite Hprompts.
    destruct (fs w !! p) as [[|c]|] eqn:Hp; try done; simpl;
      unfold set_world, set_fs, with_console, out; simpl;
      rewrite lookup_insert_eq, insert_insert_eq, <- !(assoc_L (++)); done.
  - intros l rest Hin Hno.
    destruct (while_input_skip eula_prompt body (λ _, []) skipped l rest m0 Hbody Hin)
      as [_ Hraise].
    unfold on_machine. simpl. erewrite Hraise; [reflexivity|].
    unfold body. rewrite Hno. simpl.
    unfold sio_bind, print, with_console, out. simpl.
    rewrite Hprompts, <- !(assoc_L (++)). done.
  - intros Hin. unfold on_machine. simpl.
    rewrite (while_input_eof eula_prompt body (λ _, [])).
    + simpl. rewrite Hin, Hprompts. unfold with_console, out. simpl.
      by rewrite <- !(assoc_L (++)).
    + simpl. rewrite Hin. done.
Qed.

Lemma _create_eula_file_answers_witness :
  (_create_eula_file
     ({| server_type := "paper"; version := VNone; server_dir := Some "/srv" |},
      wizard_machine ["maybe"; ""; "NO"; "yes"])).1
  = Raise (Exn false "SystemExit").
Proof.
  rewrite (proj1 (proj2 (_create_eula_file_answers
             {| server_type := "paper"; version := VNone; server_dir := Some "/srv" |}
             "/srv" (wizard_machine ["maybe"; ""; "NO"; "yes"]) ["maybe"; ""]
             eq_refl
             ltac:(repeat (apply Forall_cons; split; [by split|]); by apply Forall_nil)))
             "NO" ["yes"] eq_refl eq_refl).
  reflexivity.
Defined.

(** ** [main] *)






Section Main.

Variable repr_container : val → string.


End Main.


(** ** [_create_server_properties] and [_create_start_script] *)

Lemma on_machine_Return {A B} (c : io A) (k : A → wio B) self m a m' :
  c m = (Return a, m') → sio_bind (on_machine c) k (self, m) = k a (self, m').
Proof. intros H. unfold sio_bind, on_machine. simpl. by rewrite H. Qed.

Lemma open_w_allowed p m :
  os_denies (m_world m) (clock (m_world m)) p = false →
  fs (m_world m) !! p ≠ Some Dir →
  open_w p m
  = (Return tt, set_world (set_fs (insert p (File [])) (tick (m_world m))) m).
Proof.
  intros Hos Hp. unfold open_w, on_world, write_file. cbv zeta. rewrite Hos.
  by destruct (fs (m_world m) !! p) as [[|c]|].
Qed.

Lemma f_write_open p data c m :
  fs (m_world m) !! p = Some (File c) →
  f_write p data m
  = (Return tt, set_world (set_fs (insert p (File (c ++ data))) (m_world m)) m).
Proof. intros Hp. unfold f_write, on_world, set_fs. simpl. by rewrite Hp. Qed.

Lemma os_chmod_allowed p mode m :
  os_denies (m_world m) (clock (m_world m)) p = false →
  is_Some (fs (m_world m) !! p) →
  os_chmod p mode m
  = (Return tt,
     Machine (tick (m_world m)) (m_cwd m) (m_stdin m) (m_stdout m)
       (<[p := mode]> (m_modes m))).
Proof.
  intros Hos [n Hp]. unfold os_chmod. cbv zeta. by rewrite Hos, Hp.
Qed.

(** One write to an open file, as a step of a method. *)
Ltac write_step :=
  erewrite on_machine_Return;
    [|apply f_write_open; simpl; rewrite ?lookup_insert_eq; reflexivity].

(** X24.  When the system lets the file be opened,
    [_create_server_properties] returns and [server.properties] holds the
    five defaults, one [key=value] line each in the order of the dict,
    whatever the file held before; nothing else changes. *)
Theorem _create_server_properties_writes self d m :
  server_dir self = Some d →
  let p := os_path_join d "server.properties" in
  let w := m_world m in
  os_denies w (clock w) p = false → fs w !! p ≠ Some Dir →
  _create_server_properties (self, m)
  = (Return tt,
     (self, set_world (set_fs (insert p (File (encode properties_text))) (tick w)) m)).
Proof.
  intros Hd p w Hos Hp. unfold _create_server_properties.
  unfold sio_bind at 1, get_self. cbn [fst snd].
  unfold sio_bind at 1, sio_lift. rewrite Hd. cbn [join_opt]. fold p.
  erewrite on_machine_Return; [|by apply open_w_allowed].
  unfold sio_for, default_properties. cbn [foldr fst snd].
  do 5 write_step.
  unfold sio_ret, set_world, set_fs. simpl.
  by rewrite !insert_insert_eq.
Qed.

Lemma _create_server_properties_writes_witness :
  let self := {| server_type := "paper"; version := VNone; server_dir := Some "/srv" |} in
  let m := Machine (World {["/srv/server.properties" := File [Byte.x41]]} 0 []
                      wizard_net (λ _ _, false)) "/" [] [] ∅ in
  fs (m_world (_create_server_properties (self, m)).2.2) !! "/srv/server.properties"
  = Some (File (encode properties_text)).
Proof.
  intros self m.
  rewrite (_create_server_properties_writes self "/srv" m eq_refl eq_refl
             ltac:(vm_compute; discriminate)).
  vm_compute. reflexivity.
Defined.

(** X25.  When the system lets the files be opened and the mode be set,
    [_create_start_script] returns: [start.bat] and [start.sh] hold their
    lines, whatever they held before, and [start.sh] has the mode [0o755];
    nothing else changes. *)
Theorem _create_start_script_writes self d m :
  server_dir self = Some d →
  let bat := os_path_join d "start.bat" in
  let sh := os_path_join d "start.sh" in
  let w := m_world m in
  os_denies w (clock w) bat = false →
  os_denies w (S (clock w)) sh = false →
  os_denies w (S (S (clock w))) sh = false →
  fs w !! bat ≠ Some Dir → fs w !! sh ≠ Some Dir →
  ∃ m',
    _create_start_script (self, m) = (Return tt, (self, m'))
    ∧ fs (m_world m')
      = <[sh := File (encode start_sh_text)]>
          (<[bat := File (encode start_bat_text)]> (fs w))
    ∧ m_modes m' = <[sh := 493%Z]> (m_modes m)
    ∧ m_stdin m' = m_stdin m ∧ m_stdout m' = m_stdout m.
Proof.
  intros Hd bat sh w Hos1 Hos2 Hos3 Hbat Hsh. unfold _create_start_script.
  assert (bat ≠ sh) as Hne by (by apply os_path_join_ne).
  unfold sio_bind at 1, get_self. cbn [fst snd].
  unfold sio_bind at 1, sio_lift. rewrite Hd. cbn [join_opt]. fold bat.
  erewrite on_machine_Return; [|by apply open_w_allowed].
  do 3 write_step.
  unfold sio_bind at 1. fold sh.
  erewrite on_machine_Return; last first.
  { apply open_w_allowed; simpl; [done|].
    rewrite lookup_insert_ne by done. by rewrite !lookup_insert_ne by done. }
  do 2 write_step.
  unfold sio_bind at 1.
  unfold on_machine. cbn [fst snd].
  rewrite os_chmod_allowed; [|done|simpl; by rewrite lookup_insert_eq].
  eexists. split; [reflexivity|]. simpl. split_and!; [|done..].
  rewrite !insert_insert_eq. reflexivity.
Qed.

Lemma _create_start_script_writes_witness :
  let self := {| server_type := "paper"; version := VNone; server_dir := Some "/srv" |} in
  ∃ m',
    _create_start_script (self, wizard_machine []) = (Return tt, (self, m'))
    ∧ m_modes m' = <["/srv/start.sh" := 493%Z]> ∅.
Proof.
  intros self.
  destruct (_create_start_script_writes self "/srv" (wizard_machine []) eq_refl
              eq_refl eq_refl eq_refl
              ltac:(vm_compute; discriminate) ltac:(vm_compute; discriminate))
    as (m' & Hrun & _ & Hmodes & _).
  exists m'. split; [exact Hrun|exact Hmodes].
Defined.

(** ** The vanilla download *)

(** The loop over the manifest stops at the first entry whose [id] is
    the version, asks for its details and takes the URL of the server
    download from them. *)
Lemma find_download_url_found v pre x post m us resp details downloads server du :
  Forall (λ y, ∃ id, py_getitem_str y "id" = Return id ∧ py_eq id v = false) pre →
  (∃ id, py_getitem_str x "id" = Return id ∧ py_eq id v = true) →
  py_getitem_str x "url" = Return (VStr us) →
  net (m_world m) (clock (m_world m)) us [] [] = HttpResponse resp →
  json resp = Some details →
  py_getitem_str details "downloads" = Return downloads →
  py_getitem_str downloads "server" = Return server →
  py_getitem_str server "url" = Return du →
  find_download_url v (pre ++ x :: post) m
  = (Return (Some du), set_world (tick (m_world m)) m).
Proof.
  intros Hpre (id & Hid & Heq) Hurl Hnet Hjson Hd Hs Hdu.
  induction Hpre as [|y pre (id' & Hid' & Hne) _ IH]; simpl.
  - unfold sio_bind at 1, sio_lift. rewrite Hid, Heq.
    unfold sio_bind at 1. rewrite Hurl.
    unfold sio_bind at 1, on_world, requests_get. simpl. rewrite Hnet. simpl.
    unfold sio_bind at 1, response_json. rewrite Hjson. simpl.
    unfold sio_bind, sio_lift, sio_ret. by rewrite Hd, Hs, Hdu.
  - unfold sio_bind at 1, sio_lift. by rewrite Hid', Hne.
Qed.

Section Download_found.

Variable repr_container : val → string.

(** X26.  Vanilla with a version: the launcher manifest is asked for,
    the first entry whose [id] equals the version gives the URL of its
    details, the details give the URL of the server download, and
    [server.jar] afterwards holds the body of the answer to that
    download, whatever the status of any of the three answers. *)
Theorem _download_server_jar_vanilla self m d resp body pre x post us
    resp' details downloads server ds jar_resp :
  let w := m_world m in
  let jar := os_path_join d "server.jar" in
  server_type self = "vanilla" → truthy (version self) = true →
  server_dir self = Some d →
  net w (clock w) launcher_manifest_url [] [] = HttpResponse resp →
  json resp = Some body →
  py_getitem_str body "versions" = Return (VList (pre ++ x :: post)) →
  Forall (λ y, ∃ id, py_getitem_str y "id" = Return id
                     ∧ py_eq id (version self) = false) pre →
  (∃ id, py_getitem_str x "id" = Return id ∧ py_eq id (version self) = true) →
  py_getitem_str x "url" = Return (VStr us) →
  net w (S (clock w)) us [] [] = HttpResponse resp' →
  json resp' = Some details →
  py_getitem_str details "downloads" = Return downloads →
  py_getitem_str downloads "server" = Return server →
  py_getitem_str server "url" = Return (VStr ds) →
  net w (S (S (clock w))) ds [] [] = HttpResponse jar_resp →
  os_denies w (S (S (S (clock w)))) jar = false →
  fs w !! jar ≠ Some Dir →
  ∃ m',
    _download_server_jar repr_container (self, m) = (Return jar, (self, m'))
    ∧ fs (m_world m') = <[jar := File (content jar_resp)]> (fs w).
Proof.
  intros w jar Ht Hver Hd Hnet Hjson Hvs Hpre Hx Hurl Hnet' Hjson' Hdl Hsv Hds
    Hnet'' Hos Hjar.
  destruct self as [t ver dir]. simpl in Ht, Hver, Hd, Hpre, Hx. subst t dir.
  unfold _download_server_jar, sio_bind, get_self.
  cbn -[os_path_join find_download_url]. rewrite Hver.
  cbn -[os_path_join find_download_url].
  unfold on_machine, on_world, requests_get.
  cbn -[os_path_join find_download_url].
  fold launcher_manifest_url. fold w. rewrite Hnet.
  cbn -[os_path_join find_download_url].
  unfold response_json. rewrite Hjson. cbn -[os_path_join find_download_url].
  rewrite Hvs. cbn -[os_path_join find_download_url].
  pose proof (find_download_url_found ver pre x post
                (set_world (tick w) (set_world (tick w) m)) us
                resp' details downloads server (VStr ds) Hpre Hx Hurl Hnet' Hjson'
                Hdl Hsv Hds) as Hfind.
  rewrite Hfind.
  cbn -[os_path_join find_download_url]. fold w. rewrite Hnet''.
  cbn -[os_path_join find_download_url].
  unfold open_w, on_world, write_file. cbn -[os_path_join find_download_url].
  fold jar. fold w. rewrite Hos.
  assert (∀ f : gmap string fsnode, f !! jar ≠ Some Dir → ∀ w1,
            match f !! jar with
            | Some Dir => (Raise (Exn true "IsADirectoryError") : outcome (), w1)
            | _ => (Return (), set_fs (insert jar (File [])) w1)
            end = (Return (), set_fs (insert jar (File [])) w1)) as Hopen.
  { intros f Hf w1. by destruct (f !! jar) as [[|c]|]. }
  rewrite (Hopen _ Hjar). cbn -[os_path_join find_download_url].
  unfold f_write, on_world. cbn -[os_path_join find_download_url].
  eexists. split; [reflexivity|]. cbn -[os_path_join find_download_url].
  rewrite lookup_insert_eq. by rewrite insert_insert_eq.
Qed.

End Download_found.

Lemma _download_server_jar_vanilla_witness :
  ∃ m',
    _download_server_jar no_repr
      ({| server_type := "vanilla"; version := VStr "1.20.1";
          server_dir := Some "/srv" |}, wizard_machine [])
    = (Return "/srv/server.jar",
       ({| server_type := "vanilla"; version := VStr "1.20.1";
           server_dir := Some "/srv" |}, m'))
    ∧ fs (m_world m')
      = <["/srv/server.jar" := File [Byte.x50; Byte.x4b; Byte.x03]]> ∅.
Proof.
  eapply (_download_server_jar_vanilla no_repr
            {| server_type := "vanilla"; version := VStr "1.20.1";
               server_dir := Some "/srv" |} (wizard_machine []) "/srv" _ _
            [VDict [("id", VStr "23w31a"); ("url", VStr "https://meta/23w31a.json")]]
            (VDict [("id", VStr "1.20.1"); ("url", VStr "https://meta/1.20.1.json")])
            [] "https://meta/1.20.1.json" _ _ _ _ "https://cdn/server-1.20.1.jar"
            (Response 200 [Byte.x50; Byte.x4b; Byte.x03] None));
    try reflexivity.
  - apply Forall_cons. split; [eexists; split; reflexivity|]. by apply Forall_nil.
  - eexists. split; reflexivity.
  - vm_compute. discriminate.
Defined.

End Wizard.
